(** * Jack's car rental (chapter 4): the policy-iteration solver of
    [chapter-4/car_rental.py], embedded in Rocq.

    Python's [float] and NumPy's [float64] are IEEE 754 binary64 numbers with
    round-to-nearest-even arithmetic: they are modelled by Rocq's primitive
    floats, whose operations are the same. Python's unbounded [int] (and the
    small [int32] entries of the policy array) are modelled by [Z]. The
    dictionaries are [gmap]s, the NumPy arrays live in a store and the solver
    object refers to them by location, so that aliasing is visible. Exceptions
    are an explicit [result] type; the two [while True] loops take fuel. *)

From Stdlib Require Import ZArith Floats QArith Qabs Lia Sorted.
From stdpp Require Import gmap list sorting.

#[local] Open Scope Z_scope.

(** ** Exceptions *)

Inductive exn := KeyError | IndexError | ValueError | OverflowError.

Inductive result (A : Type) :=
  | Ok (a : A)
  | Raise (e : exn).
Arguments Ok {A} a.
Arguments Raise {A} e.

#[global] Instance result_ret : MRet result := @Ok.
#[global] Instance result_bind : MBind result :=
  λ A B f r, match r with Ok a => f a | Raise e => Raise e end.

(** [for x in xs: body], threading the loop-carried state [s]. *)
Fixpoint for_each {A S : Type} (xs : list A) (body : A → S → result S) (s : S)
  : result S :=
  match xs with
  | [] => Ok s
  | x :: xs => s' ← body x s; for_each xs body s'
  end.

(** [range(lo, hi)] *)
Definition py_range (lo hi : Z) : list Z := seqZ lo (hi - lo).

(** ** Numbers *)

(** Conversion of an integer to the nearest binary64 number (ties to even);
    exact below 2^53. *)
Definition float_of_Z (z : Z) : float :=
  SF2Prim (binary_normalize prec emax z 0 false).

(** CPython's conversion of an [int] operand of a float operation: it raises
    [OverflowError] when the integer is too large for a finite float. *)
Definition float_of_int (z : Z) : result float :=
  let x := float_of_Z z in
  if PrimFloat.is_infinity x then Raise OverflowError else Ok x.

(** [math.factorial] *)
Definition math_factorial (n : Z) : result Z :=
  if n <? 0 then Raise ValueError else Ok (fold_left Z.mul (seqZ 1 n) 1).

(** [max] of a non-empty list of integers. *)
Definition py_max (l : list Z) : Z :=
  match l with
  | [] => 0
  | x :: l => fold_left Z.max l x
  end.

(** What the program takes from outside the repository: [math.exp] and
    [math.pow] of the C library, called on Python integers, and the
    unspecified contents of a buffer handed out by [np.empty_like]. *)
Class Platform := {
  math_exp : Z → result float;
  math_pow : Z → Z → result float;
  uninit_float : float;
  uninit_int : Z;
}.

(** ** Dictionaries *)

(** [d[k]] *)
Definition dict_get `{Countable K} {V} (d : gmap K V) (k : K) : result V :=
  match d !! k with
  | Some v => Ok v
  | None => Raise KeyError
  end.

(** [if k not in d: d[k] = 0.] followed by [d[k] += x] *)
Definition dict_accumulate `{Countable K} (d : gmap K float) (k : K) (x : float)
  : result (gmap K float) :=
  let d := match d !! k with None => <[k := 0%float]> d | Some _ => d end in
  v ← dict_get d k;
  Ok (<[k := (v + x)%float]> d).

(** ** Two-dimensional arrays and the store *)

Abbreviation table A := (list (list A)) (only parsing).

(** NumPy's index normalisation along an axis of length [len]: a negative
    index counts from the end, anything else out of range is an error. *)
Definition np_index (len : nat) (i : Z) : result nat :=
  if (0 <=? i) && (i <? Z.of_nat len) then Ok (Z.to_nat i)
  else if (- Z.of_nat len <=? i) && (i <? 0) then Ok (Z.to_nat (Z.of_nat len + i))
  else Raise IndexError.

(** [t[i, j]] *)
Definition tget {A} (t : table A) (i j : Z) : result A :=
  r ← np_index (length t) i;
  let row := default [] (t !! r) in
  c ← np_index (length row) j;
  match row !! c with
  | Some x => Ok x
  | None => Raise IndexError
  end.

(** [t[i, j] = x] *)
Definition tset {A} (t : table A) (i j : Z) (x : A) : result (table A) :=
  r ← np_index (length t) i;
  let row := default [] (t !! r) in
  c ← np_index (length row) j;
  Ok (<[r := <[c := x]> row]> t).

Definition full {A} (rows cols : nat) (x : A) : table A :=
  replicate rows (replicate cols x).

(** A buffer of the shape of [t] with every cell holding [x]. *)
Definition full_like {A B} (t : table A) (x : B) : table B :=
  map (map (λ _, x)) t.

Abbreviation loc := nat (only parsing).

(** The store: the [float64] arrays and the [int32] arrays allocated so far. *)
Record heap := Heap {
  farrays : list (table float);
  iarrays : list (table Z);
}.

Definition fderef (h : heap) (l : loc) : table float := default [] (farrays h !! l).
Definition ideref (h : heap) (l : loc) : table Z := default [] (iarrays h !! l).

Definition falloc (t : table float) (h : heap) : loc * heap :=
  (length (farrays h), Heap (farrays h ++ [t]) (iarrays h)).
Definition ialloc (t : table Z) (h : heap) : loc * heap :=
  (length (iarrays h), Heap (farrays h) (iarrays h ++ [t])).

Definition fstore (l : loc) (t : table float) (h : heap) : heap :=
  Heap (<[l := t]> (farrays h)) (iarrays h).
Definition istore (l : loc) (t : table Z) (h : heap) : heap :=
  Heap (farrays h) (<[l := t]> (iarrays h)).

(** ** Module constants *)

Definition ACTIONS : list Z := [-5; -4; -3; -2; -1; 0; 1; 2; 3; 4; 5].
Definition CAR_RENTAL_COST : Z := 10.
Definition CAR_MOVE_COST : Z := 2.
Definition MAX_CARS : Z := 20.
Definition MAX_MOVE : Z := 5.
Definition REQUEST_1_LAMBDA : Z := 3.
Definition DROPOFF_1_LAMBDA : Z := 3.
Definition REQUEST_2_LAMBDA : Z := 4.
Definition DROPOFF_B_LAMBDA : Z := 2.
(** The binary64 number that the literal [0.9] denotes. *)
Definition DISCOUNT : float := 0x1.ccccccccccccdp-1%float.

(** ** The solver object *)

Abbreviation state := (Z * Z)%type (only parsing).

Record CarRental := {
  _poisson_prob : gmap (Z * Z) float;
  state_values : loc;
  policy : loc;
  _probs_1 : gmap (Z * Z) float;
  _rewards_1 : gmap Z float;
  _probs_2 : gmap (Z * Z) float;
  _rewards_2 : gmap Z float;
}.

(** ** Methods that only read *)

Definition get_reward (self : CarRental) (s : state) : result float :=
  r1 ← dict_get (_rewards_1 self) s.1;
  r2 ← dict_get (_rewards_2 self) s.2;
  Ok (r1 + r2)%float.

Definition step (self : CarRental) (s : state) (action : Z) : result (state * float) :=
  let morning_n1 := s.1 - action in
  let morning_n2 := s.2 + action in
  let new_state := (morning_n1, morning_n2) in
  reward ← get_reward self new_state;
  Ok (new_state, reward).

Definition get_transition_probability (self : CarRental) (s new_state : state)
  : result float :=
  p1 ← dict_get (_probs_1 self) (s.1, new_state.1);
  p2 ← dict_get (_probs_2 self) (s.2, new_state.2);
  Ok (p1 * p2)%float.

Definition get_valid_action (s : state) (action : Z) : Z :=
  let '(cars_at_1, cars_at_2) := s in
  let action := Z.max (- cars_at_2) (Z.min action cars_at_1) in
  let action := Z.max (- MAX_MOVE) (Z.min MAX_MOVE action) in
  action.

Definition get_available_actions (s : state) : list Z :=
  py_range (Z.max (- MAX_CARS) (- s.2)) (Z.min MAX_CARS s.1 + 1).

Definition bellman_expectation (self : CarRental) (h : heap) (s : state) (action : Z)
  : result float :=
  let action := get_valid_action s action in
  '(morning, r) ← step self s action;
  let state_value := float_of_Z (- CAR_MOVE_COST * Z.abs action) in
  for_each (py_range 0 (MAX_CARS + 1)) (λ new_n1 state_value,
    for_each (py_range 0 (MAX_CARS + 1)) (λ new_n2 state_value,
      p ← get_transition_probability self morning (new_n1, new_n2);
      v ← tget (fderef h (state_values self)) new_n1 new_n2;
      Ok (state_value + p * (r + DISCOUNT * v))%float)
    state_value)
  state_value.

(** ** Building the model *)

Section Model.
Context `{Platform}.

Definition poisson_probability (cache : gmap (Z * Z) float) (n lam : Z)
  : result (float * gmap (Z * Z) float) :=
  let key := (n, lam) in
  cache ← match cache !! key with
          | Some _ => Ok cache
          | None =>
              e ← math_exp (- lam);
              p ← math_pow lam n;
              f ← math_factorial n;
              d ← float_of_int f;
              Ok (<[key := (e * (p / d))%float]> cache)
          end;
  v ← dict_get cache key;
  Ok (v, cache).

Definition model_range : list Z := py_range 0 (MAX_CARS + py_max ACTIONS + 1).

(** The loop-carried state of [precompute_model]: the memoisation cache of
    the object and the two local dictionaries. *)
Record building := Building {
  b_cache : gmap (Z * Z) float;
  b_P : gmap (Z * Z) float;
  b_R : gmap Z float;
}.

Definition precompute_model (cache : gmap (Z * Z) float)
    (lambda_requests lambda_dropoffs : Z) : result building :=
  for_each model_range (λ requests b,
    '(request_prob, cache) ← poisson_probability (b_cache b) requests lambda_requests;
    R ← for_each model_range (λ n R,
           dict_accumulate R n
             (float_of_Z CAR_RENTAL_COST * request_prob
              * float_of_Z (Z.min requests n))%float)
         (b_R b);
    for_each model_range (λ dropoffs b,
      '(dropoffs_prob, cache) ← poisson_probability (b_cache b) dropoffs lambda_dropoffs;
      P ← for_each model_range (λ n P,
             let satisfied_requests := Z.min requests n in
             let new_n := Z.max 0 (Z.min MAX_CARS (n + dropoffs - satisfied_requests)) in
             dict_accumulate P (n, new_n) (request_prob * dropoffs_prob)%float)
           (b_P b);
      Ok (Building cache P (b_R b)))
    (Building cache (b_P b) R))
  (Building cache ∅ ∅).

Definition np_zeros {A} (zero : A) : table A :=
  full (Z.to_nat (MAX_CARS + 1)) (Z.to_nat (MAX_CARS + 1)) zero.

(** [reset]: returns the object and the store after the call. *)
Definition reset (h : heap) : result (CarRental * heap) :=
  let '(sv, h) := falloc (np_zeros 0%float) h in
  let '(pol, h) := ialloc (np_zeros 0) h in
  b1 ← precompute_model ∅ REQUEST_1_LAMBDA DROPOFF_1_LAMBDA;
  b2 ← precompute_model (b_cache b1) REQUEST_2_LAMBDA DROPOFF_B_LAMBDA;
  Ok ({| _poisson_prob := b_cache b2; state_values := sv; policy := pol;
         _probs_1 := b_P b1; _rewards_1 := b_R b1;
         _probs_2 := b_P b2; _rewards_2 := b_R b2 |}, h).
End Model.

(** ** NumPy reductions used by the solver *)

Definition np_sub (a b : table float) : table float :=
  zip_with (zip_with PrimFloat.sub) a b.

Definition np_abs (t : table float) : table float := map (map PrimFloat.abs) t.

(** [np.maximum]: the larger operand, a NaN when either is one. *)
Definition np_maximum (a b : float) : float :=
  if PrimFloat.leb b a || PrimFloat.is_nan a then a else b.

(** [np.max] over all cells. *)
Definition np_max (t : table float) : result float :=
  match concat t with
  | [] => Raise ValueError
  | x :: xs => Ok (fold_left np_maximum xs x)
  end.

(** [(a == b).all()] *)
Definition np_all_equal (a b : table Z) : bool :=
  forallb (forallb id) (zip_with (zip_with Z.eqb) a b).

(** ** Loops that may not terminate *)

(** What an iteration of a loop body does: leave the method with a value, or
    fall through to the next iteration. *)
Inductive flow (S R : Type) :=
  | Return (r : R)
  | Next (s : S).
Arguments Return {S R} r.
Arguments Next {S R} s.

(** [while cond: body]. [None]: the fuel ran out. [Some (Ok (Next s))]: the
    loop was left because its condition failed, and the statements after it
    run from [s]. *)
Fixpoint py_while {S R : Type} (fuel : nat) (cond : S → bool)
    (body : S → option (result (flow S R))) (s : S) : option (result (flow S R)) :=
  match fuel with
  | O => None
  | Datatypes.S fuel =>
      if cond s then
        match body s with
        | None => None
        | Some (Raise e) => Some (Raise e)
        | Some (Ok (Return r)) => Some (Ok (Return r))
        | Some (Ok (Next s)) => py_while fuel cond body s
        end
      else Some (Ok (Next s))
  end.

(** ** Policy evaluation, policy improvement, policy iteration *)

Definition set_state_values (l : loc) (self : CarRental) : CarRental :=
  {| _poisson_prob := _poisson_prob self; state_values := l; policy := policy self;
     _probs_1 := _probs_1 self; _rewards_1 := _rewards_1 self;
     _probs_2 := _probs_2 self; _rewards_2 := _rewards_2 self |}.

Definition set_policy (l : loc) (self : CarRental) : CarRental :=
  {| _poisson_prob := _poisson_prob self; state_values := state_values self; policy := l;
     _probs_1 := _probs_1 self; _rewards_1 := _rewards_1 self;
     _probs_2 := _probs_2 self; _rewards_2 := _rewards_2 self |}.

(** [for available_A in range(MAX_CARS + 1): for available_B in range(MAX_CARS + 1)] *)
Definition for_each_state (body : state → heap → result heap) (h : heap) : result heap :=
  for_each (py_range 0 (MAX_CARS + 1)) (λ available_A h,
    for_each (py_range 0 (MAX_CARS + 1)) (λ available_B h,
      body (available_A, available_B) h)
    h)
  h.

(** The body of the sweep of [policy_evaluation]; [new_values] is the local
    variable of that name, a reference to an array of the store. *)
Definition evaluate_state (self : CarRental) (new_values : loc) (s : state) (h : heap)
  : result heap :=
  action ← tget (ideref h (policy self)) s.1 s.2;
  new_state_value ← bellman_expectation self h s action;
  t ← tset (fderef h new_values) s.1 s.2 new_state_value;
  Ok (fstore new_values t h).

(** The search over the actions of one state in [policy_improvement]. *)
Definition greedy_search (self : CarRental) (h : heap) (s : state) (best_action : Z)
  : result (float * Z) :=
  for_each (get_available_actions s) (λ action best,
    let '(best_value, best_action) := best in
    value ← bellman_expectation self h s action;
    if (best_value <? value)%float then Ok (value, action)
    else Ok (best_value, best_action))
  (neg_infinity, best_action).

Definition improve_state (self : CarRental) (new_policy : loc) (s : state) (h : heap)
  : result heap :=
  best_action ← tget (ideref h (policy self)) s.1 s.2;
  best ← greedy_search self h s best_action;
  t ← tset (ideref h new_policy) s.1 s.2 best.2;
  Ok (istore new_policy t h).

(** The binary64 number that the literal [1e-3] denotes. *)
Definition default_theta : float := 0x1.0624dd2f1a9fcp-10%float.

Record eval_state := EvalState {
  ev_self : CarRental;
  ev_new_values : loc;
  ev_heap : heap;
}.

Section Solver.
Context `{Platform}.

(** One iteration of the [while True] of [policy_evaluation]. *)
Definition evaluation_round (theta : float) (st : eval_state)
  : result (flow eval_state (CarRental * heap)) :=
  let self := ev_self st in
  h ← for_each_state (evaluate_state self (ev_new_values st)) (ev_heap st);
  delta ← np_max (np_abs (np_sub (fderef h (state_values self))
                                 (fderef h (ev_new_values st))));
  let '(copy, h) := falloc (fderef h (ev_new_values st)) h in
  let self := set_state_values copy self in
  let '(new_values, h) :=
    falloc (full_like (fderef h (state_values self)) uninit_float) h in
  if (delta <? theta)%float then Ok (Return (self, h))
  else Ok (Next (EvalState self new_values h)).

Definition policy_evaluation (fuel : nat) (theta : float) (self : CarRental) (h : heap)
  : option (result (CarRental * heap)) :=
  let '(new_values, h) :=
    falloc (full_like (fderef h (state_values self)) uninit_float) h in
  match py_while fuel (λ _, true) (λ st, Some (evaluation_round theta st))
          (EvalState self new_values h) with
  | None => None
  | Some (Raise e) => Some (Raise e)
  | Some (Ok (Return w)) => Some (Ok w)
  | Some (Ok (Next _)) => Some (Raise ValueError)
  end.

Definition policy_improvement (self : CarRental) (h : heap)
  : result (bool * (CarRental * heap)) :=
  let '(new_policy, h) := ialloc (full_like (ideref h (policy self)) uninit_int) h in
  h ← for_each_state (improve_state self new_policy) h;
  let converged := np_all_equal (ideref h new_policy) (ideref h (policy self)) in
  let '(copy, h) := ialloc (ideref h new_policy) h in
  Ok (converged, (set_policy copy self, h)).

(** One iteration of the [while True] of [policy_iteration] (with
    [plot=False]; the calls of [print] are not modelled). *)
Definition iteration_round (fuel : nat) (w : CarRental * heap)
  : option (result (flow (CarRental * heap) (CarRental * heap))) :=
  match policy_evaluation fuel default_theta w.1 w.2 with
  | None => None
  | Some (Raise e) => Some (Raise e)
  | Some (Ok w) =>
      Some ('(converged, w) ← policy_improvement w.1 w.2;
            if converged : bool then Ok (Return w) else Ok (Next w))
  end.

Definition policy_iteration (fuel : nat) (self : CarRental) (h : heap)
  : option (result (CarRental * heap)) :=
  match py_while fuel (λ _, true) (iteration_round fuel) (self, h) with
  | None => None
  | Some (Raise e) => Some (Raise e)
  | Some (Ok (Return w)) => Some (Ok w)
  | Some (Ok (Next _)) => Some (Raise ValueError)
  end.

(** [CarRental()] *)
Definition CarRental_init (h : heap) : result (CarRental * heap) := reset h.
End Solver.

(** ** A reference platform

    [math.pow] on the integer arguments of the program has an exactly
    representable result; [math.exp] is tabulated at the three arguments the
    program passes, [-2], [-3] and [-4]. *)
Definition ref_platform (e2 e3 e4 : float) : Platform := {|
  math_exp z :=
    if decide (z = -2) then Ok e2
    else if decide (z = -3) then Ok e3
    else if decide (z = -4) then Ok e4
    else Raise OverflowError;
  math_pow a b := if 0 <=? b then Ok (float_of_Z (a ^ b)) else Raise ValueError;
  uninit_float := 0%float;
  uninit_int := 0;
|}.

(** The correctly rounded values of e^-2, e^-3 and e^-4. *)
Definition exp_m2 : float := 0x1.152aaa3bf81ccp-3%float.
Definition exp_m3 : float := 0x1.97db0ccceb0afp-5%float.
Definition exp_m4 : float := 0x1.2c155b8213cf4p-6%float.

Definition libm : Platform := ref_platform exp_m2 exp_m3 exp_m4.

(** * Properties *)

(** ** Loops *)

Lemma bind_Ok {A B} (r : result A) (f : A → result B) (b : B) :
  r ≫= f = Ok b ↔ ∃ a, r = Ok a ∧ f a = Ok b.
Proof.
  destruct r as [a|e]; simpl; split.
  - eauto.
  - by intros (a' & [= ->] & ?).
  - done.
  - by intros (a' & ? & ?).
Qed.

Lemma for_each_app {A S} (xs ys : list A) (body : A → S → result S) (s : S) :
  for_each (xs ++ ys) body s = for_each xs body s ≫= for_each ys body.
Proof.
  revert s. induction xs as [|x xs IH]; intros s; simpl; [done|].
  destruct (body x s) as [s'|e]; simpl; [apply IH | done].
Qed.

Lemma for_each_ext {A S} (xs : list A) (body1 body2 : A → S → result S) (s : S) :
  (∀ x s, x ∈ xs → body1 x s = body2 x s) →
  for_each xs body1 s = for_each xs body2 s.
Proof.
  revert s. induction xs as [|x xs IH]; intros s Hext; simpl; [done|].
  rewrite Hext by left. destruct (body2 x s) as [s'|e]; simpl; [|done].
  apply IH. intros y s'' Hy. apply Hext. by right.
Qed.

(** A loop whose body cannot fail is a fold. *)
Lemma for_each_pure {A S} (xs : list A) (body : A → S → result S) (f : S → A → S) (s : S) :
  (∀ x s, x ∈ xs → body x s = Ok (f s x)) →
  for_each xs body s = Ok (fold_left f xs s).
Proof.
  revert s. induction xs as [|x xs IH]; intros s Hb; simpl; [done|].
  rewrite Hb by left. simpl. apply IH. intros y s' Hy. apply Hb. by right.
Qed.

(** Two nested loops are one loop over the pairs, row by row. *)
Lemma for_each_nested {A B S} (xs : list A) (ys : list B)
    (body : A * B → S → result S) (s : S) :
  for_each xs (λ x s, for_each ys (λ y s, body (x, y) s) s) s
  = for_each (x ← xs; (λ y, (x, y)) <$> ys) body s.
Proof.
  revert s. induction xs as [|x xs IH]; intros s; [done|].
  cbn [for_each mbind list_bind]. rewrite for_each_app.
  assert (for_each ((λ y, (x, y)) <$> ys) body s = for_each ys (λ y s, body (x, y) s) s) as ->.
  { clear. revert s. induction ys as [|y ys IH]; intros s; simpl; [done|].
    destruct (body (x, y) s); simpl; [apply IH | done]. }
  destruct (for_each ys _ s) as [s'|e]; simpl; [apply IH | done].
Qed.

(** An invariant of the loop-carried state. *)
Lemma for_each_invariant {A S} (I : S → Prop) (xs : list A)
    (body : A → S → result S) (s s' : S) :
  (∀ x s s', x ∈ xs → I s → body x s = Ok s' → I s') →
  I s → for_each xs body s = Ok s' → I s'.
Proof.
  revert s. induction xs as [|x xs IH]; intros s Hb Hs; simpl.
  - by intros [= <-].
  - intros (s1 & H1 & H2)%bind_Ok.
    eapply (IH s1); [|by eapply Hb; [left|..]|done].
    intros y t t' Hy. apply Hb. by right.
Qed.

Lemma elem_of_py_range (lo hi i : Z) : i ∈ py_range lo hi ↔ lo ≤ i < hi.
Proof. unfold py_range. rewrite elem_of_seqZ. lia. Qed.

(** ** The states of the problem *)

Definition in_range (s : state) : Prop :=
  (0 ≤ s.1 ≤ MAX_CARS) ∧ (0 ≤ s.2 ≤ MAX_CARS).

(** All states, in the order in which the two nested loops visit them. *)
Definition all_states : list state :=
  a ← py_range 0 (MAX_CARS + 1); (λ b, (a, b)) <$> py_range 0 (MAX_CARS + 1).

Lemma elem_of_all_states (s : state) : s ∈ all_states ↔ in_range s.
Proof.
  unfold all_states, in_range. rewrite list_elem_of_bind. split.
  - intros (a & (b & -> & Hb%elem_of_py_range)%list_elem_of_fmap & Ha%elem_of_py_range).
    simpl. lia.
  - intros [H1 H2]. exists s.1. split.
    + apply list_elem_of_fmap. exists s.2. split; [by destruct s|].
      apply elem_of_py_range. lia.
    + apply elem_of_py_range. lia.
Qed.

Lemma for_each_state_all_states (body : state → heap → result heap) (h : heap) :
  for_each_state body h = for_each all_states body h.
Proof. unfold for_each_state, all_states. apply for_each_nested. Qed.

(** ** Arrays of the shape of the state space *)

Definition side : nat := Z.to_nat (MAX_CARS + 1).

Definition shaped {A} (t : table A) : Prop :=
  length t = side ∧ Forall (λ row, length row = side) t.

(** The cell of a state, for statements: no index normalisation, no error. *)
Definition cell {A} (t : table A) (s : state) : option A :=
  row ← t !! Z.to_nat s.1; row !! Z.to_nat s.2.

Lemma np_index_in_range (len : nat) (i : Z) :
  0 ≤ i < Z.of_nat len → np_index len i = Ok (Z.to_nat i).
Proof.
  intros Hi. unfold np_index.
  destruct (Z.leb_spec 0 i), (Z.ltb_spec i (Z.of_nat len)); simpl; done || lia.
Qed.

Lemma in_range_lt_side (s : state) :
  in_range s → (Z.to_nat s.1 < side)%nat ∧ (Z.to_nat s.2 < side)%nat.
Proof. unfold in_range, side, MAX_CARS. lia. Qed.

Lemma shaped_row {A} (t : table A) (s : state) :
  shaped t → in_range s →
  ∃ row, t !! Z.to_nat s.1 = Some row ∧ length row = side.
Proof.
  intros [Hlen Hrows] [Hs _]%in_range_lt_side.
  destruct (lookup_lt_is_Some_2 t (Z.to_nat s.1)) as [row Hrow]; [lia|].
  exists row. split; [done|]. by eapply (Forall_lookup_1 _ _ _ _ Hrows).
Qed.

Lemma tget_cell {A} (t : table A) (s : state) :
  shaped t → in_range s → ∃ x, cell t s = Some x ∧ tget t s.1 s.2 = Ok x.
Proof.
  intros Ht Hs. destruct (shaped_row t s Ht Hs) as (row & Hrow & Hlen).
  destruct (in_range_lt_side s Hs) as [H1 H2].
  destruct (lookup_lt_is_Some_2 row (Z.to_nat s.2)) as [x Hx]; [lia|].
  exists x. unfold cell, tget. rewrite Hrow. simpl. split; [done|].
  destruct Ht as [Ht _]. destruct Hs as [? ?]. unfold side in *.
  rewrite np_index_in_range by lia. simpl. rewrite Hrow. simpl.
  rewrite np_index_in_range by lia. simpl. by rewrite Hx.
Qed.

Lemma tget_cell_eq {A} (t : table A) (s : state) (x : A) :
  shaped t → in_range s → (tget t s.1 s.2 = Ok x ↔ cell t s = Some x).
Proof.
  intros Ht Hs. destruct (tget_cell t s Ht Hs) as (y & -> & ->).
  split; congruence.
Qed.

Lemma tset_cell {A} (t : table A) (s : state) (x : A) :
  shaped t → in_range s →
  ∃ t', tset t s.1 s.2 x = Ok t' ∧ shaped t' ∧ cell t' s = Some x
        ∧ ∀ s', in_range s' → s' ≠ s → cell t' s' = cell t s'.
Proof.
  intros Ht Hs. destruct (shaped_row t s Ht Hs) as (row & Hrow & Hlen).
  destruct (in_range_lt_side s Hs) as [H1 H2].
  exists (<[Z.to_nat s.1 := <[Z.to_nat s.2 := x]> row]> t).
  assert (length t = side) as Hside by apply Ht.
  split; [|split; [|split]].
  - unfold tset. destruct Hs as [? ?]. unfold side in *.
    rewrite np_index_in_range by lia. simpl. rewrite Hrow. simpl.
    by rewrite np_index_in_range by lia.
  - destruct Ht as [Ht Hrows]. split; [by rewrite length_insert|].
    apply Forall_insert; [done|]. cbv beta. by rewrite length_insert.
  - unfold cell. rewrite list_lookup_insert_eq by lia. simpl.
    apply list_lookup_insert_eq. lia.
  - intros s' Hs' Hne. unfold cell.
    destruct (decide (Z.to_nat s.1 = Z.to_nat s'.1)) as [Heq|Hrne].
    + rewrite <-Heq, list_lookup_insert_eq, Hrow by lia. simpl.
      apply list_lookup_insert_ne. intros Hc. apply Hne.
      destruct s, s', Hs, Hs'. simpl in *. f_equal; lia.
    + by rewrite list_lookup_insert_ne.
Qed.

Lemma table_ext {A} (t1 t2 : table A) :
  shaped t1 → shaped t2 → (∀ s, in_range s → cell t1 s = cell t2 s) → t1 = t2.
Proof.
  intros [Hl1 Hr1] [Hl2 Hr2] Hcell.
  apply (list_eq_same_length _ _ side); [done..|].
  intros i r1 r2 Hi Hrow1 Hrow2.
  apply (list_eq_same_length _ _ side).
  - by eapply (Forall_lookup_1 _ _ _ _ Hr2).
  - by eapply (Forall_lookup_1 _ _ _ _ Hr1).
  - intros j x y Hj Hx Hy.
    specialize (Hcell (Z.of_nat i, Z.of_nat j)). unfold cell in Hcell. simpl in Hcell.
    rewrite !Nat2Z.id, Hrow1, Hrow2 in Hcell. simpl in Hcell.
    rewrite Hx, Hy in Hcell. apply (inj Some), Hcell.
    unfold in_range, side, MAX_CARS in *. simpl. lia.
Qed.

Lemma shaped_full_like {A B} (t : table A) (x : B) : shaped t → shaped (full_like t x).
Proof.
  intros [Hl Hr]. unfold full_like. split; [by rewrite length_map|].
  apply Forall_fmap. eapply Forall_impl; [done|].
  intros row Hrow. simpl. by rewrite length_map.
Qed.

Lemma shaped_np_zeros {A} (x : A) : shaped (np_zeros x).
Proof.
  unfold np_zeros, full, shaped, side. split; [by rewrite length_replicate|].
  apply Forall_replicate. by rewrite length_replicate.
Qed.

(** ** Well-formed solver objects *)

(** The keys of the tables that [precompute_model] builds:
    morning inventories up to [MAX_CARS + MAX_MOVE], next-morning inventories
    up to [MAX_CARS]. *)
Record model_ok (self : CarRental) : Prop := {
  rewards_1_dom : ∀ n, is_Some (_rewards_1 self !! n) ↔ 0 ≤ n ≤ MAX_CARS + MAX_MOVE;
  rewards_2_dom : ∀ n, is_Some (_rewards_2 self !! n) ↔ 0 ≤ n ≤ MAX_CARS + MAX_MOVE;
  probs_1_dom : ∀ n n', is_Some (_probs_1 self !! (n, n'))
                        ↔ 0 ≤ n ≤ MAX_CARS + MAX_MOVE ∧ 0 ≤ n' ≤ MAX_CARS;
  probs_2_dom : ∀ n n', is_Some (_probs_2 self !! (n, n'))
                        ↔ 0 ≤ n ≤ MAX_CARS + MAX_MOVE ∧ 0 ≤ n' ≤ MAX_CARS;
}.

(** The object refers to two arrays of the store, both 21 by 21. *)
Record solver_wf (self : CarRental) (h : heap) : Prop := {
  wf_model : model_ok self;
  wf_values : shaped (fderef h (state_values self));
  wf_policy : shaped (ideref h (policy self));
}.

Lemma shaped_valid_f (h : heap) (l : loc) :
  shaped (fderef h l) → (l < length (farrays h))%nat.
Proof.
  intros [Hlen _]. apply lookup_lt_is_Some. unfold fderef in Hlen.
  destruct (farrays h !! l); [done|discriminate].
Qed.

Lemma shaped_valid_i (h : heap) (l : loc) :
  shaped (ideref h l) → (l < length (iarrays h))%nat.
Proof.
  intros [Hlen _]. apply lookup_lt_is_Some. unfold ideref in Hlen.
  destruct (iarrays h !! l); [done|discriminate].
Qed.

(** ** Values for statements: lookups without the error case *)

Definition dict_value `{Countable K} (d : gmap K float) (k : K) : float :=
  default 0%float (d !! k).

Definition table_value (t : table float) (s : state) : float :=
  default 0%float (cell t s).

Lemma dict_get_is_Some `{Countable K} (d : gmap K float) (k : K) :
  is_Some (d !! k) → dict_get d k = Ok (dict_value d k).
Proof. intros [v Hv]. unfold dict_get, dict_value. by rewrite Hv. Qed.

Lemma dict_get_None `{Countable K} {V} (d : gmap K V) (k : K) :
  d !! k = None → dict_get d k = Raise KeyError.
Proof. intros Hk. unfold dict_get. by rewrite Hk. Qed.

Lemma tget_table_value (t : table float) (s : state) :
  shaped t → in_range s → tget t s.1 s.2 = Ok (table_value t s).
Proof.
  intros Ht Hs. destruct (tget_cell t s Ht Hs) as (x & Hc & ->).
  unfold table_value. by rewrite Hc.
Qed.

(** ** Feasible actions *)

Lemma get_valid_action_bounds (s : state) (action : Z) :
  in_range s →
  let a := get_valid_action s action in
  Z.abs a ≤ MAX_MOVE ∧ a ≤ s.1 ∧ - a ≤ s.2
  ∧ 0 ≤ s.1 - a ≤ MAX_CARS + MAX_MOVE ∧ 0 ≤ s.2 + a ≤ MAX_CARS + MAX_MOVE.
Proof.
  destruct s as [n1 n2]. unfold in_range, get_valid_action, MAX_CARS, MAX_MOVE.
  simpl. lia.
Qed.

Lemma get_available_actions_in_range (s : state) :
  in_range s → get_available_actions s = py_range (- s.2) (s.1 + 1).
Proof.
  unfold in_range, get_available_actions. intros [H1 H2].
  f_equal; lia.
Qed.

(** The morning state of a state and a proposed action: the action is
    clamped, then the cars are moved. *)
Definition morning_state (s : state) (action : Z) : state :=
  let a := get_valid_action s action in (s.1 - a, s.2 + a).

Definition expected_reward (self : CarRental) (m : state) : float :=
  (dict_value (_rewards_1 self) m.1 + dict_value (_rewards_2 self) m.2)%float.

Definition transition (self : CarRental) (m s' : state) : float :=
  (dict_value (_probs_1 self) (m.1, s'.1) * dict_value (_probs_2 self) (m.2, s'.2))%float.

(** The backup as one sum over the next states, in row-major order: each
    term weighs the immediate reward and the discounted value alike by the
    transition probability. *)
Definition backup (self : CarRental) (V : table float) (s : state) (action : Z) : float :=
  let m := morning_state s action in
  let r := expected_reward self m in
  fold_left (λ state_value s',
               state_value + transition self m s' * (r + DISCOUNT * table_value V s'))%float
            all_states
            (float_of_Z (- CAR_MOVE_COST * Z.abs (get_valid_action s action))).

(** The backup as the specification words it: the immediate reward is added
    once, and only the discounted values are weighed by the probabilities. *)
Definition backup_reward_added_once (self : CarRental) (V : table float) (s : state)
    (action : Z) : float :=
  let m := morning_state s action in
  let R := expected_reward self m in
  let movement_cost := float_of_Z (CAR_MOVE_COST * Z.abs (get_valid_action s action)) in
  let future :=
    fold_left (λ acc s', acc + transition self m s' * (DISCOUNT * table_value V s'))%float
              all_states 0%float in
  (- movement_cost + R + future)%float.

Definition morning_ok (m : state) : Prop :=
  (0 ≤ m.1 ≤ MAX_CARS + MAX_MOVE) ∧ (0 ≤ m.2 ≤ MAX_CARS + MAX_MOVE).

Lemma get_reward_ok (self : CarRental) (m : state) :
  model_ok self → morning_ok m → get_reward self m = Ok (expected_reward self m).
Proof.
  intros Hm [H1 H2]. unfold get_reward.
  rewrite (dict_get_is_Some (_rewards_1 self)) by by apply (rewards_1_dom _ Hm). simpl.
  by rewrite (dict_get_is_Some (_rewards_2 self)) by by apply (rewards_2_dom _ Hm).
Qed.

Lemma get_reward_KeyError (self : CarRental) (m : state) :
  model_ok self → ¬ morning_ok m → get_reward self m = Raise KeyError.
Proof.
  intros Hm Hno. unfold get_reward.
  destruct (_rewards_1 self !! m.1) as [r1|] eqn:E1.
  - rewrite (dict_get_is_Some _ _ (mk_is_Some _ _ E1)). simpl.
    rewrite dict_get_None; [done|].
    apply eq_None_not_Some. intros H2%(rewards_2_dom _ Hm).
    apply Hno. split; [|done]. apply (rewards_1_dom _ Hm). by eexists.
  - by rewrite (dict_get_None (_rewards_1 self)).
Qed.

Lemma get_transition_probability_ok (self : CarRental) (m s' : state) :
  model_ok self → morning_ok m → in_range s' →
  get_transition_probability self m s' = Ok (transition self m s').
Proof.
  intros Hm [H1 H2] [H3 H4]. unfold get_transition_probability.
  rewrite (dict_get_is_Some (_probs_1 self)) by by apply (probs_1_dom _ Hm). simpl.
  by rewrite (dict_get_is_Some (_probs_2 self)) by by apply (probs_2_dom _ Hm).
Qed.

Lemma morning_state_ok (s : state) (action : Z) :
  in_range s → morning_ok (morning_state s action).
Proof.
  intros Hs. pose proof (get_valid_action_bounds s action Hs) as Hb.
  unfold morning_ok, morning_state. simpl in *. lia.
Qed.

(** On a well-formed solver the backup raises nothing and is the sum
    [backup] of the table the object refers to. *)
Lemma bellman_expectation_backup (self : CarRental) (h : heap) (s : state) (action : Z) :
  solver_wf self h → in_range s →
  bellman_expectation self h s action
  = Ok (backup self (fderef h (state_values self)) s action).
Proof.
  intros [Hm HV _] Hs. unfold bellman_expectation, step, backup.
  pose proof (morning_state_ok s action Hs) as Hmo.
  unfold morning_state in *. cbv zeta in *.
  set (m := (s.1 - get_valid_action s action, s.2 + get_valid_action s action)) in *.
  rewrite (get_reward_ok self m Hm Hmo). cbn [mbind result_bind].
  rewrite (for_each_nested _ _ (λ s' state_value,
    p ← get_transition_probability self m s';
    v ← tget (fderef h (state_values self)) s'.1 s'.2;
    Ok (state_value + p * (expected_reward self m + DISCOUNT * v))%float)).
  apply for_each_pure. intros s' sv Hs'%elem_of_all_states.
  rewrite (get_transition_probability_ok self m s' Hm Hmo Hs'). cbn [mbind result_bind].
  by rewrite (tget_table_value _ s' HV Hs').
Qed.

(** The same on any state whose morning state is in the tables, also when
    the state itself is out of range. *)
Lemma bellman_expectation_morning (self : CarRental) (h : heap) (s : state) (action : Z) :
  solver_wf self h → morning_ok (morning_state s action) →
  bellman_expectation self h s action
  = Ok (backup self (fderef h (state_values self)) s action).
Proof.
  intros [Hm HV _] Hmo. unfold bellman_expectation, step, backup.
  unfold morning_state in *. cbv zeta in *.
  set (m := (s.1 - get_valid_action s action, s.2 + get_valid_action s action)) in *.
  rewrite (get_reward_ok self m Hm Hmo). cbn [mbind result_bind].
  rewrite (for_each_nested _ _ (λ s' state_value,
    p ← get_transition_probability self m s';
    v ← tget (fderef h (state_values self)) s'.1 s'.2;
    Ok (state_value + p * (expected_reward self m + DISCOUNT * v))%float)).
  apply for_each_pure. intros s' sv Hs'%elem_of_all_states.
  rewrite (get_transition_probability_ok self m s' Hm Hmo Hs'). cbn [mbind result_bind].
  by rewrite (tget_table_value _ s' HV Hs').
Qed.

(** ** Sweeps over the state space

    Both sweeps of the solver visit the states one after the other; a visit
    computes a value from the store and writes it to the cell of the state in
    an output array. When the computation does not read the output array,
    the array after the sweep holds, in each visited cell, the value computed
    from the store as it was before the sweep. *)

Section Sweep.
Context {A : Type}.
Variable get : heap → table A.
Variable put : table A → heap → heap.
Variable compute : state → heap → result A.
Variable valid : heap → Prop.
Hypothesis get_put : ∀ t h, valid h → get (put t h) = t.
Hypothesis put_get : ∀ h, put (get h) h = h.
Hypothesis valid_put : ∀ t h, valid h → valid (put t h).
Hypothesis put_put : ∀ t t' h, put t (put t' h) = put t h.
Hypothesis compute_put : ∀ s t h, compute s (put t h) = compute s h.

Definition visit (s : state) (h : heap) : result heap :=
  v ← compute s h;
  t ← tset (get h) s.1 s.2 v;
  Ok (put t h).

Lemma visit_Ok (s : state) (h : heap) (v : A) (t : table A) :
  compute s h = Ok v → tset (get h) s.1 s.2 v = Ok t → visit s h = Ok (put t h).
Proof. intros Hc Ht. unfold visit. rewrite Hc. simpl. by rewrite Ht. Qed.

Lemma sweep_cells (order : list state) (f : state → A) (h : heap) :
  valid h → shaped (get h) → Forall in_range order →
  (∀ s, s ∈ order → compute s h = Ok (f s)) →
  ∃ t, for_each order visit h = Ok (put t h) ∧ shaped t
       ∧ ∀ s, in_range s →
           cell t s = if decide (s ∈ order) then Some (f s) else cell (get h) s.
Proof.
  revert h. induction order as [|s0 order IH]; intros h Hv Hsh Hord Hf.
  - exists (get h). cbn [for_each]. rewrite put_get. split; [done|]. split; [done|].
    intros s _. by rewrite decide_False by apply not_elem_of_nil.
  - apply Forall_cons in Hord as [Hs0 Hord].
    destruct (tset_cell (get h) s0 (f s0) Hsh Hs0) as (t1 & Hset & Hsh1 & Hc0 & Hother).
    destruct (IH (put t1 h)) as (t & Hrun & Hsht & Hcells).
    + by apply valid_put.
    + by rewrite get_put.
    + done.
    + intros s Hs. rewrite compute_put. apply Hf. by right.
    + exists t. split; [|split; [done|]].
      * cbn [for_each]. rewrite (visit_Ok s0 h (f s0) t1); [|by apply Hf; left|done].
        cbn [mbind result_bind]. by rewrite Hrun, put_put.
      * intros s Hs. rewrite (Hcells s Hs), get_put by done.
        destruct (decide (s ∈ order)) as [Hin|Hnin].
        { rewrite decide_True; [done | by right]. }
        destruct (decide (s = s0)) as [->|Hne].
        { rewrite decide_True; [done | by left]. }
        rewrite decide_False; [by apply Hother|].
        by intros [?|?]%elem_of_cons.
Qed.

(** Visiting the same states in another order gives the same store. *)
Lemma sweep_order (order1 order2 : list state) (f : state → A) (h h1 : heap) :
  valid h → shaped (get h) → Forall in_range order1 →
  (∀ s, s ∈ order1 → compute s h = Ok (f s)) →
  (∀ s, s ∈ order1 ↔ s ∈ order2) →
  for_each order1 visit h = Ok h1 → for_each order2 visit h = Ok h1.
Proof.
  intros Hv Hsh Hord Hf Hsame Hrun.
  destruct (sweep_cells order1 f h) as (t1 & Hrun1 & Hsh1 & Hc1); [done..|].
  destruct (sweep_cells order2 f h) as (t2 & Hrun2 & Hsh2 & Hc2); [done..| | |].
  - apply Forall_forall. intros s Hs%Hsame. by eapply Forall_forall in Hord.
  - intros s Hs%Hsame. by apply Hf.
  - rewrite Hrun2. rewrite Hrun1 in Hrun. injection Hrun as <-. do 2 f_equal.
    apply table_ext; [done..|]. intros s Hs. rewrite Hc1, Hc2 by done.
    destruct (decide (s ∈ order1)) as [Hin|Hnin].
    + rewrite decide_True; [done | by apply Hsame].
    + rewrite decide_False; [done | by rewrite <-Hsame].
Qed.
End Sweep.

(** *** The store operations *)

Lemma fderef_fstore (l l' : loc) (t : table float) (h : heap) :
  fderef (fstore l t h) l'
  = if decide (l = l' ∧ (l < length (farrays h))%nat) then t else fderef h l'.
Proof.
  unfold fderef, fstore. simpl. case_decide as Hd.
  - destruct Hd as [<- Hl]. by rewrite list_lookup_insert_eq.
  - destruct (decide (l = l')) as [<-|Hne].
    + rewrite list_insert_ge; [done|]. lia.
    + by rewrite list_lookup_insert_ne.
Qed.

Lemma ideref_istore (l l' : loc) (t : table Z) (h : heap) :
  ideref (istore l t h) l'
  = if decide (l = l' ∧ (l < length (iarrays h))%nat) then t else ideref h l'.
Proof.
  unfold ideref, istore. simpl. case_decide as Hd.
  - destruct Hd as [<- Hl]. by rewrite list_lookup_insert_eq.
  - destruct (decide (l = l')) as [<-|Hne].
    + rewrite list_insert_ge; [done|]. lia.
    + by rewrite list_lookup_insert_ne.
Qed.

Lemma fderef_istore (l l' : loc) (t : table Z) (h : heap) :
  fderef (istore l t h) l' = fderef h l'.
Proof. done. Qed.

Lemma ideref_fstore (l l' : loc) (t : table float) (h : heap) :
  ideref (fstore l t h) l' = ideref h l'.
Proof. done. Qed.

Lemma fstore_fderef (l : loc) (h : heap) : fstore l (fderef h l) h = h.
Proof.
  destruct h as [fs zs]. unfold fstore, fderef. simpl. f_equal.
  destruct (fs !! l) as [t|] eqn:E; simpl.
  - by apply list_insert_id.
  - apply list_insert_ge. by apply lookup_ge_None.
Qed.

Lemma istore_ideref (l : loc) (h : heap) : istore l (ideref h l) h = h.
Proof.
  destruct h as [fs zs]. unfold istore, ideref. simpl. f_equal.
  destruct (zs !! l) as [t|] eqn:E; simpl.
  - by apply list_insert_id.
  - apply list_insert_ge. by apply lookup_ge_None.
Qed.

Lemma fstore_fstore (l : loc) (t t' : table float) (h : heap) :
  fstore l t (fstore l t' h) = fstore l t h.
Proof. unfold fstore. simpl. by rewrite list_insert_insert_eq. Qed.

Lemma istore_istore (l : loc) (t t' : table Z) (h : heap) :
  istore l t (istore l t' h) = istore l t h.
Proof. unfold istore. simpl. by rewrite list_insert_insert_eq. Qed.

(** ** The two sweeps of the solver *)

Definition action_at (t : table Z) (s : state) : Z := default 0 (cell t s).

Lemma tget_action_at (t : table Z) (s : state) :
  shaped t → in_range s → tget t s.1 s.2 = Ok (action_at t s).
Proof.
  intros Ht Hs. destruct (tget_cell t s Ht Hs) as (x & Hc & ->).
  unfold action_at. by rewrite Hc.
Qed.

(** The search of [policy_improvement] over the actions of a state, as a
    fold: a later action replaces the best one only on a strictly greater
    value. *)
Definition greedy (self : CarRental) (V : table float) (s : state) (best_action : Z)
  : float * Z :=
  fold_left (λ best action,
               if (best.1 <? backup self V s action)%float
               then (backup self V s action, action) else best)
            (get_available_actions s) (neg_infinity, best_action).

Lemma greedy_search_greedy (self : CarRental) (h : heap) (s : state) (best_action : Z) :
  solver_wf self h → in_range s →
  greedy_search self h s best_action
  = Ok (greedy self (fderef h (state_values self)) s best_action).
Proof.
  intros Hwf Hs. unfold greedy_search, greedy. apply for_each_pure.
  intros action [bv ba] _. rewrite bellman_expectation_backup by done. simpl.
  by destruct (_ <? _)%float.
Qed.

Lemma bellman_expectation_store (self : CarRental) (h1 h2 : heap) (s : state) (a : Z) :
  fderef h1 (state_values self) = fderef h2 (state_values self) →
  bellman_expectation self h1 s a = bellman_expectation self h2 s a.
Proof. unfold bellman_expectation. by intros ->. Qed.

Lemma greedy_search_store (self : CarRental) (h1 h2 : heap) (s : state) (a : Z) :
  fderef h1 (state_values self) = fderef h2 (state_values self) →
  greedy_search self h1 s a = greedy_search self h2 s a.
Proof.
  intros Heq. unfold greedy_search. apply for_each_ext. intros action [bv ba] _.
  by rewrite (bellman_expectation_store self h1 h2).
Qed.

(** What a visit of the evaluation sweep computes before it writes. *)
Definition evaluation_value (self : CarRental) (s : state) (h : heap) : result float :=
  action ← tget (ideref h (policy self)) s.1 s.2;
  bellman_expectation self h s action.

Lemma evaluate_state_visit (self : CarRental) (new_values : loc) (s : state) (h : heap) :
  evaluate_state self new_values s h
  = visit (λ h, fderef h new_values) (fstore new_values) (evaluation_value self) s h.
Proof.
  unfold evaluate_state, visit, evaluation_value.
  destruct (tget (ideref h (policy self)) s.1 s.2) as [a|e]; simpl; [|done].
  by destruct (bellman_expectation self h s a).
Qed.

(** What a visit of the improvement sweep computes before it writes. *)
Definition improvement_value (self : CarRental) (s : state) (h : heap) : result Z :=
  best_action ← tget (ideref h (policy self)) s.1 s.2;
  best ← greedy_search self h s best_action;
  Ok best.2.

Lemma improve_state_visit (self : CarRental) (new_policy : loc) (s : state) (h : heap) :
  improve_state self new_policy s h
  = visit (λ h, ideref h new_policy) (istore new_policy) (improvement_value self) s h.
Proof.
  unfold improve_state, visit, improvement_value.
  destruct (tget (ideref h (policy self)) s.1 s.2) as [a|e]; simpl; [|done].
  by destruct (greedy_search self h s a).
Qed.

(** The evaluation sweep over any list of states, writing to an array other
    than the one the object reads. *)
Lemma evaluation_sweep_cells (self : CarRental) (new_values : loc) (order : list state)
    (h : heap) :
  solver_wf self h → shaped (fderef h new_values) → new_values ≠ state_values self →
  Forall in_range order →
  ∃ t, for_each order (evaluate_state self new_values) h = Ok (fstore new_values t h)
       ∧ shaped t
       ∧ ∀ s, in_range s →
           cell t s = if decide (s ∈ order)
                      then Some (backup self (fderef h (state_values self)) s
                                   (action_at (ideref h (policy self)) s))
                      else cell (fderef h new_values) s.
Proof.
  intros Hwf Hsh Hne Hord.
  rewrite (for_each_ext _ _ _ _ (λ s h _, evaluate_state_visit self new_values s h)).
  refine (sweep_cells (λ h, fderef h new_values) (fstore new_values)
            (evaluation_value self) (λ h, (new_values < length (farrays h))%nat)
            _ _ _ _ _ order
            (λ s, backup self (fderef h (state_values self)) s
                    (action_at (ideref h (policy self)) s)) h _ _ _ _).
  - intros t h' Hv. rewrite fderef_fstore. by rewrite decide_True.
  - intros h'. apply fstore_fderef.
  - intros t h' Hv. unfold fstore. simpl. by rewrite length_insert.
  - intros t t' h'. apply fstore_fstore.
  - intros s t h'. unfold evaluation_value.
    change (ideref (fstore new_values t h') (policy self)) with (ideref h' (policy self)).
    destruct (tget _ _ _) as [a|e]; simpl; [|done].
    apply bellman_expectation_store. rewrite fderef_fstore.
    rewrite decide_False; [done|]. by intros [? _].
  - by apply shaped_valid_f.
  - done.
  - done.
  - intros s Hs. unfold evaluation_value.
    assert (in_range s) as Hr by by eapply Forall_forall in Hord.
    rewrite (tget_action_at _ s (wf_policy _ _ Hwf) Hr). simpl.
    by apply bellman_expectation_backup.
Qed.

(** The improvement sweep over any list of states, writing to an array other
    than the policy array of the object. *)
Lemma improvement_sweep_cells (self : CarRental) (new_policy : loc) (order : list state)
    (h : heap) :
  solver_wf self h → shaped (ideref h new_policy) → new_policy ≠ policy self →
  Forall in_range order →
  ∃ t, for_each order (improve_state self new_policy) h = Ok (istore new_policy t h)
       ∧ shaped t
       ∧ ∀ s, in_range s →
           cell t s = if decide (s ∈ order)
                      then Some (greedy self (fderef h (state_values self)) s
                                   (action_at (ideref h (policy self)) s)).2
                      else cell (ideref h new_policy) s.
Proof.
  intros Hwf Hsh Hne Hord.
  rewrite (for_each_ext _ _ _ _ (λ s h _, improve_state_visit self new_policy s h)).
  refine (sweep_cells (λ h, ideref h new_policy) (istore new_policy)
            (improvement_value self) (λ h, (new_policy < length (iarrays h))%nat)
            _ _ _ _ _ order
            (λ s, (greedy self (fderef h (state_values self)) s
                     (action_at (ideref h (policy self)) s)).2) h _ _ _ _).
  - intros t h' Hv. rewrite ideref_istore. by rewrite decide_True.
  - intros h'. apply istore_ideref.
  - intros t h' Hv. unfold istore. simpl. by rewrite length_insert.
  - intros t t' h'. apply istore_istore.
  - intros s t h'. unfold improvement_value.
    rewrite ideref_istore. rewrite decide_False by by intros [? _].
    destruct (tget _ _ _) as [a|e]; simpl; [|done].
    by rewrite (greedy_search_store self (istore new_policy t h') h').
  - by apply shaped_valid_i.
  - done.
  - done.
  - intros s Hs. unfold improvement_value.
    assert (in_range s) as Hr by by eapply Forall_forall in Hord.
    rewrite (tget_action_at _ s (wf_policy _ _ Hwf) Hr). simpl.
    by rewrite greedy_search_greedy.
Qed.

(** *** Allocation *)

Lemma ideref_ialloc_new (t : table Z) (h : heap) :
  ideref (ialloc t h).2 (ialloc t h).1 = t.
Proof. unfold ideref, ialloc. simpl. by rewrite list_lookup_middle. Qed.

Lemma ideref_ialloc_old (t : table Z) (h : heap) (l : loc) :
  (l < length (iarrays h))%nat → ideref (ialloc t h).2 l = ideref h l.
Proof. intros Hl. unfold ideref, ialloc. simpl. by rewrite lookup_app_l. Qed.

Lemma fderef_falloc_new (t : table float) (h : heap) :
  fderef (falloc t h).2 (falloc t h).1 = t.
Proof. unfold fderef, falloc. simpl. by rewrite list_lookup_middle. Qed.

Lemma fderef_falloc_old (t : table float) (h : heap) (l : loc) :
  (l < length (farrays h))%nat → fderef (falloc t h).2 l = fderef h l.
Proof. intros Hl. unfold fderef, falloc. simpl. by rewrite lookup_app_l. Qed.

Lemma model_ok_set_policy (l : loc) (self : CarRental) :
  model_ok self → model_ok (set_policy l self).
Proof. intros [? ? ? ?]. by split. Qed.

Lemma model_ok_set_state_values (l : loc) (self : CarRental) :
  model_ok self → model_ok (set_state_values l self).
Proof. intros [? ? ? ?]. by split. Qed.

(** *** Comparing policy arrays *)

Lemma row_equal_refl (r : list Z) : forallb id (zip_with Z.eqb r r) = true.
Proof. induction r as [|x r IH]; simpl; [done|]. by rewrite Z.eqb_refl. Qed.

Lemma np_all_equal_refl (t : table Z) : np_all_equal t t = true.
Proof.
  unfold np_all_equal. induction t as [|r t IH]; simpl; [done|].
  by rewrite row_equal_refl.
Qed.

Lemma row_equal_eq (n : nat) (r1 r2 : list Z) :
  length r1 = n → length r2 = n → forallb id (zip_with Z.eqb r1 r2) = true → r1 = r2.
Proof.
  revert n r2. induction r1 as [|x r1 IH]; intros n [|y r2]; simpl; try (intros; done || lia).
  intros <- [= H2] [Hxy Hrest]%andb_true_iff.
  apply Z.eqb_eq in Hxy as ->. f_equal. by eapply IH.
Qed.

Lemma np_all_equal_eq (a b : table Z) :
  shaped a → shaped b → np_all_equal a b = true → a = b.
Proof.
  unfold shaped, np_all_equal. generalize side. intros n [Hla Hra] [Hlb Hrb].
  clear -Hla Hra Hlb Hrb. assert (length a = length b) as Hlen by congruence.
  clear Hla Hlb. revert b Hrb Hlen.
  induction Hra as [|r a Hr Hra IH]; intros [|r' b] Hrb; simpl; try done.
  apply Forall_cons in Hrb as [Hr' Hrb].
  intros [= Hlen] [Hrow Hrest]%andb_true_iff. f_equal.
  - by eapply row_equal_eq.
  - by apply IH.
Qed.

(** ** Policy improvement as a function of the tables *)

Section Improvement.
Context `{Platform}.

(** [policy_improvement] raises nothing on a well-formed solver. The new
    policy array holds, for every state, the action that the search of
    that state returns on the value table and the old entry; the old
    arrays are untouched. *)
Lemma policy_improvement_spec (self : CarRental) (h : heap) :
  solver_wf self h →
  ∃ t self' h',
    policy_improvement self h
    = Ok (np_all_equal t (ideref h (policy self)), (self', h'))
    ∧ shaped t
    ∧ (∀ s, in_range s →
         cell t s = Some (greedy self (fderef h (state_values self)) s
                            (action_at (ideref h (policy self)) s)).2)
    ∧ self' = set_policy (policy self') self
    ∧ ideref h' (policy self') = t
    ∧ farrays h' = farrays h
    ∧ (∀ l, (l < length (iarrays h))%nat → ideref h' l = ideref h l).
Proof.
  intros Hwf. unfold policy_improvement.
  set (J := full_like (ideref h (policy self)) uninit_int).
  pose proof (shaped_valid_i _ _ (wf_policy _ _ Hwf)) as Hpv.
  destruct (ialloc J h) as [np h1] eqn:Hal.
  assert (np = length (iarrays h) ∧ h1 = (ialloc J h).2) as [Hnp Hh1]
    by (by injection Hal as <- <-).
  assert (ideref h1 (policy self) = ideref h (policy self)) as HP1
    by (rewrite Hh1; by apply ideref_ialloc_old).
  assert (ideref h1 np = J) as HJ.
  { rewrite Hh1, Hnp. apply (ideref_ialloc_new J h). }
  assert (solver_wf self h1) as Hwf1.
  { destruct Hwf as [Hm HV HP]. split; [done| |by rewrite HP1].
    by rewrite Hh1. }
  rewrite for_each_state_all_states.
  destruct (improvement_sweep_cells self np all_states h1) as (t & Hrun & Hsh & Hcells).
  - done.
  - rewrite HJ. apply shaped_full_like, Hwf.
  - lia.
  - apply Forall_forall. intros s. apply elem_of_all_states.
  - rewrite Hrun. cbn [mbind result_bind].
    assert ((np < length (iarrays h1))%nat) as Hnpv.
    { rewrite Hh1. unfold ialloc. simpl. rewrite length_app. simpl. lia. }
    assert (ideref (istore np t h1) np = t) as Hnew.
    { rewrite ideref_istore. by rewrite decide_True. }
    assert (ideref (istore np t h1) (policy self) = ideref h (policy self)) as Hold.
    { rewrite ideref_istore. rewrite decide_False by lia. done. }
    rewrite Hnew, Hold.
    destruct (ialloc t (istore np t h1)) as [copy h2] eqn:Hal2.
    assert (copy = (ialloc t (istore np t h1)).1 ∧ h2 = (ialloc t (istore np t h1)).2)
      as [Hcopy Hh2] by (by rewrite Hal2).
    exists t, (set_policy copy self), h2. split; [done|]. split; [done|].
    split.
    { intros s Hs. rewrite (Hcells s Hs).
      rewrite decide_True by by apply elem_of_all_states.
      rewrite HP1. by replace (fderef h1 (state_values self))
        with (fderef h (state_values self)) by by rewrite Hh1. }
    split; [done|]. split.
    { simpl. rewrite Hcopy, Hh2. apply ideref_ialloc_new. }
    split.
    { rewrite Hh2, Hh1. done. }
    intros l Hl. rewrite Hh2. rewrite ideref_ialloc_old.
    + rewrite ideref_istore. rewrite decide_False by lia.
      rewrite Hh1. by apply ideref_ialloc_old.
    + unfold istore. simpl. rewrite length_insert. lia.
Qed.

Lemma policy_improvement_wf (self self' : CarRental) (h h' : heap) (c : bool) :
  solver_wf self h → policy_improvement self h = Ok (c, (self', h')) →
  solver_wf self' h'.
Proof.
  intros Hwf Hrun.
  destruct (policy_improvement_spec self h Hwf)
    as (t & self1 & h1 & Hrun1 & Hsh & _ & Hself & Ht & Hf & _).
  rewrite Hrun1 in Hrun. injection Hrun as _ <- <-.
  destruct Hwf as [Hm HV HP]. split.
  - rewrite Hself. by apply model_ok_set_policy.
  - rewrite Hself. unfold fderef. simpl. by rewrite Hf.
  - by rewrite Ht.
Qed.
End Improvement.

(** ** The convergence test of policy evaluation *)

Lemma abs_not_negative (x : float) : (PrimFloat.abs x <? 0)%float = false.
Proof.
  rewrite ltb_spec, abs_spec. change (Prim2SF 0%float) with (S754_zero false).
  by destruct (Prim2SF x) as [[]| [] | |[] ? ?].
Qed.

Lemma np_maximum_cases (a b : float) : np_maximum a b = a ∨ np_maximum a b = b.
Proof. unfold np_maximum. destruct (_ || _); auto. Qed.

Lemma shaped_np_sub (a b : table float) : shaped a → shaped b → shaped (np_sub a b).
Proof.
  intros [Hla Hra] [Hlb Hrb]. unfold np_sub. split.
  - rewrite length_zip_with. lia.
  - apply Forall_lookup. intros i row (ra & rb & -> & Ha & Hb)%lookup_zip_with_Some.
    rewrite length_zip_with.
    rewrite (Forall_lookup_1 _ _ _ _ Hra Ha), (Forall_lookup_1 _ _ _ _ Hrb Hb). lia.
Qed.

(** [delta] is the largest of finitely many absolute values, or a NaN: it
    is never below zero. *)
Lemma np_max_abs (t : table float) :
  shaped t → ∃ delta, np_max (np_abs t) = Ok delta ∧ (delta <? 0)%float = false.
Proof.
  intros [Hlen Hrows]. unfold np_max, np_abs.
  assert (Forall (λ x, (x <? 0)%float = false) (concat (map (map PrimFloat.abs) t))) as Hall.
  { apply Forall_concat, Forall_fmap, Forall_true. intros row.
    apply Forall_fmap, Forall_true. intros x. apply abs_not_negative. }
  destruct (concat (map (map PrimFloat.abs) t)) as [|x xs] eqn:Hc.
  - exfalso. destruct t as [|row t]; [discriminate|].
    apply Forall_cons in Hrows as [Hrow _].
    destruct row as [|y row]; [discriminate|]. discriminate.
  - eexists. split; [done|]. apply Forall_cons in Hall as [Hx Hxs].
    clear Hc. revert x Hx. induction Hxs as [|y xs Hy Hxs IH]; intros x Hx; simpl; [done|].
    apply IH. by destruct (np_maximum_cases x y) as [-> | ->].
Qed.

(** ** Policy evaluation: the loop invariant *)

(** Between two sweeps the object and the local variable [new_values] refer
    to two different arrays of the right shape. *)
Record eval_inv (st : eval_state) : Prop := {
  inv_wf : solver_wf (ev_self st) (ev_heap st);
  inv_buffer : shaped (fderef (ev_heap st) (ev_new_values st));
  inv_distinct : ev_new_values st ≠ state_values (ev_self st);
}.

Section Evaluation.
Context `{Platform}.

(** The loop state on entry of [policy_evaluation]. *)
Definition evaluation_entry (self : CarRental) (h : heap) : eval_state :=
  let a := falloc (full_like (fderef h (state_values self)) uninit_float) h in
  EvalState self a.1 a.2.

Lemma evaluation_entry_inv (self : CarRental) (h : heap) :
  solver_wf self h → eval_inv (evaluation_entry self h).
Proof.
  intros Hwf. pose proof (shaped_valid_f _ _ (wf_values _ _ Hwf)) as Hv.
  destruct Hwf as [Hm HV HP]. unfold evaluation_entry.
  split; cbn [ev_self ev_heap ev_new_values].
  - split; [done| |done]. by rewrite fderef_falloc_old.
  - rewrite (fderef_falloc_new _ h). by apply shaped_full_like.
  - unfold falloc. simpl. lia.
Qed.

(** One round: the sweep raises nothing and fills a table with the backups
    computed from the table the object referred to before the round; the
    object then refers to a copy of it, and a new buffer is allocated. *)
Lemma evaluation_round_spec (theta : float) (st : eval_state) :
  eval_inv st →
  ∃ t delta st',
    evaluation_round theta st
    = Ok (if (delta <? theta)%float then Return (ev_self st', ev_heap st') else Next st')
    ∧ (delta <? 0)%float = false
    ∧ eval_inv st'
    ∧ shaped t
    ∧ (∀ s, in_range s →
         cell t s = Some (backup (ev_self st)
                            (fderef (ev_heap st) (state_values (ev_self st))) s
                            (action_at (ideref (ev_heap st) (policy (ev_self st))) s)))
    ∧ fderef (ev_heap st') (state_values (ev_self st')) = t
    ∧ ev_self st' = set_state_values (state_values (ev_self st')) (ev_self st)
    ∧ iarrays (ev_heap st') = iarrays (ev_heap st).
Proof.
  intros [Hwf Hbuf Hne]. destruct st as [self nv h]. simpl in *.
  unfold evaluation_round. simpl.
  rewrite for_each_state_all_states.
  destruct (evaluation_sweep_cells self nv all_states h) as (t & Hrun & Hsh & Hcells);
    [done..| |].
  { apply Forall_forall. intros s. apply elem_of_all_states. }
  rewrite Hrun. cbn [mbind result_bind].
  pose proof (shaped_valid_f _ _ Hbuf) as Hnv.
  pose proof (shaped_valid_f _ _ (wf_values _ _ Hwf)) as Hsv.
  assert (fderef (fstore nv t h) nv = t) as Hnew
    by (rewrite fderef_fstore; by rewrite decide_True).
  assert (fderef (fstore nv t h) (state_values self) = fderef h (state_values self)) as Hold
    by (rewrite fderef_fstore; rewrite decide_False; [done | by intros [? _]]).
  rewrite Hnew, Hold.
  destruct (np_max_abs (np_sub (fderef h (state_values self)) t)) as (delta & -> & Hdelta).
  { apply shaped_np_sub; [apply Hwf | done]. }
  cbn [mbind result_bind].
  set (h1 := fstore nv t h).
  assert (length (farrays h1) = length (farrays h)) as Hlen1
    by (unfold h1, fstore; simpl; by rewrite length_insert).
  set (a1 := falloc t h1). set (self' := set_state_values a1.1 self).
  set (a2 := falloc (full_like (fderef a1.2 (state_values self')) uninit_float) a1.2).
  exists t, delta, (EvalState self' a2.1 a2.2).
  assert (fderef a1.2 (state_values self') = t) as Hcopy
    by apply (fderef_falloc_new t h1).
  assert (fderef a2.2 (state_values self') = t) as Hcopy2.
  { unfold a2. rewrite fderef_falloc_old; [done|].
    unfold a1, falloc. simpl. rewrite length_app. simpl. lia. }
  split; [by destruct (delta <? theta)%float|]. split; [done|].
  split; [|split; [done|]; split; [|split; [done|]; split; done]].
  - split; cbn [ev_self ev_heap ev_new_values].
    + split.
      * apply model_ok_set_state_values, Hwf.
      * by rewrite Hcopy2.
      * apply Hwf.
    + unfold a2. rewrite (fderef_falloc_new _ a1.2). apply shaped_full_like.
      by rewrite Hcopy.
    + unfold a2, a1, falloc. simpl. rewrite length_app. simpl. lia.
  - intros s Hs. rewrite (Hcells s Hs).
    by rewrite decide_True by by apply elem_of_all_states.
Qed.
(** One round, with the difference it measures and the arrays it leaves
    alone. *)
Lemma evaluation_round_full (theta : float) (st : eval_state) :
  eval_inv st →
  ∃ t delta st',
    evaluation_round theta st
    = Ok (if (delta <? theta)%float then Return (ev_self st', ev_heap st') else Next st')
    ∧ eval_inv st'
    ∧ (∀ s, in_range s →
         cell t s = Some (backup (ev_self st)
                            (fderef (ev_heap st) (state_values (ev_self st))) s
                            (action_at (ideref (ev_heap st) (policy (ev_self st))) s)))
    ∧ fderef (ev_heap st') (state_values (ev_self st')) = t
    ∧ ev_self st' = set_state_values (state_values (ev_self st')) (ev_self st)
    ∧ iarrays (ev_heap st') = iarrays (ev_heap st)
    ∧ np_max (np_abs (np_sub (fderef (ev_heap st) (state_values (ev_self st))) t))
      = Ok delta
    ∧ (∀ l, (l < length (farrays (ev_heap st)))%nat → l ≠ ev_new_values st →
         fderef (ev_heap st') l = fderef (ev_heap st) l)
    ∧ (length (farrays (ev_heap st)) < ev_new_values st')%nat.
Proof.
  intros [Hwf Hbuf Hne]. destruct st as [self nv h]. simpl in *.
  unfold evaluation_round. simpl.
  rewrite for_each_state_all_states.
  destruct (evaluation_sweep_cells self nv all_states h) as (t & Hrun & Hsh & Hcells);
    [done..| |].
  { apply Forall_forall. intros s. apply elem_of_all_states. }
  rewrite Hrun. cbn [mbind result_bind].
  pose proof (shaped_valid_f _ _ Hbuf) as Hnv.
  pose proof (shaped_valid_f _ _ (wf_values _ _ Hwf)) as Hsv.
  assert (fderef (fstore nv t h) nv = t) as Hnew
    by (rewrite fderef_fstore; by rewrite decide_True).
  assert (fderef (fstore nv t h) (state_values self) = fderef h (state_values self)) as Hold
    by (rewrite fderef_fstore; rewrite decide_False; [done | by intros [? _]]).
  rewrite Hnew, Hold.
  destruct (np_max_abs (np_sub (fderef h (state_values self)) t)) as (delta & Hmax & _).
  { apply shaped_np_sub; [apply Hwf | done]. }
  rewrite Hmax. cbn [mbind result_bind].
  set (h1 := fstore nv t h).
  assert (length (farrays h1) = length (farrays h)) as Hlen1
    by (unfold h1, fstore; simpl; by rewrite length_insert).
  set (a1 := falloc t h1). set (self' := set_state_values a1.1 self).
  set (a2 := falloc (full_like (fderef a1.2 (state_values self')) uninit_float) a1.2).
  exists t, delta, (EvalState self' a2.1 a2.2).
  assert (fderef a1.2 (state_values self') = t) as Hcopy
    by apply (fderef_falloc_new t h1).
  assert (length (farrays a1.2) = Datatypes.S (length (farrays h))) as Hlen2.
  { unfold a1, falloc. cbn [snd farrays]. rewrite length_app, Hlen1. simpl. lia. }
  assert (fderef a2.2 (state_values self') = t) as Hcopy2.
  { unfold a2. rewrite fderef_falloc_old; [done|].
    change (state_values self') with (length (farrays h1)). rewrite Hlen2, Hlen1. lia. }
  split; [by destruct (delta <? theta)%float|].
  split; [|split; [|split; [done|]; split; [done|]; split; [done|]; split; [done|]; split]].
  - split; cbn [ev_self ev_heap ev_new_values].
    + split.
      * apply model_ok_set_state_values, Hwf.
      * by rewrite Hcopy2.
      * apply Hwf.
    + unfold a2. rewrite (fderef_falloc_new _ a1.2). apply shaped_full_like.
      by rewrite Hcopy.
    + change a2.1 with (length (farrays a1.2)).
      change (state_values self') with (length (farrays h1)). rewrite Hlen2, Hlen1. lia.
  - intros s Hs. rewrite (Hcells s Hs).
    by rewrite decide_True by by apply elem_of_all_states.
  - cbn [ev_self ev_heap ev_new_values]. intros l Hl Hlnv.
    unfold a2. rewrite fderef_falloc_old by (rewrite Hlen2; lia).
    unfold a1. rewrite fderef_falloc_old by (rewrite Hlen1; lia).
    unfold h1. rewrite fderef_fstore. rewrite decide_False; [done|].
    intros [? _]. by apply Hlnv.
  - cbn [ev_self ev_heap ev_new_values]. change a2.1 with (length (farrays a1.2)).
    rewrite Hlen2. lia.
Qed.
End Evaluation.

Lemma py_while_true_no_exit {S R} (body : S → option (result (flow S R)))
    (fuel : nat) (s s' : S) :
  py_while fuel (λ _, true) body s ≠ Some (Ok (Next s')).
Proof.
  revert s. induction fuel as [|fuel IH]; intros s; simpl; [done|].
  destruct (body s) as [[[r|s1]|e]|]; first [done | apply IH].
Qed.

Section EvaluationLoop.
Context `{Platform}.

(** The loop states at the start of the sweeps of one call of
    [policy_evaluation theta] on the object [self] and the store [h]. *)
Inductive evaluation_reaches (theta : float) (self : CarRental) (h : heap)
  : eval_state → Prop :=
  | reaches_entry :
      evaluation_reaches theta self h (evaluation_entry self h)
  | reaches_next st st' :
      evaluation_reaches theta self h st →
      evaluation_round theta st = Ok (Next st') →
      evaluation_reaches theta self h st'.

Lemma evaluation_round_next_inv (theta : float) (st st' : eval_state) :
  eval_inv st → evaluation_round theta st = Ok (Next st') → eval_inv st'.
Proof.
  intros Hinv Hrun.
  destruct (evaluation_round_spec theta st Hinv) as (t & delta & st1 & Hrun1 & _ & Hinv1 & _).
  rewrite Hrun1 in Hrun. destruct (delta <? theta)%float; [done|].
  by injection Hrun as <-.
Qed.

Lemma evaluation_reaches_inv (theta : float) (self : CarRental) (h : heap)
    (st : eval_state) :
  solver_wf self h → evaluation_reaches theta self h st → eval_inv st.
Proof.
  intros Hwf. induction 1 as [|st st' _ IH Hrun].
  - by apply evaluation_entry_inv.
  - by eapply evaluation_round_next_inv.
Qed.

Lemma policy_evaluation_unfold (fuel : nat) (theta : float) (self : CarRental) (h : heap) :
  policy_evaluation fuel theta self h
  = match py_while fuel (λ _, true) (λ st, Some (evaluation_round theta st))
            (evaluation_entry self h) with
    | None => None
    | Some (Raise e) => Some (Raise e)
    | Some (Ok (Return w)) => Some (Ok w)
    | Some (Ok (Next _)) => Some (Raise ValueError)
    end.
Proof. done. Qed.

(** A loop state that the call reaches is the state of its loop after some
    number of sweeps. *)
Lemma policy_evaluation_reaches (theta : float) (self : CarRental) (h : heap)
    (st : eval_state) :
  evaluation_reaches theta self h st →
  ∃ k : nat, ∀ fuel,
    py_while (k + fuel) (λ _, true) (λ st, Some (evaluation_round theta st))
      (evaluation_entry self h)
    = py_while fuel (λ _, true) (λ st, Some (evaluation_round theta st)) st.
Proof.
  induction 1 as [|st st' _ [k IH] Hrun].
  - by exists 0%nat.
  - exists (S k). intros fuel.
    replace (S k + fuel)%nat with (k + S fuel)%nat by lia.
    rewrite IH. cbn [py_while]. by rewrite Hrun.
Qed.

(** The loop raises nothing: it returns a well-formed solver or it is
    still running when the fuel is spent. *)
Lemma evaluation_loop_result (fuel : nat) (theta : float) (st : eval_state) :
  eval_inv st →
  py_while fuel (λ _, true) (λ st, Some (evaluation_round theta st)) st = None
  ∨ ∃ st', eval_inv st'
      ∧ iarrays (ev_heap st') = iarrays (ev_heap st)
      ∧ policy (ev_self st') = policy (ev_self st)
      ∧ py_while fuel (λ _, true) (λ st, Some (evaluation_round theta st)) st
        = Some (Ok (Return (ev_self st', ev_heap st'))).
Proof.
  revert st. induction fuel as [|fuel IH]; intros st Hinv; simpl; [by left|].
  destruct (evaluation_round_spec theta st Hinv)
    as (t & delta & st1 & -> & _ & Hinv1 & _ & _ & _ & Hself & Hia).
  destruct (delta <? theta)%float.
  - right. exists st1. split; [done|]. split; [done|]. split; [|done].
    by rewrite Hself.
  - destruct (IH st1 Hinv1) as [->|(st2 & Hinv2 & Hia2 & Hpol & ->)]; [by left|].
    right. exists st2. split; [done|]. split; [congruence|]. split; [|done].
    rewrite Hpol. by rewrite Hself.
Qed.

Lemma policy_evaluation_result (fuel : nat) (theta : float) (self : CarRental) (h : heap) :
  solver_wf self h →
  policy_evaluation fuel theta self h = None
  ∨ ∃ self' h', policy_evaluation fuel theta self h = Some (Ok (self', h'))
      ∧ solver_wf self' h'
      ∧ ideref h' (policy self') = ideref h (policy self).
Proof.
  intros Hwf. rewrite policy_evaluation_unfold.
  destruct (evaluation_loop_result fuel theta _ (evaluation_entry_inv self h Hwf))
    as [->|(st' & Hinv & Hia & Hpol & ->)]; [by left|].
  right. exists (ev_self st'), (ev_heap st'). split; [done|]. split; [apply Hinv|].
  unfold ideref. by rewrite Hia, Hpol.
Qed.

(** With a threshold of zero no round passes the test [delta < theta]. *)
Lemma evaluation_loop_zero_theta (fuel : nat) (st : eval_state) :
  eval_inv st →
  py_while fuel (λ _, true) (λ st, Some (evaluation_round 0%float st)) st = None.
Proof.
  revert st. induction fuel as [|fuel IH]; intros st Hinv; simpl; [done|].
  destruct (evaluation_round_spec 0%float st Hinv)
    as (t & delta & st1 & -> & -> & Hinv1 & _).
  by apply IH.
Qed.
End EvaluationLoop.

(** ** The tables built by [precompute_model] *)

Lemma dict_accumulate_Ok `{Countable K} (d : gmap K float) (k : K) (x : float) :
  dict_accumulate d k x = Ok (<[k := (dict_value d k + x)%float]> d).
Proof.
  unfold dict_accumulate, dict_value, dict_get. destruct (d !! k) as [v|] eqn:E; simpl.
  - by rewrite E.
  - rewrite lookup_insert_eq. simpl. by rewrite insert_insert_eq.
Qed.

Lemma insert_adds_key `{Countable K} {V} (d : gmap K V) (k k' : K) (v : V) :
  is_Some (<[k := v]> d !! k') ↔ is_Some (d !! k') ∨ k' = k.
Proof.
  rewrite lookup_insert_is_Some. destruct (decide (k = k')) as [->|Hne].
  - split; [by right|by left].
  - split; [intros [?|[_ ?]]; [done|by left] | intros [?|?]; [by right|done]].
Qed.

(** The keys of a dictionary that a loop only adds to. *)
Lemma for_each_keys `{Countable K} {A S V} (proj : S → gmap K V) (adds : A → K → Prop)
    (xs : list A) (body : A → S → result S) (s s' : S) :
  (∀ x s s', x ∈ xs → body x s = Ok s' →
     ∀ k, is_Some (proj s' !! k) ↔ is_Some (proj s !! k) ∨ adds x k) →
  for_each xs body s = Ok s' →
  ∀ k, is_Some (proj s' !! k) ↔ is_Some (proj s !! k) ∨ ∃ x, x ∈ xs ∧ adds x k.
Proof.
  revert s. induction xs as [|x xs IH]; intros s Hbody; simpl.
  - intros [= <-] k. split; [by left|]. intros [?|(x & []%elem_of_nil & _)]. done.
  - intros (s1 & H1 & H2)%bind_Ok k.
    rewrite (IH s1); [|by intros y t t' Hy; apply Hbody; right|done].
    rewrite (Hbody x s s1) by (done || by left). split.
    + intros [[?|?]|(y & Hy & ?)]; [by left|right; exists x|right; exists y]; split; try done.
      * by left.
      * by right.
    + intros [?|(y & [->|Hy]%elem_of_cons & ?)]; [by left; left|by left; right|].
      right. by exists y.
Qed.

Definition next_morning (requests dropoffs n : Z) : Z :=
  Z.max 0 (Z.min MAX_CARS (n + dropoffs - Z.min requests n)).

Lemma elem_of_model_range (n : Z) : n ∈ model_range ↔ 0 ≤ n ≤ MAX_CARS + MAX_MOVE.
Proof.
  unfold model_range. rewrite elem_of_py_range.
  change (py_max ACTIONS) with 5. unfold MAX_CARS, MAX_MOVE. lia.
Qed.

Section ModelKeys.
Context `{Platform}.

Lemma precompute_model_keys (cache : gmap (Z * Z) float) (lr ld : Z) (b : building) :
  precompute_model cache lr ld = Ok b →
  (∀ n, is_Some (b_R b !! n) ↔ 0 ≤ n ≤ MAX_CARS + MAX_MOVE)
  ∧ (∀ n n', is_Some (b_P b !! (n, n'))
             ↔ 0 ≤ n ≤ MAX_CARS + MAX_MOVE ∧ 0 ≤ n' ≤ MAX_CARS).
Proof.
  intros Hrun. unfold precompute_model in Hrun. split.
  - intros n.
    etrans; [eapply (for_each_keys b_R (λ _ k, k ∈ model_range)); [|exact Hrun]|].
    + clear. intros requests b b' _ Hbody k.
      apply bind_Ok in Hbody as ([rp cache] & _ & Hbody).
      apply bind_Ok in Hbody as (R & HR & Hbody).
      assert (b_R b' = R) as ->.
      { refine (for_each_invariant (λ b, b_R b = R) _ _ _ _ _ _ Hbody); [|done].
        intros d b1 b2 _ Hb1 Hd.
        apply bind_Ok in Hd as ([dp c] & _ & Hd).
        apply bind_Ok in Hd as (P & _ & [= <-]). done. }
      etrans; [eapply (for_each_keys id (λ n k, k = n)); [|exact HR]|].
      * intros m R1 R2 _. cbv beta. rewrite dict_accumulate_Ok. intros [= <-] k'.
        unfold id. apply insert_adds_key.
      * unfold id. split; (intros [?|Hx]; [by left|right]).
        -- by destruct Hx as (x & ? & ->).
        -- by exists k.
    + cbn [b_R]. rewrite lookup_empty, <-elem_of_model_range. split.
      * intros [[? [=]]|(_ & _ & ?)]. done.
      * intros Hn. right. exists 0. split; [|done]. by apply elem_of_model_range.
  - intros n n'.
    etrans; [eapply (for_each_keys b_P
               (λ requests k, ∃ dropoffs m, dropoffs ∈ model_range ∧ m ∈ model_range
                              ∧ k = (m, next_morning requests dropoffs m)));
             [|exact Hrun]|].
    + clear. intros requests b b' _ Hbody k.
      apply bind_Ok in Hbody as ([rp cache] & _ & Hbody).
      apply bind_Ok in Hbody as (R & _ & Hbody).
      etrans; [eapply (for_each_keys b_P
                 (λ dropoffs k, ∃ m, m ∈ model_range
                                ∧ k = (m, next_morning requests dropoffs m)));
               [|exact Hbody]|].
      * clear. intros dropoffs b1 b2 _ Hd k.
        apply bind_Ok in Hd as ([dp c] & _ & Hd).
        apply bind_Ok in Hd as (P & HP & [= <-]). cbn [b_P].
        etrans; [eapply (for_each_keys id
                   (λ m k, k = (m, next_morning requests dropoffs m)));
                 [|exact HP]|].
        { intros m P1 P2 _. cbv beta zeta. rewrite dict_accumulate_Ok. intros [= <-] k'.
          unfold id. apply insert_adds_key. }
        done.
      * cbn [b_P]. split; (intros [?|Hx]; [by left|right]).
        -- destruct Hx as (d & Hd & m & Hm & ->). by exists d, m.
        -- destruct Hx as (d & m & Hd & Hm & ->). exists d. split; [done|]. by exists m.
    + cbn [b_P]. rewrite lookup_empty. split.
      * intros [[? [=]]|(r & Hr & d & m & Hd & Hm & [= -> ->])].
        apply elem_of_model_range in Hr, Hd, Hm.
        unfold next_morning, MAX_CARS, MAX_MOVE in *. lia.
      * intros [Hn Hn']. right. exists (MAX_CARS + MAX_MOVE).
        split; [by apply elem_of_model_range; unfold MAX_CARS, MAX_MOVE|].
        exists n', n. rewrite !elem_of_model_range.
        unfold next_morning, MAX_CARS, MAX_MOVE in *.
        split; [lia|]. split; [lia|]. f_equal. lia.
Qed.

(** [reset] builds a well-formed solver, on every platform on which it
    raises nothing. *)
Lemma reset_wf (h0 h : heap) (self : CarRental) :
  reset h0 = Ok (self, h) → solver_wf self h.
Proof.
  unfold reset.
  destruct (falloc (np_zeros 0%float) h0) as [sv h1] eqn:E1.
  destruct (ialloc (np_zeros 0) h1) as [pol h2] eqn:E2.
  intros (b1 & Hb1 & (b2 & Hb2 & [= <- <-])%bind_Ok)%bind_Ok.
  destruct (precompute_model_keys _ _ _ _ Hb1) as [HR1 HP1].
  destruct (precompute_model_keys _ _ _ _ Hb2) as [HR2 HP2].
  assert (sv = (falloc (np_zeros 0%float) h0).1 ∧ h1 = (falloc (np_zeros 0%float) h0).2)
    as [-> ->] by (by rewrite E1).
  assert (pol = (ialloc (np_zeros 0) (falloc (np_zeros 0%float) h0).2).1
          ∧ h2 = (ialloc (np_zeros 0) (falloc (np_zeros 0%float) h0).2).2)
    as [-> ->] by (by rewrite E2).
  split; cbn [state_values policy].
  - by split.
  - change (fderef (ialloc ?t ?h).2 ?l) with (fderef h l).
    rewrite (fderef_falloc_new _ h0). apply shaped_np_zeros.
  - rewrite ideref_ialloc_new. apply shaped_np_zeros.
Qed.
End ModelKeys.

(** ** A freshly constructed solver *)

Definition result_ok {A} (r : result A) : bool :=
  match r with Ok _ => true | Raise _ => false end.

Definition no_solver : CarRental :=
  {| _poisson_prob := ∅; state_values := 0%nat; policy := 0%nat;
     _probs_1 := ∅; _rewards_1 := ∅; _probs_2 := ∅; _rewards_2 := ∅ |}.

(** The value of a call that raises nothing. *)
Definition unwrap {A} (d : A) (r : result A) : A :=
  match r with Ok a => a | Raise _ => d end.

(** [CarRental()] on the reference platform, in an empty store. *)
Definition fresh : CarRental * heap :=
  unwrap (no_solver, Heap [] []) (@CarRental_init libm (Heap [] [])).

Lemma fresh_init : @CarRental_init libm (Heap [] []) = Ok fresh.
Proof.
  assert (result_ok (@CarRental_init libm (Heap [] [])) = true) as Hok
    by (vm_compute; reflexivity).
  unfold fresh, unwrap. by destruct (CarRental_init _).
Qed.

Lemma fresh_wf : solver_wf fresh.1 fresh.2.
Proof.
  pose proof fresh_init as Hinit. destruct fresh as [self h].
  by apply (@reset_wf libm) in Hinit.
Qed.

(** * The claims *)

(** ** Feasible actions *)

(** C2. [get_available_actions] does not clip to [MAX_MOVE]: for the state
    with no car at the first location and six at the second it returns the
    seven integers from -6 to 0, and the first has magnitude six. The bounds
    it takes the maximum and minimum with are [-MAX_CARS] and [MAX_CARS],
    which no state in range ever reaches. *)
Theorem get_available_actions_not_clipped :
  get_available_actions (0, 6) = [-6; -5; -4; -3; -2; -1; 0]
  ∧ MAX_MOVE < Z.abs (-6).
Proof. split; [reflexivity | unfold MAX_MOVE; lia]. Qed.

(** C3, as amended. For every state in range and every proposed action, the
    action that [get_valid_action] returns has magnitude at most [MAX_MOVE],
    takes no more cars from a location than it holds, and leaves at most
    [MAX_CARS + MAX_MOVE] cars at either location. *)
Theorem get_valid_action_feasible (s : state) (action : Z) :
  in_range s →
  Z.abs (get_valid_action s action) ≤ MAX_MOVE
  ∧ get_valid_action s action ≤ s.1
  ∧ - get_valid_action s action ≤ s.2
  ∧ s.2 + get_valid_action s action ≤ MAX_CARS + MAX_MOVE
  ∧ s.1 - get_valid_action s action ≤ MAX_CARS + MAX_MOVE.
Proof.
  intros Hs. pose proof (get_valid_action_bounds s action Hs) as Hb.
  cbv zeta in Hb. lia.
Qed.

Lemma get_valid_action_feasible_witness :
  Z.abs (get_valid_action (20, 20) 5) ≤ MAX_MOVE
  ∧ get_valid_action (20, 20) 5 ≤ (20, 20).1
  ∧ - get_valid_action (20, 20) 5 ≤ (20, 20).2
  ∧ (20, 20).2 + get_valid_action (20, 20) 5 ≤ MAX_CARS + MAX_MOVE
  ∧ (20, 20).1 - get_valid_action (20, 20) 5 ≤ MAX_CARS + MAX_MOVE.
Proof.
  apply (get_valid_action_feasible (20, 20) 5).
  unfold in_range, MAX_CARS. simpl. lia.
Defined.

(** C3 as stated fails: with both locations full, moving five cars is
    returned unchanged and the second location then holds 25 cars. *)
Lemma get_valid_action_overfills :
  in_range (20, 20)
  ∧ get_valid_action (20, 20) 5 = 5
  ∧ MAX_CARS < (20, 20).2 + get_valid_action (20, 20) 5.
Proof. unfold in_range, MAX_CARS. simpl. repeat split; lia. Qed.

(** ** The Bellman backup *)

(** C4, as amended. On a well-formed solver and a state in range,
    [bellman_expectation] raises nothing and returns
    [-CAR_MOVE_COST * |a'|] plus, summed over the next states in row-major
    order, [Prob1[m1, n1'] * Prob2[m2, n2'] * (R + DISCOUNT * V[n1', n2'])],
    where [a'] is the clamped action, [(m1, m2)] the morning state and
    [R = Reward1[m1] + Reward2[m2]]: the immediate reward is weighed by the
    transition probabilities like the discounted values. *)
Theorem bellman_expectation_weighs_reward (self : CarRental) (h : heap) (s : state)
    (action : Z) :
  solver_wf self h → in_range s →
  bellman_expectation self h s action
  = Ok (fold_left
          (λ state_value s',
             state_value
             + transition self (morning_state s action) s'
               * (expected_reward self (morning_state s action)
                  + DISCOUNT * table_value (fderef h (state_values self)) s'))%float
          all_states
          (float_of_Z (- CAR_MOVE_COST * Z.abs (get_valid_action s action)))).
Proof. apply bellman_expectation_backup. Qed.

Lemma bellman_expectation_weighs_reward_witness :
  bellman_expectation fresh.1 fresh.2 (10, 10) 0
  = Ok (fold_left
          (λ state_value s',
             state_value
             + transition fresh.1 (morning_state (10, 10)%Z 0%Z) s'
               * (expected_reward fresh.1 (morning_state (10, 10)%Z 0%Z)
                  + DISCOUNT * table_value (fderef fresh.2 (state_values fresh.1)) s'))%float
          all_states
          (float_of_Z (- CAR_MOVE_COST * Z.abs (get_valid_action (10, 10) 0)))).
Proof.
  apply (bellman_expectation_weighs_reward fresh.1 fresh.2 (10, 10) 0).
  - exact fresh_wf.
  - unfold in_range, MAX_CARS. simpl. lia.
Defined.

(** C4 as stated fails: on a fresh solver (the value table is zero) the
    backup of ten cars at each location and no move is the reward weighed by
    the truncated probability mass, 69.954845951294345, and not the reward
    itself, 69.954845951311256, which adding the reward once would give. *)
Lemma bellman_expectation_reward_not_added_once :
  bellman_expectation fresh.1 fresh.2 (10, 10) 0 = Ok 0x1.17d1c323161bep+6%float
  ∧ backup_reward_added_once fresh.1 (fderef fresh.2 (state_values fresh.1)) (10, 10) 0
    = 0x1.17d1c32316664p+6%float
  ∧ (0x1.17d1c323161bep+6 <? 0x1.17d1c32316664p+6)%float = true.
Proof. split; [|split]; vm_compute; reflexivity. Qed.

(** ** States outside the state space *)

Lemma get_transition_probability_KeyError (self : CarRental) (m s' : state) :
  model_ok self → ¬ (morning_ok m ∧ in_range s') →
  get_transition_probability self m s' = Raise KeyError.
Proof.
  intros Hm Hno. unfold get_transition_probability.
  destruct (_probs_1 self !! (m.1, s'.1)) as [p1|] eqn:E1.
  - rewrite (dict_get_is_Some (_probs_1 self) _ (mk_is_Some _ _ E1)). simpl.
    rewrite (dict_get_None (_probs_2 self)); [done|].
    apply eq_None_not_Some. intros [H2 H2']%(probs_2_dom _ Hm).
    destruct (proj1 (probs_1_dom _ Hm _ _) (mk_is_Some _ _ E1)) as [H1 H1'].
    by apply Hno.
  - by rewrite (dict_get_None (_probs_1 self)).
Qed.

Lemma in_range_0_0 : in_range (0, 0).
Proof. unfold in_range, MAX_CARS. simpl. lia. Qed.

(** C7, as amended. The methods validate nothing and there is no
    [InvalidStateError]. On a well-formed solver they look the state up in
    the precomputed tables: a morning state with both inventories in
    [0, MAX_CARS + MAX_MOVE] (and, for the transition lookup, a next state
    in range) is accepted, also when an inventory exceeds [MAX_CARS], and
    the method returns; any other raises [KeyError]. The methods return no
    store: they mutate nothing. *)
Theorem state_lookups_raise_KeyError (self : CarRental) (h : heap) (s s' : state)
    (action : Z) :
  solver_wf self h →
  (morning_ok (s.1 - action, s.2 + action) →
     step self s action
     = Ok ((s.1 - action, s.2 + action),
           expected_reward self (s.1 - action, s.2 + action)))
  ∧ (¬ morning_ok (s.1 - action, s.2 + action) →
     step self s action = Raise KeyError)
  ∧ (morning_ok s ∧ in_range s' →
     get_transition_probability self s s' = Ok (transition self s s'))
  ∧ (¬ (morning_ok s ∧ in_range s') →
     get_transition_probability self s s' = Raise KeyError)
  ∧ (morning_ok (morning_state s action) →
     bellman_expectation self h s action
     = Ok (backup self (fderef h (state_values self)) s action))
  ∧ (¬ morning_ok (morning_state s action) →
     bellman_expectation self h s action = Raise KeyError).
Proof.
  intros Hwf. pose proof (wf_model _ _ Hwf) as Hm.
  split; [|split; [|split; [|split; [|split]]]].
  - intros Hok. unfold step. by rewrite (get_reward_ok self _ Hm Hok).
  - intros Hno. unfold step. by rewrite (get_reward_KeyError self _ Hm Hno).
  - intros [Hok Hs']. by apply get_transition_probability_ok.
  - by apply get_transition_probability_KeyError.
  - by apply bellman_expectation_morning.
  - intros Hno. unfold morning_state in Hno. cbv zeta in Hno.
    unfold bellman_expectation, step.
    by rewrite (get_reward_KeyError self _ Hm Hno).
Qed.

Lemma morning_ok_21_25 : morning_ok (21, 25).
Proof. unfold morning_ok, MAX_CARS, MAX_MOVE. simpl. lia. Qed.

Lemma morning_not_ok_26_0 : ¬ morning_ok (26, 0).
Proof. unfold morning_ok, MAX_CARS, MAX_MOVE. simpl. lia. Qed.

Lemma state_lookups_raise_KeyError_witness :
  (step fresh.1 (21, 25) 0
   = Ok (((21, 25).1 - 0, (21, 25).2 + 0),
         expected_reward fresh.1 ((21, 25).1 - 0, (21, 25).2 + 0))
   ∧ get_transition_probability fresh.1 (21, 25) (0, 0)
     = Ok (transition fresh.1 (21, 25) (0, 0))
   ∧ bellman_expectation fresh.1 fresh.2 (21, 25) 0
     = Ok (backup fresh.1 (fderef fresh.2 (state_values fresh.1)) (21, 25) 0))
  ∧ (step fresh.1 (26, 0) 0 = Raise KeyError
     ∧ get_transition_probability fresh.1 (26, 0) (0, 0) = Raise KeyError
     ∧ bellman_expectation fresh.1 fresh.2 (26, 0) 0 = Raise KeyError).
Proof.
  split.
  - destruct (state_lookups_raise_KeyError fresh.1 fresh.2 (21, 25) (0, 0) 0 fresh_wf)
      as (Hstep & _ & Hprob & _ & Hbackup & _).
    split; [exact (Hstep morning_ok_21_25)|].
    split; [exact (Hprob (conj morning_ok_21_25 in_range_0_0))|].
    exact (Hbackup morning_ok_21_25).
  - destruct (state_lookups_raise_KeyError fresh.1 fresh.2 (26, 0) (0, 0) 0 fresh_wf)
      as (_ & Hstep & _ & Hprob & _ & Hbackup).
    split; [exact (Hstep morning_not_ok_26_0)|].
    split; [exact (Hprob (λ H, morning_not_ok_26_0 (proj1 H)))|].
    exact (Hbackup morning_not_ok_26_0).
Defined.

(** C7 as stated fails: a state with 25 cars at each location, outside
    [0, MAX_CARS], is accepted by [step] and by the transition lookup, which
    return a reward and a probability. *)
Lemma step_accepts_state_out_of_range :
  MAX_CARS < (25, 25).1
  ∧ step fresh.1 (25, 25) 0 = Ok ((25, 25), 0x1.17fffffffeeb8p+6%float)
  ∧ get_transition_probability fresh.1 (25, 21) (0, 0)
    = Ok 0x1.5cf213ed5e87fp-85%float.
Proof. split; [done|]. split; vm_compute; reflexivity. Qed.

(** ** Policy evaluation *)

(** The binary64 number that the literal [1e9] denotes. *)
Definition one_sweep_theta : float := 0x1.dcd65p+29%float.

(** C5. Every sweep of [policy_evaluation] is synchronous. Take the loop
    state [st] at the start of any sweep of a call on a well-formed solver,
    [k] sweeps after the call began. The iteration of the loop that starts
    there raises nothing and hands over a table [t] to the object; the cell
    of every state of [t] holds [bellman_expectation] of that state and its
    policy entry, evaluated in the store as it was when the sweep started;
    the array that the sweep read is another array than the one it wrote,
    and holds after the iteration what it held before. Visiting the states
    in any order that is a permutation of the order of the two loops gives
    the store that the two loops give, with [t] in the buffer. And when the
    difference passes the test, the call of [policy_evaluation] returns,
    after these [k + 1] sweeps, the solver whose value table is [t];
    otherwise the loop goes on from the state the iteration leaves. *)
Theorem policy_evaluation_sweep_synchronous `{Platform} (theta : float)
    (self : CarRental) (h : heap) (st : eval_state) (order : list state) :
  solver_wf self h →
  evaluation_reaches theta self h st →
  order ≡ₚ all_states →
  ∃ (k : nat) t delta st',
    evaluation_round theta st
    = Ok (if (delta <? theta)%float then Return (ev_self st', ev_heap st') else Next st')
    ∧ fderef (ev_heap st') (state_values (ev_self st')) = t
    ∧ (∀ s, in_range s →
         ∃ a v, tget (ideref (ev_heap st) (policy (ev_self st))) s.1 s.2 = Ok a
                ∧ bellman_expectation (ev_self st) (ev_heap st) s a = Ok v
                ∧ tget t s.1 s.2 = Ok v)
    ∧ ev_new_values st ≠ state_values (ev_self st)
    ∧ fderef (ev_heap st') (state_values (ev_self st))
      = fderef (ev_heap st) (state_values (ev_self st))
    ∧ ideref (ev_heap st') (policy (ev_self st'))
      = ideref (ev_heap st) (policy (ev_self st))
    ∧ (∃ h',
         for_each order (evaluate_state (ev_self st) (ev_new_values st)) (ev_heap st)
         = Ok h'
         ∧ for_each_state (evaluate_state (ev_self st) (ev_new_values st)) (ev_heap st)
           = Ok h'
         ∧ fderef h' (ev_new_values st) = t
         ∧ fderef h' (state_values (ev_self st))
           = fderef (ev_heap st) (state_values (ev_self st)))
    ∧ ((delta <? theta)%float = true →
       ∀ fuel, policy_evaluation (k + S fuel) theta self h
               = Some (Ok (ev_self st', ev_heap st')))
    ∧ ((delta <? theta)%float = false → evaluation_reaches theta self h st').
Proof.
  intros Hwf Hreach Hperm.
  destruct (policy_evaluation_reaches theta self h st Hreach) as [k Hk].
  pose proof (evaluation_reaches_inv theta self h st Hwf Hreach) as Hinv.
  destruct (evaluation_round_full theta st Hinv)
    as (t & delta & st' & Hround & Hinv' & Hcells & Ht & Hself & Hia & _ & Hkeep & _).
  destruct Hinv as [Hwf' Hbuf Hne].
  pose proof (shaped_valid_f _ _ Hbuf) as Hnv.
  pose proof (shaped_valid_f _ _ (wf_values _ _ Hwf')) as Hsv.
  assert (shaped t) as Hsh by (rewrite <-Ht; apply Hinv').
  exists k, t, delta, st'. split; [exact Hround|]. split; [exact Ht|]. split.
  { intros s Hs.
    exists (action_at (ideref (ev_heap st) (policy (ev_self st))) s),
           (backup (ev_self st) (fderef (ev_heap st) (state_values (ev_self st))) s
              (action_at (ideref (ev_heap st) (policy (ev_self st))) s)).
    split; [by apply tget_action_at; [apply Hwf'|]|].
    split; [by apply bellman_expectation_backup|].
    apply tget_cell_eq; [done..|]. by apply Hcells. }
  split; [exact Hne|]. split; [by apply Hkeep|]. split.
  { unfold ideref. rewrite Hia, Hself. reflexivity. }
  split.
  { assert (∀ s, s ∈ order ↔ s ∈ all_states) as Hsame by (intros s; by rewrite Hperm).
    assert (Forall in_range order) as Hord.
    { apply Forall_forall. intros s Hs%Hsame. by apply elem_of_all_states. }
    destruct (evaluation_sweep_cells (ev_self st) (ev_new_values st) order (ev_heap st))
      as (t1 & Hrun1 & Hsh1 & Hcells1); [done..|].
    destruct (evaluation_sweep_cells (ev_self st) (ev_new_values st) all_states (ev_heap st))
      as (t2 & Hrun2 & Hsh2 & Hcells2); [done..| |].
    { apply Forall_forall. intros s. apply elem_of_all_states. }
    assert (t1 = t) as ->.
    { apply table_ext; [done..|]. intros s Hs. rewrite Hcells1, Hcells by done.
      rewrite decide_True; [done|]. by apply Hsame, elem_of_all_states. }
    assert (t2 = t) as ->.
    { apply table_ext; [done..|]. intros s Hs. rewrite Hcells2, Hcells by done.
      rewrite decide_True; [done|]. by apply elem_of_all_states. }
    exists (fstore (ev_new_values st) t (ev_heap st)).
    split; [exact Hrun1|]. split; [by rewrite for_each_state_all_states|]. split.
    - rewrite fderef_fstore. by rewrite decide_True.
    - rewrite fderef_fstore. rewrite decide_False; [done | by intros [? _]]. }
  split.
  - intros Hlt fuel. rewrite policy_evaluation_unfold, Hk. cbn [py_while].
    by rewrite Hround, Hlt.
  - intros Hlt. apply (reaches_next theta self h st st' Hreach).
    by rewrite Hround, Hlt.
Qed.

Lemma policy_evaluation_sweep_synchronous_witness :
  ∃ (k : nat) t delta st',
    @evaluation_round libm one_sweep_theta (@evaluation_entry libm fresh.1 fresh.2)
    = Ok (if (delta <? one_sweep_theta)%float
          then Return (ev_self st', ev_heap st') else Next st')
    ∧ fderef (ev_heap st') (state_values (ev_self st')) = t
    ∧ (∀ s, in_range s →
         ∃ a v, tget (ideref (ev_heap (@evaluation_entry libm fresh.1 fresh.2))
                        (policy (ev_self (@evaluation_entry libm fresh.1 fresh.2))))
                  s.1 s.2 = Ok a
                ∧ bellman_expectation (ev_self (@evaluation_entry libm fresh.1 fresh.2))
                    (ev_heap (@evaluation_entry libm fresh.1 fresh.2)) s a = Ok v
                ∧ tget t s.1 s.2 = Ok v)
    ∧ ev_new_values (@evaluation_entry libm fresh.1 fresh.2)
      ≠ state_values (ev_self (@evaluation_entry libm fresh.1 fresh.2))
    ∧ fderef (ev_heap st') (state_values (ev_self (@evaluation_entry libm fresh.1 fresh.2)))
      = fderef (ev_heap (@evaluation_entry libm fresh.1 fresh.2))
          (state_values (ev_self (@evaluation_entry libm fresh.1 fresh.2)))
    ∧ ideref (ev_heap st') (policy (ev_self st'))
      = ideref (ev_heap (@evaluation_entry libm fresh.1 fresh.2))
          (policy (ev_self (@evaluation_entry libm fresh.1 fresh.2)))
    ∧ (∃ h',
         for_each (reverse all_states)
           (evaluate_state (ev_self (@evaluation_entry libm fresh.1 fresh.2))
                           (ev_new_values (@evaluation_entry libm fresh.1 fresh.2)))
           (ev_heap (@evaluation_entry libm fresh.1 fresh.2)) = Ok h'
         ∧ for_each_state
             (evaluate_state (ev_self (@evaluation_entry libm fresh.1 fresh.2))
                             (ev_new_values (@evaluation_entry libm fresh.1 fresh.2)))
             (ev_heap (@evaluation_entry libm fresh.1 fresh.2)) = Ok h'
         ∧ fderef h' (ev_new_values (@evaluation_entry libm fresh.1 fresh.2)) = t
         ∧ fderef h' (state_values (ev_self (@evaluation_entry libm fresh.1 fresh.2)))
           = fderef (ev_heap (@evaluation_entry libm fresh.1 fresh.2))
               (state_values (ev_self (@evaluation_entry libm fresh.1 fresh.2))))
    ∧ ((delta <? one_sweep_theta)%float = true →
       ∀ fuel, @policy_evaluation libm (k + S fuel) one_sweep_theta fresh.1 fresh.2
               = Some (Ok (ev_self st', ev_heap st')))
    ∧ ((delta <? one_sweep_theta)%float = false →
       @evaluation_reaches libm one_sweep_theta fresh.1 fresh.2 st').
Proof.
  apply (@policy_evaluation_sweep_synchronous libm one_sweep_theta fresh.1 fresh.2
           (@evaluation_entry libm fresh.1 fresh.2) (reverse all_states)).
  - exact fresh_wf.
  - apply reaches_entry.
  - apply reverse_Permutation.
Defined.

(** C6: the code differs. [policy_evaluation] counts no sweeps and has no
    cap: the statement that raises after its [while True] is never reached.
    On a well-formed solver a call raises nothing, whatever the threshold
    and the fuel: it returns or it is still running; and with the threshold
    [theta = 0.0] it is still running after any number of sweeps, since
    [delta < 0.0] never holds. *)
Theorem policy_evaluation_has_no_cap `{Platform} (self : CarRental) (h : heap) :
  solver_wf self h →
  (∀ fuel, policy_evaluation fuel 0%float self h = None)
  ∧ (∀ fuel theta,
       policy_evaluation fuel theta self h = None
       ∨ ∃ w, policy_evaluation fuel theta self h = Some (Ok w)).
Proof.
  intros Hwf. split.
  - intros fuel. rewrite policy_evaluation_unfold.
    by rewrite (evaluation_loop_zero_theta fuel _ (evaluation_entry_inv self h Hwf)).
  - intros fuel theta.
    destruct (policy_evaluation_result fuel theta self h Hwf)
      as [?|(self' & h' & ? & _)]; [by left|].
    right. by exists (self', h').
Qed.

Lemma policy_evaluation_has_no_cap_witness :
  (∀ fuel, @policy_evaluation libm fuel 0%float fresh.1 fresh.2 = None)
  ∧ (∀ fuel theta,
       @policy_evaluation libm fuel theta fresh.1 fresh.2 = None
       ∨ ∃ w, @policy_evaluation libm fuel theta fresh.1 fresh.2 = Some (Ok w)).
Proof. apply (@policy_evaluation_has_no_cap libm fresh.1 fresh.2). exact fresh_wf. Defined.



(** ** Magnitudes of binary64 numbers *)

Lemma digits2_pos_size (p : positive) : digits2_pos p = Pos.size p.
Proof. induction p as [p IH|p IH|]; simpl; by rewrite ?IH. Qed.

Lemma Zdigits2_log2 (m : Z) : 0 < m → Zdigits2 m = Z.log2 m + 1.
Proof.
  destruct m as [|p|p]; try lia. intros _. simpl. rewrite digits2_pos_size.
  destruct p as [p|p|]; simpl; lia.
Qed.

Lemma Zdigits2_nonneg (m : Z) : 0 ≤ Zdigits2 m.
Proof. destruct m; simpl; lia. Qed.

Lemma shr_1_m (r : shr_record) : 0 ≤ shr_m r → shr_m (shr_1 r) = Z.div2 (shr_m r).
Proof. destruct r as [[|[p|p|]|p] b s]; simpl; intros; done || lia. Qed.

Lemma iter_shr_m (p : positive) (r : shr_record) :
  0 ≤ shr_m r → shr_m (SpecFloat.iter_pos shr_1 p r) = Z.shiftr (shr_m r) (Z.pos p).
Proof.
  revert r. induction p as [p IH|p IH|]; intros r Hr; simpl SpecFloat.iter_pos.
  - assert (0 ≤ shr_m (shr_1 r)) as H1
      by (rewrite shr_1_m by done; rewrite Z.div2_spec; by apply Z.shiftr_nonneg).
    assert (0 ≤ shr_m (SpecFloat.iter_pos shr_1 p (shr_1 r))) as H2
      by (rewrite IH by done; by apply Z.shiftr_nonneg).
    rewrite IH, IH, shr_1_m by done. rewrite Z.div2_spec, !Z.shiftr_shiftr by lia.
    f_equal. lia.
  - assert (0 ≤ shr_m (SpecFloat.iter_pos shr_1 p r)) as H2
      by (rewrite IH by done; by apply Z.shiftr_nonneg).
    rewrite IH, IH by done. rewrite Z.shiftr_shiftr by lia. f_equal. lia.
  - rewrite shr_1_m by done. by rewrite Z.div2_spec.
Qed.

Lemma shr_record_of_loc_m (m : Z) (l : location) : shr_m (shr_record_of_loc m l) = m.
Proof. by destruct l as [|[]]. Qed.

(** A right shift to the exponent of the format. *)
Lemma shr_fexp_spec (m e : Z) (l : location) :
  0 ≤ m →
  let n := Z.max 0 (fexp prec emax (Zdigits2 m + e) - e) in
  shr_m (shr_fexp prec emax m e l).1 = Z.shiftr m n
  ∧ (shr_fexp prec emax m e l).2 = e + n.
Proof.
  intros Hm n. unfold shr_fexp, shr. subst n.
  destruct (fexp prec emax (Zdigits2 m + e) - e) as [|p|p] eqn:E; simpl fst; simpl snd.
  - rewrite shr_record_of_loc_m. split; [by rewrite Z.shiftr_0_r | lia].
  - rewrite iter_shr_m by by rewrite shr_record_of_loc_m.
    rewrite shr_record_of_loc_m. split; [f_equal; lia | lia].
  - rewrite shr_record_of_loc_m. split; [by rewrite Z.shiftr_0_r | lia].
Qed.

(** Shifting right loses no magnitude. *)
Lemma Zdigits2_shiftr (m n : Z) :
  0 ≤ m → 0 ≤ n → 0 < Z.shiftr m n → Zdigits2 (Z.shiftr m n) + n ≤ Zdigits2 m.
Proof.
  intros Hm Hn Hpos.
  assert (0 < m) as Hm'.
  { destruct (Z.eq_dec m 0) as [->|]; [|lia]. rewrite Z.shiftr_0_l in Hpos. lia. }
  rewrite !Zdigits2_log2 by done. rewrite Z.log2_shiftr by done.
  destruct (Z.le_gt_cases n (Z.log2 m)); [lia|].
  rewrite Z.shiftr_eq_0 in Hpos by lia. lia.
Qed.

Lemma round_nearest_even_cases (m : Z) (l : location) :
  round_nearest_even m l = m ∨ round_nearest_even m l = m + 1.
Proof. destruct l as [|[]]; simpl; [|destruct (Z.even m)|..]; auto. Qed.

Lemma Zdigits2_succ (m : Z) : 0 ≤ m → Zdigits2 (m + 1) ≤ Zdigits2 m + 1.
Proof.
  intros Hm. destruct (Z.eq_dec m 0) as [->|]; [by vm_compute|].
  rewrite !Zdigits2_log2 by lia. pose proof (Z.log2_succ_le m) as Hs.
  change (Z.succ m) with (m + 1) in Hs. lia.
Qed.

(** The magnitude of a rounded number: at most one more than the magnitude
    of the number rounded, and no overflow below [2^1023]. *)
Lemma binary_round_aux_mag (sx : bool) (m e : Z) (l : location) (k : Z) :
  0 ≤ m → Zdigits2 m + e ≤ k → -1074 ≤ k → k ≤ 1023 → e ≤ 971 →
  match binary_round_aux prec emax sx m e l with
  | S754_zero _ => True
  | S754_finite _ m' e' => Z.pos (digits2_pos m') + e' ≤ k + 1
  | _ => False
  end.
Proof.
  intros Hm HD Hk1 Hk2 He. unfold binary_round_aux.
  pose proof (Zdigits2_nonneg m) as Hdm.
  destruct (shr_fexp_spec m e l Hm) as [Hm1 He1].
  destruct (shr_fexp prec emax m e l) as [r1 e1]. simpl in Hm1, He1.
  remember (Z.max 0 (fexp prec emax (Zdigits2 m + e) - e)) as n1 eqn:Hn1.
  remember (shr_m r1) as m1 eqn:Em1.
  assert (0 ≤ n1) as Hn1' by lia.
  assert (0 ≤ m1) as Hm1' by (rewrite Hm1; apply Z.shiftr_nonneg; lia).
  assert (e1 ≤ k ∧ e1 ≤ 971) as [He1' He1''].
  { rewrite He1, Hn1. unfold fexp, emin, prec, emax. lia. }
  assert (m1 ≠ 0 → Zdigits2 m1 + e1 ≤ k) as HD1.
  { intros Hne. pose proof (Zdigits2_shiftr m n1 Hm Hn1') as Hs.
    rewrite <-Hm1 in Hs. lia. }
  remember (round_nearest_even m1 (loc_of_shr_record r1)) as m2 eqn:Em2.
  assert (0 ≤ m2 ∧ Zdigits2 m2 + e1 ≤ k + 1) as [Hm2 HD2].
  { destruct (round_nearest_even_cases m1 (loc_of_shr_record r1)) as [Hr|Hr];
      rewrite <-Em2 in Hr; rewrite Hr.
    - split; [done|]. destruct (Z.eq_dec m1 0) as [->|Hne]; [simpl; lia|].
      specialize (HD1 Hne). lia.
    - split; [lia|]. destruct (Z.eq_dec m1 0) as [->|Hne]; [simpl; lia|].
      specialize (HD1 Hne). pose proof (Zdigits2_succ m1 Hm1'). lia. }
  pose proof (Zdigits2_nonneg m2) as Hdm2.
  destruct (shr_fexp_spec m2 e1 loc_Exact Hm2) as [Hm3 He3].
  destruct (shr_fexp prec emax m2 e1 loc_Exact) as [r3 e3]. simpl in Hm3, He3.
  remember (Z.max 0 (fexp prec emax (Zdigits2 m2 + e1) - e1)) as n2 eqn:Hn2.
  assert (0 ≤ n2) as Hn2' by lia.
  assert (0 ≤ shr_m r3) as Hm3' by (rewrite Hm3; apply Z.shiftr_nonneg; lia).
  assert (e3 ≤ 971) as He3'.
  { rewrite He3, Hn2. unfold fexp, emin, prec, emax. lia. }
  pose proof (Zdigits2_shiftr m2 n2 Hm2 Hn2') as Hs. rewrite <-Hm3 in Hs.
  destruct (shr_m r3) as [|m3|m3]; [done| |lia].
  unfold emax at 1, prec at 1. destruct (Z.leb_spec e3 (1024 - 53)); [|lia].
  simpl in Hs. lia.
Qed.

(** [x] is a zero, or a finite number below [2^k] in magnitude. *)
Definition sf_mag_le (k : Z) (x : spec_float) : Prop :=
  match x with
  | S754_zero _ => True
  | S754_finite _ m e => Z.pos (digits2_pos m) + e ≤ k
  | _ => False
  end.

Definition mag_le (k : Z) (x : float) : Prop := sf_mag_le k (Prim2SF x).

Definition mag_leb (k : Z) (x : float) : bool :=
  match Prim2SF x with
  | S754_zero _ => true
  | S754_finite _ m e => Z.pos (digits2_pos m) + e <=? k
  | _ => false
  end.

Lemma mag_leb_spec (k : Z) (x : float) : mag_leb k x = true ↔ mag_le k x.
Proof.
  unfold mag_leb, mag_le. destruct (Prim2SF x); simpl; try done.
  apply Z.leb_le.
Qed.

Lemma sf_mag_le_mono (k k' : Z) (x : spec_float) :
  k ≤ k' → sf_mag_le k x → sf_mag_le k' x.
Proof. intros Hk. destruct x; simpl; try done. lia. Qed.

Lemma mag_le_mono (k k' : Z) (x : float) : k ≤ k' → mag_le k x → mag_le k' x.
Proof. apply sf_mag_le_mono. Qed.

(** A number of bounded magnitude compares greater than minus infinity. *)
Lemma mag_le_above_neg_infinity (k : Z) (x : float) :
  mag_le k x → (neg_infinity <? x)%float = true.
Proof.
  unfold mag_le. rewrite ltb_spec. change (Prim2SF neg_infinity) with (S754_infinity true).
  by destruct (Prim2SF x).
Qed.

Lemma valid_finite (s : bool) (m : positive) (e : Z) :
  valid_binary (S754_finite s m e) = true →
  e = Z.max (Z.pos (digits2_pos m) + e - 53) (-1074) ∧ e ≤ 971.
Proof.
  unfold valid_binary, SpecFloat.valid_binary, bounded, canonical_mantissa, fexp, emin,
    prec, emax.
  intros [H1%Z.eqb_eq H2%Z.leb_le]%andb_true_iff. lia.
Qed.

Lemma digits2_pos_mul (p q : positive) :
  Z.pos (digits2_pos (p * q)) ≤ Z.pos (digits2_pos p) + Z.pos (digits2_pos q).
Proof.
  pose proof (Zdigits2_log2 (Z.pos p) ltac:(lia)) as Hp.
  pose proof (Zdigits2_log2 (Z.pos q) ltac:(lia)) as Hq.
  pose proof (Zdigits2_log2 (Z.pos (p * q)) ltac:(lia)) as Hpq.
  pose proof (Z.log2_mul_above (Z.pos p) (Z.pos q) ltac:(lia) ltac:(lia)) as Hm.
  change (Z.pos p * Z.pos q) with (Z.pos (p * q)) in Hm.
  unfold Zdigits2 in Hp, Hq, Hpq. lia.
Qed.

Lemma SFmul_mag (a b : Z) (x y : spec_float) :
  valid_binary x = true → valid_binary y = true →
  sf_mag_le a x → sf_mag_le b y → -1074 ≤ a + b → a + b ≤ 1023 →
  sf_mag_le (a + b + 1) (SFmul prec emax x y).
Proof.
  intros Hvx Hvy Hx Hy Hlo Hhi.
  destruct x as [sx|sx| |sx mx ex], y as [sy|sy| |sy my ey]; simpl in Hx, Hy; try done.
  apply valid_finite in Hvx as [Hex Hex'], Hvy as [Hey Hey'].
  pose proof (digits2_pos_mul mx my) as Hd.
  unfold SFmul, sf_mag_le.
  apply binary_round_aux_mag; [lia| |lia|lia|lia].
  simpl. lia.
Qed.

Lemma digits2_pos_iter_xO (m d : positive) :
  Z.pos (digits2_pos (Pos.iter xO m d)) = Z.pos (digits2_pos m) + Z.pos d.
Proof.
  induction d as [|d IH] using Pos.peano_ind.
  - simpl. lia.
  - rewrite Pos.iter_succ. simpl digits2_pos. lia.
Qed.

Lemma shl_align_mag (m : positive) (e e' : Z) :
  Z.pos (digits2_pos (shl_align m e e').1) + (shl_align m e e').2
  = Z.pos (digits2_pos m) + e
  ∧ (shl_align m e e').2 = Z.min e e'.
Proof.
  unfold shl_align. destruct (e' - e) as [|d|d] eqn:E; simpl; [lia|lia|].
  rewrite digits2_pos_iter_xO. lia.
Qed.

Lemma binary_round_mag (sx : bool) (m : positive) (e k : Z) :
  Z.pos (digits2_pos m) + e ≤ k → -1074 ≤ k → k ≤ 1023 → e ≤ 971 →
  sf_mag_le (k + 1) (binary_round prec emax sx m e).
Proof.
  intros HD Hk1 Hk2 He. unfold binary_round.
  destruct (shl_align_mag m e (fexp prec emax (Z.pos (digits2_pos m) + e))) as [Hd Hez].
  destruct (shl_align m e _) as [mz ez]. simpl in Hd, Hez.
  unfold sf_mag_le. apply binary_round_aux_mag; [lia|simpl; lia|lia|lia|lia].
Qed.

Lemma Zdigits2_add (a b : positive) (sa sb : bool) (d : Z) :
  Z.pos (digits2_pos a) ≤ d → Z.pos (digits2_pos b) ≤ d →
  Zdigits2 (cond_Zopp sa (Z.pos a) + cond_Zopp sb (Z.pos b)) ≤ d + 1.
Proof.
  intros Ha Hb.
  pose proof (Zdigits2_log2 (Z.pos a) ltac:(lia)) as Ea.
  pose proof (Zdigits2_log2 (Z.pos b) ltac:(lia)) as Eb.
  unfold Zdigits2 in Ea, Eb.
  set (s := cond_Zopp sa (Z.pos a) + cond_Zopp sb (Z.pos b)).
  assert (Z.abs s ≤ 2 * Z.max (Z.pos a) (Z.pos b)) as Hs
    by (unfold s; destruct sa, sb; simpl cond_Zopp; lia).
  assert (Zdigits2 s = Zdigits2 (Z.abs s)) as -> by by destruct s.
  destruct (Z.eq_dec (Z.abs s) 0) as [->|Hne]; [simpl; lia|].
  rewrite Zdigits2_log2 by lia.
  pose proof (Z.log2_le_mono _ _ Hs) as Hl.
  rewrite Z.log2_double in Hl by lia.
  destruct (Z.max_spec (Z.pos a) (Z.pos b)) as [[_ Hmax]|[_ Hmax]];
    rewrite Hmax in Hl; lia.
Qed.

Lemma SFadd_mag (k : Z) (x y : spec_float) :
  valid_binary x = true → valid_binary y = true →
  sf_mag_le k x → sf_mag_le k y → -1074 ≤ k → k ≤ 1021 →
  sf_mag_le (k + 2) (SFadd prec emax x y).
Proof.
  intros Hvx Hvy Hx Hy Hlo Hhi.
  destruct x as [sx|sx| |sx mx ex], y as [sy|sy| |sy my ey]; simpl in Hx, Hy; try done.
  - by destruct sx, sy.
  - simpl. lia.
  - simpl. lia.
  - apply valid_finite in Hvx as [Hex Hex'], Hvy as [Hey Hey'].
    unfold SFadd.
    destruct (shl_align_mag mx ex (Z.min ex ey)) as [Hdx Hzx].
    destruct (shl_align_mag my ey (Z.min ex ey)) as [Hdy Hzy].
    set (ax := (shl_align mx ex (Z.min ex ey)).1) in *.
    set (ay := (shl_align my ey (Z.min ex ey)).1) in *.
    pose proof (Zdigits2_add ax ay sx sy (k - Z.min ex ey) ltac:(lia) ltac:(lia)) as Hs.
    destruct (cond_Zopp sx (Z.pos ax) + cond_Zopp sy (Z.pos ay)) as [|m|m] eqn:Es;
      [done|..]; simpl in Hs; simpl binary_normalize;
      replace (k + 2) with (k + 1 + 1) by lia; apply binary_round_mag; lia.
Qed.

Lemma mul_mag (a b : Z) (x y : float) :
  mag_le a x → mag_le b y → -1074 ≤ a + b → a + b ≤ 1023 →
  mag_le (a + b + 1) (x * y).
Proof.
  intros Hx Hy Hlo Hhi. unfold mag_le. rewrite mul_spec.
  apply SFmul_mag; try done; apply Prim2SF_valid.
Qed.

Lemma add_mag (k : Z) (x y : float) :
  mag_le k x → mag_le k y → -1074 ≤ k → k ≤ 1021 → mag_le (k + 2) (x + y).
Proof.
  intros Hx Hy Hlo Hhi. unfold mag_le. rewrite add_spec.
  apply SFadd_mag; try done; apply Prim2SF_valid.
Qed.

(** ** The magnitude of a backup *)

(** The entries of the model tables are finite: probabilities below 2,
    expected rewards below 64. *)
Record model_bounded (self : CarRental) : Prop := {
  probs_1_bounded : ∀ k v, _probs_1 self !! k = Some v → mag_le 1 v;
  probs_2_bounded : ∀ k v, _probs_2 self !! k = Some v → mag_le 1 v;
  rewards_1_bounded : ∀ n v, _rewards_1 self !! n = Some v → mag_le 6 v;
  rewards_2_bounded : ∀ n v, _rewards_2 self !! n = Some v → mag_le 6 v;
}.

(** Every cell of a table is finite and below [2^k] in magnitude. *)
Definition table_bounded (k : Z) (V : table float) : Prop :=
  ∀ s v, in_range s → cell V s = Some v → mag_le k v.

Lemma mag_le_zero (k : Z) : mag_le k 0%float.
Proof. done. Qed.

Lemma dict_value_mag `{Countable K} (d : gmap K float) (k : K) (c : Z) :
  (∀ k v, d !! k = Some v → mag_le c v) → mag_le c (dict_value d k).
Proof.
  intros Hd. unfold dict_value. destruct (d !! k) as [v|] eqn:E; simpl.
  - by eapply Hd.
  - apply mag_le_zero.
Qed.

Lemma table_value_mag (k : Z) (V : table float) (s : state) :
  table_bounded k V → in_range s → mag_le k (table_value V s).
Proof.
  intros HV Hs. unfold table_value. destruct (cell V s) as [v|] eqn:E; simpl.
  - by eapply HV.
  - apply mag_le_zero.
Qed.

Lemma transition_mag (self : CarRental) (m s' : state) :
  model_bounded self → mag_le 3 (transition self m s').
Proof.
  intros Hb. unfold transition.
  apply (mul_mag 1 1); [apply dict_value_mag, Hb..|lia|lia].
Qed.

Lemma expected_reward_mag (self : CarRental) (m : state) :
  model_bounded self → mag_le 8 (expected_reward self m).
Proof.
  intros Hb. unfold expected_reward.
  apply (add_mag 6); [apply dict_value_mag, Hb..|lia|lia].
Qed.

Lemma DISCOUNT_mag : mag_le 0 DISCOUNT.
Proof. by apply mag_leb_spec. Qed.

Lemma move_cost_mag (s : state) (a : Z) :
  mag_le 4 (float_of_Z (- CAR_MOVE_COST * Z.abs (get_valid_action s a))).
Proof.
  assert (Z.abs (get_valid_action s a) ∈ seqZ 0 6) as Hin.
  { apply elem_of_seqZ. destruct s as [n1 n2]. unfold get_valid_action, MAX_MOVE. lia. }
  revert Hin. generalize (Z.abs (get_valid_action s a)). intros z Hz.
  assert (Forall (λ z, mag_le 4 (float_of_Z (- CAR_MOVE_COST * z))) (seqZ 0 6)) as Hall.
  { repeat constructor; by apply mag_leb_spec. }
  by eapply Forall_forall in Hall.
Qed.

(** One term of the sum. *)
Lemma backup_term_mag (self : CarRental) (V : table float) (m s' : state) (k : Z) :
  model_bounded self → table_bounded k V → in_range s' → 7 ≤ k → k ≤ 1014 →
  mag_le (k + 7)
    (transition self m s' * (expected_reward self m + DISCOUNT * table_value V s')).
Proof.
  intros Hb HV Hs' Hlo Hhi.
  replace (k + 7) with (3 + (k + 3) + 1) by lia.
  apply mul_mag; [by apply transition_mag| |lia|lia].
  replace (k + 3) with (k + 1 + 2) by lia.
  apply add_mag; [|..|lia|lia].
  - eapply mag_le_mono; [|by apply expected_reward_mag]. lia.
  - replace (k + 1) with (0 + k + 1) by lia.
    apply mul_mag; [apply DISCOUNT_mag|by apply table_value_mag|lia|lia].
Qed.

Lemma backup_fold_mag (self : CarRental) (V : table float) (m : state) (k c : Z)
    (l : list state) (acc : float) :
  model_bounded self → table_bounded k V → Forall in_range l →
  7 ≤ k → k + 7 ≤ c → c + 2 * Z.of_nat (length l) ≤ 1023 → mag_le c acc →
  mag_le (c + 2 * Z.of_nat (length l))
    (fold_left (λ state_value s',
                  state_value
                  + transition self m s'
                    * (expected_reward self m + DISCOUNT * table_value V s'))%float
       l acc).
Proof.
  intros Hb HV Hl Hk. revert c acc.
  induction Hl as [|s' l Hs' Hl IH]; intros c acc Hc Hhi Hacc.
  - cbn [fold_left length]. by replace (c + 2 * Z.of_nat 0) with c by lia.
  - cbn [fold_left length] in *.
    replace (c + 2 * Z.of_nat (S (length l))) with (c + 2 + 2 * Z.of_nat (length l)) by lia.
    apply IH; [lia|lia|].
    apply add_mag; [done| |lia|lia].
    eapply mag_le_mono; [|apply backup_term_mag; [done..|lia]]. lia.
Qed.

Lemma all_states_length : length all_states = 441%nat.
Proof. done. Qed.

(** The backup of a table with entries below [2^128] is finite. *)
Lemma backup_mag (self : CarRental) (V : table float) (s : state) (a : Z) :
  model_bounded self → table_bounded 128 V → mag_le 1017 (backup self V s a).
Proof.
  intros Hb HV. unfold backup. cbv zeta.
  pose proof (backup_fold_mag self V (morning_state s a) 128 135 all_states
                (float_of_Z (- CAR_MOVE_COST * Z.abs (get_valid_action s a))) Hb HV) as Hf.
  rewrite all_states_length in Hf. apply Hf; [|lia|lia|lia|].
  - apply Forall_forall. intros s'. apply elem_of_all_states.
  - eapply mag_le_mono; [|apply move_cost_mag]. lia.
Qed.

(** Checks of the bounds by computation. *)
Definition dict_boundedb `{Countable K} (c : Z) (d : gmap K float) : bool :=
  forallb (λ kv, mag_leb c kv.2) (map_to_list d).

Lemma dict_boundedb_spec `{Countable K} (c : Z) (d : gmap K float) :
  dict_boundedb c d = true → ∀ k v, d !! k = Some v → mag_le c v.
Proof.
  unfold dict_boundedb. rewrite forallb_forall. intros Hall k v Hkv.
  apply mag_leb_spec. apply (Hall (k, v)).
  apply list_elem_of_In. by apply elem_of_map_to_list.
Qed.

Definition model_boundedb (self : CarRental) : bool :=
  dict_boundedb 1 (_probs_1 self) && dict_boundedb 1 (_probs_2 self)
  && dict_boundedb 6 (_rewards_1 self) && dict_boundedb 6 (_rewards_2 self).

Lemma model_boundedb_spec (self : CarRental) :
  model_boundedb self = true → model_bounded self.
Proof.
  unfold model_boundedb.
  intros [[[H1 H2]%andb_true_iff H3]%andb_true_iff H4]%andb_true_iff.
  split; by apply dict_boundedb_spec.
Qed.



(** ** Policy improvement *)

(** The search of a state does not depend on the old entry when the value
    of the first action compares greater than minus infinity. *)
Lemma greedy_first_action (self : CarRental) (V : table float) (s : state) (a1 a2 : Z) :
  in_range s →
  (neg_infinity <? backup self V s (- s.2))%float = true →
  greedy self V s a1 = greedy self V s a2.
Proof.
  intros Hs Hfirst. unfold greedy.
  rewrite (get_available_actions_in_range s Hs). unfold py_range.
  rewrite seqZ_cons by (destruct Hs; lia). simpl. by rewrite Hfirst.
Qed.

(** On a table of bounded numbers the search forgets the old entry: the
    backup of the first action is finite. *)
Lemma greedy_forgets (self : CarRental) (V : table float) (s : state) (a1 a2 : Z) :
  model_bounded self → table_bounded 128 V → in_range s →
  greedy self V s a1 = greedy self V s a2.
Proof.
  intros Hb HV Hs. apply greedy_first_action; [done|].
  eapply mag_le_above_neg_infinity. by apply backup_mag.
Qed.

(** *** Not-a-number values *)

Lemma mul_nan (x : float) : (x * nan)%float = nan.
Proof.
  apply Prim2SF_inj. rewrite mul_spec. change (Prim2SF nan) with S754_nan.
  by destruct (Prim2SF x).
Qed.

Lemma add_nan (x : float) : (x + nan)%float = nan.
Proof.
  apply Prim2SF_inj. rewrite add_spec. change (Prim2SF nan) with S754_nan.
  by destruct (Prim2SF x).
Qed.

(** A NaN in the last cell of the value table makes every backup a NaN. *)
Lemma backup_nan (self : CarRental) (V : table float) (s : state) (a : Z) :
  table_value V (MAX_CARS, MAX_CARS) = nan → backup self V s a = nan.
Proof.
  intros HV. unfold backup.
  assert (all_states = removelast all_states ++ [(MAX_CARS, MAX_CARS)]) as ->
    by (vm_compute; reflexivity).
  rewrite fold_left_app. simpl. rewrite HV.
  by rewrite mul_nan, add_nan, mul_nan, add_nan.
Qed.

(** No action replaces the old entry when every backup is a NaN. *)
Lemma greedy_nan (self : CarRental) (V : table float) (s : state) (best_action : Z) :
  table_value V (MAX_CARS, MAX_CARS) = nan →
  greedy self V s best_action = (neg_infinity, best_action).
Proof.
  intros HV. unfold greedy.
  induction (get_available_actions s) as [|a l IH]; simpl; [done|].
  by rewrite backup_nan.
Qed.

Lemma solver_wf_fstore (self : CarRental) (h : heap) (t : table float) :
  solver_wf self h → shaped t → solver_wf self (fstore (state_values self) t h).
Proof.
  intros Hwf Ht. pose proof (shaped_valid_f _ _ (wf_values _ _ Hwf)) as Hv.
  destruct Hwf as [Hm HV HP]. split; [done| |done].
  rewrite fderef_fstore. by rewrite decide_True.
Qed.

Lemma solver_wf_istore (self : CarRental) (h : heap) (t : table Z) :
  solver_wf self h → shaped t → solver_wf self (istore (policy self) t h).
Proof.
  intros Hwf Ht. pose proof (shaped_valid_i _ _ (wf_policy _ _ Hwf)) as Hv.
  destruct Hwf as [Hm HV HP]. split; [done|done|].
  rewrite ideref_istore. by rewrite decide_True.
Qed.

(** The store of a fresh solver whose value table holds NaN in every cell. *)
Definition nan_heap : heap := fstore (state_values fresh.1) (np_zeros nan) fresh.2.

Lemma nan_solver_wf : solver_wf fresh.1 nan_heap.
Proof. apply solver_wf_fstore; [exact fresh_wf | apply shaped_np_zeros]. Qed.

Lemma nan_table_last_cell : table_value (np_zeros nan) (MAX_CARS, MAX_CARS) = nan.
Proof. vm_compute. reflexivity. Qed.

Lemma nan_solver_values : fderef nan_heap (state_values fresh.1) = np_zeros nan.
Proof.
  unfold nan_heap. rewrite fderef_fstore.
  rewrite decide_True; [reflexivity|]. split; [reflexivity|].
  apply shaped_valid_f, fresh_wf.
Qed.

(** On a solver whose value table ends in a NaN, [policy_improvement]
    writes the old policy back and reports a stable policy. *)
Lemma policy_improvement_nan `{Platform} (self : CarRental) (h : heap) :
  solver_wf self h →
  table_value (fderef h (state_values self)) (MAX_CARS, MAX_CARS) = nan →
  ∃ self' h', policy_improvement self h = Ok (true, (self', h'))
              ∧ ideref h' (policy self') = ideref h (policy self).
Proof.
  intros Hwf HV.
  destruct (policy_improvement_spec self h Hwf)
    as (t & self' & h' & Hrun & Hsh & Hcells & _ & Ht & _).
  assert (t = ideref h (policy self)) as Heq.
  { apply table_ext; [done|apply Hwf|]. intros s Hs.
    rewrite (Hcells s Hs), greedy_nan by done. simpl.
    destruct (tget_cell _ s (wf_policy _ _ Hwf) Hs) as (x & Hx & _).
    unfold action_at. by rewrite Hx. }
  exists self', h'. rewrite Hrun, Ht, Heq. by rewrite np_all_equal_refl.
Qed.

(** C8. [policy_improvement] is idempotent on a stable pair: when a call on
    a well-formed solver reports a stable policy, a second call on the
    solver and store it leaves raises nothing, reports a stable policy
    again, and leaves a policy array equal, cell by cell, to the one the
    first call left (and to the one before it). *)
Theorem policy_improvement_idempotent_when_stable `{Platform}
    (self self1 : CarRental) (h h1 : heap) :
  solver_wf self h →
  policy_improvement self h = Ok (true, (self1, h1)) →
  ∃ self2 h2,
    policy_improvement self1 h1 = Ok (true, (self2, h2))
    ∧ ideref h2 (policy self2) = ideref h1 (policy self1)
    ∧ ideref h1 (policy self1) = ideref h (policy self).
Proof.
  intros Hwf Hrun.
  pose proof (policy_improvement_wf _ _ _ _ _ Hwf Hrun) as Hwf1.
  destruct (policy_improvement_spec self h Hwf)
    as (t & self' & h' & Hrun' & Hsh & Hcells & Hself & Ht & Hf & _).
  rewrite Hrun' in Hrun. injection Hrun as Hstable -> ->.
  apply np_all_equal_eq in Hstable; [|done|apply Hwf].
  destruct (policy_improvement_spec self1 h1 Hwf1)
    as (t2 & self2 & h2 & Hrun2 & Hsh2 & Hcells2 & _ & Ht2 & _).
  assert (fderef h1 (state_values self1) = fderef h (state_values self)) as HV.
  { rewrite Hself. unfold fderef. simpl. by rewrite Hf. }
  assert (t2 = t) as Heq.
  { apply table_ext; [done..|]. intros s Hs.
    rewrite (Hcells2 s Hs), (Hcells s Hs), HV, Ht, <-Hstable.
    replace (greedy self1) with (greedy self); [done|].
    rewrite Hself. reflexivity. }
  exists self2, h2. rewrite Hrun2, Ht2, Ht, Heq, <-Hstable.
  by rewrite np_all_equal_refl.
Qed.


(** After one improvement a further one finds the policy stable, on such a
    value table. *)
Lemma policy_improvement_settles `{Platform} (self self1 : CarRental) (h h1 : heap)
    (c : bool) :
  solver_wf self h → model_bounded self →
  table_bounded 128 (fderef h (state_values self)) →
  policy_improvement self h = Ok (c, (self1, h1)) →
  ∃ self2 h2, policy_improvement self1 h1 = Ok (true, (self2, h2)).
Proof.
  intros Hwf Hb Hfin Hrun.
  pose proof (policy_improvement_wf _ _ _ _ _ Hwf Hrun) as Hwf1.
  destruct (policy_improvement_spec self h Hwf)
    as (t & self' & h' & Hrun' & Hsh & Hcells & Hself & Ht & Hf & _).
  rewrite Hrun' in Hrun. injection Hrun as _ -> ->.
  destruct (policy_improvement_spec self1 h1 Hwf1)
    as (t2 & self2 & h2 & Hrun2 & Hsh2 & Hcells2 & _).
  assert (fderef h1 (state_values self1) = fderef h (state_values self)) as HV.
  { rewrite Hself. unfold fderef. simpl. by rewrite Hf. }
  assert (t2 = t) as Heq.
  { apply table_ext; [done..|]. intros s Hs.
    rewrite (Hcells2 s Hs), (Hcells s Hs), HV. do 2 f_equal.
    replace (greedy self1) with (greedy self) by (rewrite Hself; reflexivity).
    by apply greedy_forgets. }
  exists self2, h2. rewrite Hrun2, Ht, Heq. by rewrite np_all_equal_refl.
Qed.

(** A policy array other than the zero array: move one car when each
    location holds one. *)
Definition other_policy : table Z :=
  <[1%nat := <[1%nat := 1]> (replicate side 0)]> (np_zeros 0).

Lemma shaped_other_policy : shaped other_policy.
Proof.
  unfold other_policy. split; [by rewrite length_insert|].
  apply Forall_insert; [apply shaped_np_zeros|].
  by rewrite length_insert, length_replicate.
Qed.

(** The bound on the values cannot be dropped altogether. A NaN is no real
    number, and no call of the solver on a table of numbers produces one;
    but on a value table of NaNs no action compares greater than minus
    infinity, the old entry is kept, and two calls that differ only in the
    old policy array leave different policy arrays. *)
Lemma policy_improvement_keeps_old_policy_on_nan :
  fderef nan_heap (state_values fresh.1)
  = fderef (istore (policy fresh.1) other_policy nan_heap)
      (state_values fresh.1)
  ∧ ∃ c1 w1 c2 w2,
      @policy_improvement libm fresh.1 nan_heap = Ok (c1, w1)
      ∧ @policy_improvement libm fresh.1
          (istore (policy fresh.1) other_policy nan_heap) = Ok (c2, w2)
      ∧ tget (ideref w1.2 (policy w1.1)) 1 1 = Ok 0
      ∧ tget (ideref w2.2 (policy w2.1)) 1 1 = Ok 1.
Proof.
  split; [by rewrite fderef_istore|].
  destruct (@policy_improvement_nan libm _ _ nan_solver_wf) as (s1 & h1 & Hrun1 & HP1).
  { rewrite nan_solver_values. exact nan_table_last_cell. }
  destruct (@policy_improvement_nan libm fresh.1
              (istore (policy fresh.1) other_policy nan_heap))
    as (s2 & h2 & Hrun2 & HP2).
  { apply solver_wf_istore; [exact nan_solver_wf | exact shaped_other_policy]. }
  { rewrite fderef_istore, nan_solver_values. exact nan_table_last_cell. }
  exists true, (s1, h1), true, (s2, h2). split; [exact Hrun1|]. split; [exact Hrun2|].
  cbn [fst snd]. rewrite HP1, HP2. split; vm_compute; reflexivity.
Qed.

(** ** The entries of the policy table *)


Definition unwrap_run {A} (d : A) (r : option (result A)) : A :=
  match r with Some (Ok a) => a | _ => d end.

(** The solver after [CarRental()] and [policy_evaluation(theta=1e9)], which
    returns after one sweep. *)
Definition after_one_sweep : CarRental * heap :=
  unwrap_run fresh (@policy_evaluation libm 1 one_sweep_theta fresh.1 fresh.2).

Definition run_returns {A} (r : option (result A)) : bool :=
  match r with Some (Ok _) => true | _ => false end.

Lemma after_one_sweep_run :
  @policy_evaluation libm 1 one_sweep_theta fresh.1 fresh.2 = Some (Ok after_one_sweep)
  ∧ solver_wf after_one_sweep.1 after_one_sweep.2.
Proof.
  assert (run_returns (@policy_evaluation libm 1 one_sweep_theta fresh.1 fresh.2) = true)
    as Hb by (vm_compute; reflexivity).
  unfold after_one_sweep.
  destruct (@policy_evaluation_result libm 1 one_sweep_theta _ _ fresh_wf)
    as [Hnone|(self' & h' & Hrun & Hwf & _)].
  - rewrite Hnone in Hb. discriminate Hb.
  - rewrite Hrun. split; [reflexivity | exact Hwf].
Qed.

(** C1: the code differs. After [CarRental()], [policy_evaluation(theta=1e9)]
    and [policy_improvement()], the policy table holds -20 for the state with
    no car at the first location and twenty at the second: the search
    stores the first action enumerated, -20, whose backup is that of the
    clamped action -5, and no later action has a strictly greater one. *)
Theorem policy_entry_exceeds_max_move :
  @CarRental_init libm (Heap [] []) = Ok fresh
  ∧ ∃ w1 c w2,
      @policy_evaluation libm 1 one_sweep_theta fresh.1 fresh.2 = Some (Ok w1)
      ∧ @policy_improvement libm w1.1 w1.2 = Ok (c, w2)
      ∧ tget (ideref w2.2 (policy w2.1)) 0 20 = Ok (-20)
      ∧ MAX_MOVE < Z.abs (-20).
Proof.
  split; [exact fresh_init|].
  destruct after_one_sweep_run as [Hrun Hwf].
  destruct (@policy_improvement_spec libm _ _ Hwf)
    as (t & self2 & h2 & Hrun2 & Hsh & Hcells & _ & Ht & _).
  exists after_one_sweep. eexists _, (self2, h2).
  split; [exact Hrun|]. split; [exact Hrun2|]. split; [|unfold MAX_MOVE; lia].
  cbn [fst snd]. rewrite Ht.
  assert (in_range (0, 20)) as Hs by (unfold in_range, MAX_CARS; simpl; lia).
  apply (tget_cell_eq t (0, 20)); [exact Hsh | exact Hs |].
  rewrite (Hcells _ Hs). apply (f_equal Some).
  vm_compute. reflexivity.
Qed.

(** ** The transition tables are stochastic up to truncation *)

(** A finite binary64 number is an integer multiple of 2^-1074: the
    multiple. *)
Definition float_scaled (x : float) : option Z :=
  match Prim2SF x with
  | S754_zero _ => Some 0
  | S754_finite s m e =>
      if 0 <=? e + 1074
      then Some (Z.shiftl (if s then Z.neg m else Z.pos m) (e + 1074))
      else None
  | _ => None
  end.

(** The exact sum, a rational number, of the entries of a dictionary at a
    list of keys; [None] when a key is missing or an entry is not finite. *)
Definition exact_sum `{Countable K} (d : gmap K float) (keys : list K) : option Q :=
  total ← foldr (λ k acc, x ← d !! k; z ← float_scaled x; s ← acc; Some (z + s))
                (Some 0) keys;
  Some (Qmake total (Pos.shiftl 1 1074)).

Definition near_one (tolerance : Q) (sum : option Q) : Prop :=
  ∃ q, sum = Some q ∧ (Qabs (q - 1) <= tolerance)%Q.

Definition near_oneb (tolerance : Q) (sum : option Q) : bool :=
  match sum with
  | Some q => Qle_bool (Qabs (q - 1)) tolerance
  | None => false
  end.

(** The sum of the row of the morning inventory [n]. *)
Definition row_sum (P : gmap (Z * Z) float) (n : Z) : option Q :=
  exact_sum P ((λ n', (n, n')) <$> py_range 0 (MAX_CARS + 1)).

(** The sum of the cached Poisson masses of the rate [lam]. *)
Definition mass_sum (cache : gmap (Z * Z) float) (lam : Z) : option Q :=
  exact_sum cache ((λ k, (k, lam)) <$> model_range).

Definition rates : list Z :=
  [REQUEST_1_LAMBDA; DROPOFF_1_LAMBDA; REQUEST_2_LAMBDA; DROPOFF_B_LAMBDA].

Definition stochastic (self : CarRental) : Prop :=
  (∀ n, 0 ≤ n ≤ MAX_CARS + MAX_MOVE →
     near_one (1 # 10000) (row_sum (_probs_1 self) n)
     ∧ near_one (1 # 10000) (row_sum (_probs_2 self) n))
  ∧ (∀ lam, lam ∈ rates → near_one (1 # 1000000) (mass_sum (_poisson_prob self) lam)).

Definition stochasticb (self : CarRental) : bool :=
  forallb (λ n, near_oneb (1 # 10000) (row_sum (_probs_1 self) n)
                && near_oneb (1 # 10000) (row_sum (_probs_2 self) n)) model_range
  && forallb (λ lam, near_oneb (1 # 1000000) (mass_sum (_poisson_prob self) lam)) rates.

(** [reset] on a platform raises nothing and builds stochastic tables. *)
Definition builds_stochastic (pf : Platform) : Prop :=
  ∃ self h, @reset pf (Heap [] []) = Ok (self, h) ∧ stochastic self.

Definition builds_stochasticb (pf : Platform) : bool :=
  match @reset pf (Heap [] []) with
  | Ok w => stochasticb w.1
  | Raise _ => false
  end.

Lemma near_oneb_spec (tolerance : Q) (sum : option Q) :
  near_oneb tolerance sum = true → near_one tolerance sum.
Proof.
  destruct sum as [q|]; simpl; [|done]. intros Hq%Qle_bool_iff. by exists q.
Qed.

Lemma stochasticb_spec (self : CarRental) : stochasticb self = true → stochastic self.
Proof.
  unfold stochasticb, stochastic. intros [Hrows Hmass]%andb_true_iff.
  rewrite forallb_forall in Hrows. rewrite forallb_forall in Hmass. split.
  - intros n Hn%elem_of_model_range%list_elem_of_In.
    apply Hrows in Hn. apply andb_true_iff in Hn as [H1 H2].
    split; apply near_oneb_spec; [exact H1 | exact H2].
  - intros lam Hlam%list_elem_of_In. apply near_oneb_spec, Hmass, Hlam.
Qed.

Lemma builds_stochasticb_spec (pf : Platform) :
  builds_stochasticb pf = true → builds_stochastic pf.
Proof.
  unfold builds_stochasticb, builds_stochastic.
  destruct (@reset pf (Heap [] [])) as [[self h]|e]; [|discriminate].
  intros Hs%stochasticb_spec. exists self, h. split; [reflexivity | exact Hs].
Qed.

(** The binary64 numbers next to a given one, and the number itself. *)
Definition within_one_ulp (x : float) : list float :=
  [PrimFloat.next_down x; x; PrimFloat.next_up x].

(** C9. When [math.exp] returns, at -2, -3 and -4, a binary64 number within
    one unit in the last place of the correctly rounded value, and
    [math.pow] is exact on the integer arguments of the program, [reset]
    raises nothing and builds tables that are stochastic up to truncation:
    for every morning inventory in 0..25 the exact sum of the row of either
    transition table is within 1e-4 of 1, and for every rate the exact sum
    of the cached Poisson masses of the counts 0..25 is within 1e-6 of 1. *)
Theorem precompute_model_row_stochastic (e2 e3 e4 : float) :
  e2 ∈ within_one_ulp exp_m2 →
  e3 ∈ within_one_ulp exp_m3 →
  e4 ∈ within_one_ulp exp_m4 →
  builds_stochastic (ref_platform e2 e3 e4).
Proof.
  unfold within_one_ulp. rewrite !elem_of_cons, !elem_of_nil.
  intros [->|[->|[->|[]]]] [->|[->|[->|[]]]] [->|[->|[->|[]]]];
    apply builds_stochasticb_spec; vm_compute; reflexivity.
Qed.

Lemma precompute_model_row_stochastic_witness :
  builds_stochastic (ref_platform exp_m2 exp_m3 exp_m4).
Proof.
  apply (precompute_model_row_stochastic exp_m2 exp_m3 exp_m4);
    unfold within_one_ulp; apply list_elem_of_further, list_elem_of_here.
Defined.

(** * Further properties *)

(** ** Feasible actions *)

(** An action is feasible for a state when it moves at most [MAX_MOVE] cars
    and no more cars than the location they leave holds. *)
Definition feasible (s : state) (a : Z) : Prop :=
  Z.abs a ≤ MAX_MOVE ∧ - s.2 ≤ a ≤ s.1.

Lemma get_valid_action_idempotent (s : state) (a : Z) :
  get_valid_action s (get_valid_action s a) = get_valid_action s a.
Proof. destruct s as [n1 n2]. unfold get_valid_action, MAX_MOVE. lia. Qed.

Lemma get_valid_action_projects (s : state) (a : Z) :
  in_range s →
  feasible s (get_valid_action s a) ∧ (get_valid_action s a = a ↔ feasible s a).
Proof.
  destruct s as [n1 n2]. unfold in_range, feasible, get_valid_action, MAX_MOVE, MAX_CARS.
  simpl. lia.
Qed.

Lemma elem_of_get_available_actions (s : state) (a : Z) :
  a ∈ get_available_actions s ↔ (- MAX_CARS ≤ a ≤ MAX_CARS) ∧ (- s.2 ≤ a ≤ s.1).
Proof. unfold get_available_actions. rewrite elem_of_py_range. lia. Qed.

Lemma available_actions_sorted (s : state) : StronglySorted Z.lt (get_available_actions s).
Proof.
  unfold get_available_actions, py_range.
  generalize (Z.max (- MAX_CARS) (- s.2)) as lo.
  generalize (Z.min MAX_CARS s.1 + 1) as hi. intros hi lo.
  unfold seqZ. generalize (Z.to_nat (hi - lo)) as n. intros n.
  generalize 0%nat as k. induction n as [|n IH]; intros k; simpl; constructor.
  - apply IH.
  - apply Forall_fmap, Forall_forall. intros i Hi%elem_of_seq. simpl. lia.
Qed.

(** X1. [get_valid_action] is idempotent and monotone in the proposed
    action, for every state. *)
Theorem get_valid_action_idempotent_monotone (s : state) (a b : Z) :
  get_valid_action s (get_valid_action s a) = get_valid_action s a
  ∧ (a ≤ b → get_valid_action s a ≤ get_valid_action s b).
Proof.
  split; [apply get_valid_action_idempotent|].
  destruct s as [n1 n2]. unfold get_valid_action, MAX_MOVE. lia.
Qed.

(** X2. For a state in range [get_valid_action] returns the feasible action
    nearest to the proposed one; it returns the proposed action itself
    exactly when that action is feasible. *)
Theorem get_valid_action_nearest_feasible (s : state) (a : Z) :
  in_range s →
  feasible s (get_valid_action s a)
  ∧ (∀ b, feasible s b → Z.abs (get_valid_action s a - a) ≤ Z.abs (b - a))
  ∧ (get_valid_action s a = a ↔ feasible s a).
Proof.
  destruct s as [n1 n2]. unfold in_range, feasible, get_valid_action, MAX_MOVE, MAX_CARS.
  simpl. intros [H1 H2]. split; [lia|]. split; [intros b; lia | lia].
Qed.

Lemma get_valid_action_nearest_feasible_witness :
  feasible (2, 3) (get_valid_action (2, 3) 4)
  ∧ (∀ b, feasible (2, 3) b → Z.abs (get_valid_action (2, 3) 4 - 4) ≤ Z.abs (b - 4))
  ∧ (get_valid_action (2, 3) 4 = 4 ↔ feasible (2, 3) 4).
Proof.
  apply (get_valid_action_nearest_feasible (2, 3) 4).
  unfold in_range, MAX_CARS. simpl. lia.
Defined.

(** X3. [get_available_actions] lists, in strictly ascending order, exactly
    the integers between [-MAX_CARS] and [MAX_CARS] that move no more cars
    than the location they leave holds; for a state in range these are the
    [n1 + n2 + 1] integers from [-n2] to [n1], zero among them. *)
Theorem get_available_actions_spec (s : state) :
  (∀ a, a ∈ get_available_actions s
        ↔ (- MAX_CARS ≤ a ≤ MAX_CARS) ∧ (- s.2 ≤ a ≤ s.1))
  ∧ StronglySorted Z.lt (get_available_actions s)
  ∧ (in_range s →
       0 ∈ get_available_actions s
       ∧ Z.of_nat (length (get_available_actions s)) = s.1 + s.2 + 1).
Proof.
  split; [|split].
  - apply elem_of_get_available_actions.
  - apply available_actions_sorted.
  - intros [H1 H2]. unfold get_available_actions. rewrite elem_of_py_range.
    unfold py_range. rewrite length_seqZ. unfold MAX_CARS in *. lia.
Qed.

(** X4. The clamped available actions of a state in range are exactly its
    feasible actions: every feasible action is enumerated, and clamping an
    enumerated action gives a feasible one. *)
Theorem available_actions_cover_feasible (s : state) (a : Z) :
  in_range s →
  (feasible s a → a ∈ get_available_actions s)
  ∧ (a ∈ get_available_actions s → feasible s (get_valid_action s a))
  ∧ (feasible s a ↔ ∃ b, b ∈ get_available_actions s ∧ get_valid_action s b = a).
Proof.
  intros Hs.
  assert (∀ a, feasible s a → a ∈ get_available_actions s) as Hcover.
  { intros b [Hb1 Hb2]. apply elem_of_get_available_actions.
    destruct Hs. unfold MAX_MOVE, MAX_CARS in *. lia. }
  split; [apply Hcover|]. split.
  - intros _. apply (get_valid_action_projects s a Hs).
  - split.
    + intros Ha. exists a. split; [by apply Hcover|].
      by apply (get_valid_action_projects s a Hs).
    + intros (b & _ & <-). apply (get_valid_action_projects s b Hs).
Qed.

Lemma available_actions_cover_feasible_witness :
  (feasible (0, 20) (-5) → -5 ∈ get_available_actions (0, 20))
  ∧ (-5 ∈ get_available_actions (0, 20) → feasible (0, 20) (get_valid_action (0, 20) (-5)))
  ∧ (feasible (0, 20) (-5)
     ↔ ∃ b, b ∈ get_available_actions (0, 20) ∧ get_valid_action (0, 20) b = -5).
Proof.
  apply (available_actions_cover_feasible (0, 20) (-5)).
  unfold in_range, MAX_CARS. simpl. lia.
Defined.

(** X5. The backup of a proposed action is the backup of its clamped
    action, whatever the solver, the store and the state: actions that clamp
    to the same feasible action have the same backup. *)
Theorem bellman_expectation_clamps (self : CarRental) (h : heap) (s : state) (a b : Z) :
  bellman_expectation self h s a = bellman_expectation self h s (get_valid_action s a)
  ∧ (get_valid_action s a = get_valid_action s b →
     bellman_expectation self h s a = bellman_expectation self h s b).
Proof.
  assert (∀ a, bellman_expectation self h s a
               = bellman_expectation self h s (get_valid_action s a)) as Hc.
  { intros c. unfold bellman_expectation.
    by rewrite get_valid_action_idempotent. }
  split; [apply Hc|]. intros Heq. by rewrite (Hc a), (Hc b), Heq.
Qed.

(** ** The memoised Poisson probabilities *)

Section Poisson.
Context `{Platform}.

(** The probability as the method computes it on a cache miss. *)
Definition poisson_value (n lam : Z) : result float :=
  e ← math_exp (- lam);
  p ← math_pow lam n;
  f ← math_factorial n;
  d ← float_of_int f;
  Ok (e * (p / d))%float.

(** What a call returns: the cached entry, or else the computed value. *)
Definition cached_value (cache : gmap (Z * Z) float) (n lam : Z) : result float :=
  match cache !! (n, lam) with
  | Some v => Ok v
  | None => poisson_value n lam
  end.

Lemma poisson_probability_cached_value (cache : gmap (Z * Z) float) (n lam : Z) :
  poisson_probability cache n lam
  = v ← cached_value cache n lam; Ok (v, <[(n, lam) := v]> cache).
Proof.
  unfold poisson_probability, cached_value, poisson_value, dict_get.
  destruct (cache !! (n, lam)) as [v|] eqn:E; simpl.
  - rewrite E. by rewrite insert_id.
  - destruct (math_exp (- lam)) as [e|]; simpl; [|done].
    destruct (math_pow lam n) as [p|]; simpl; [|done].
    destruct (math_factorial n) as [f|]; simpl; [|done].
    destruct (float_of_int f) as [d|]; simpl; [|done].
    by rewrite lookup_insert_eq.
Qed.

Lemma poisson_probability_Ok (cache cache' : gmap (Z * Z) float) (n lam : Z) (v : float) :
  poisson_probability cache n lam = Ok (v, cache') ↔
  cached_value cache n lam = Ok v ∧ cache' = <[(n, lam) := v]> cache.
Proof.
  rewrite poisson_probability_cached_value.
  destruct (cached_value cache n lam) as [w|e]; simpl; split.
  - by intros [= -> ->].
  - by intros [[= ->] ->].
  - done.
  - by intros [? _].
Qed.

(** X6. Memoisation: a call of [poisson_probability] that returns leaves its
    value in the cache under the key [(n, lam)] and changes no other entry;
    when the key was cached already the cache is unchanged and the cached
    entry is returned; and a repeated call returns the same value and the
    same cache. *)
Theorem poisson_probability_memoises (cache cache' : gmap (Z * Z) float) (n lam : Z)
    (v : float) :
  poisson_probability cache n lam = Ok (v, cache') →
  cache' !! (n, lam) = Some v
  ∧ (∀ k, k ≠ (n, lam) → cache' !! k = cache !! k)
  ∧ (∀ v0, cache !! (n, lam) = Some v0 → v = v0 ∧ cache' = cache)
  ∧ poisson_probability cache' n lam = Ok (v, cache').
Proof.
  intros [Hv ->]%poisson_probability_Ok. split; [apply lookup_insert_eq|]. split.
  { intros k Hk. by rewrite lookup_insert_ne. }
  split.
  { intros v0 Hv0. unfold cached_value in Hv. rewrite Hv0 in Hv. injection Hv as <-.
    split; [done|]. by apply insert_id. }
  apply poisson_probability_Ok. unfold cached_value. rewrite lookup_insert_eq.
  split; [done|]. by rewrite insert_insert_eq.
Qed.

(** X7. A negative count is rejected: unless the key is in the cache,
    [poisson_probability] returns no probability for [n < 0], and it raises
    [ValueError], from [math.factorial], when [math.exp] and [math.pow]
    return. *)
Theorem poisson_probability_negative_count (cache : gmap (Z * Z) float) (n lam : Z) :
  n < 0 → cache !! (n, lam) = None →
  (∃ e, poisson_probability cache n lam = Raise e)
  ∧ (∀ x p, math_exp (- lam) = Ok x → math_pow lam n = Ok p →
       poisson_probability cache n lam = Raise ValueError).
Proof.
  intros Hn Hc. rewrite poisson_probability_cached_value.
  unfold cached_value, poisson_value. rewrite Hc.
  assert (math_factorial n = Raise ValueError) as Hf.
  { unfold math_factorial. by destruct (Z.ltb_spec n 0); [|lia]. }
  split.
  - destruct (math_exp (- lam)) as [x|e]; simpl; [|by eexists].
    destruct (math_pow lam n) as [p|e]; simpl; [|by eexists].
    rewrite Hf. by eexists.
  - intros x p -> ->. simpl. by rewrite Hf.
Qed.
End Poisson.

(** The cache after the first probability has been asked for. *)
Definition one_entry : gmap (Z * Z) float := {[ (0, 3) := exp_m3 ]}.

Lemma poisson_probability_memoises_witness :
  one_entry !! (0, 3) = Some exp_m3
  ∧ (∀ k, k ≠ (0, 3) → one_entry !! k = (∅ : gmap (Z * Z) float) !! k)
  ∧ (∀ v0, (∅ : gmap (Z * Z) float) !! (0, 3) = Some v0 → exp_m3 = v0 ∧ one_entry = ∅)
  ∧ @poisson_probability libm one_entry 0 3 = Ok (exp_m3, one_entry).
Proof.
  apply (@poisson_probability_memoises libm ∅ one_entry 0 3 exp_m3).
  vm_compute. reflexivity.
Defined.

(** A platform on which [math.pow] also returns at the negative exponent of
    the call below: [math.pow(3, -1)] is [0.3333333333333333]. *)
Definition libm_reciprocal : Platform := {|
  math_exp := @math_exp libm;
  math_pow a b :=
    if decide (a = 3 ∧ b = -1) then Ok 0x1.5555555555555p-2%float
    else @math_pow libm a b;
  uninit_float := 0%float;
  uninit_int := 0;
|}.

Lemma poisson_probability_negative_count_witness :
  @math_exp libm_reciprocal (- 3) = Ok exp_m3
  ∧ @math_pow libm_reciprocal 3 (-1) = Ok 0x1.5555555555555p-2%float
  ∧ (∃ e, @poisson_probability libm_reciprocal ∅ (-1) 3 = Raise e)
  ∧ @poisson_probability libm_reciprocal ∅ (-1) 3 = Raise ValueError.
Proof.
  split; [reflexivity|]. split; [reflexivity|].
  destruct (@poisson_probability_negative_count libm_reciprocal ∅ (-1) 3) as [Hraise Herr];
    [lia | reflexivity |].
  split; [exact Hraise|].
  exact (Herr exp_m3 0x1.5555555555555p-2%float eq_refl eq_refl).
Defined.

(** ** The cache during [precompute_model] *)

(** Two calls agree when both return the same value or raise the same
    exception. *)
Definition result_rel {A B} (R : A → B → Prop) (r1 : result A) (r2 : result B) : Prop :=
  match r1, r2 with
  | Ok a, Ok b => R a b
  | Raise e1, Raise e2 => e1 = e2
  | _, _ => False
  end.

Lemma result_rel_eq {A} (r1 r2 : result A) : result_rel eq r1 r2 ↔ r1 = r2.
Proof. destruct r1, r2; simpl; split; (congruence || done). Qed.

Lemma result_rel_bind {A1 A2 B1 B2} (RA : A1 → A2 → Prop) (RB : B1 → B2 → Prop)
    (r1 : result A1) (r2 : result A2) (f1 : A1 → result B1) (f2 : A2 → result B2) :
  result_rel RA r1 r2 →
  (∀ a1 a2, RA a1 a2 → result_rel RB (f1 a1) (f2 a2)) →
  result_rel RB (r1 ≫= f1) (r2 ≫= f2).
Proof. destruct r1, r2; simpl; try done. intros Ha Hf. by apply Hf. Qed.

Lemma for_each_rel {A S1 S2} (R : S1 → S2 → Prop) (xs : list A)
    (body1 : A → S1 → result S1) (body2 : A → S2 → result S2) (s1 : S1) (s2 : S2) :
  (∀ x s1 s2, x ∈ xs → R s1 s2 → result_rel R (body1 x s1) (body2 x s2)) →
  R s1 s2 → result_rel R (for_each xs body1 s1) (for_each xs body2 s2).
Proof.
  revert s1 s2. induction xs as [|x xs IH]; intros s1 s2 Hbody Hs; simpl; [done|].
  apply (result_rel_bind R); [apply Hbody; [by left|done]|].
  intros t1 t2 Ht. apply IH; [|done]. intros y u1 u2 Hy. apply Hbody. by right.
Qed.

Section Cache.
Context `{Platform}.

(** Caching a value that a call returned changes no later answer. *)
Lemma cached_value_insert (cache : gmap (Z * Z) float) (n lam : Z) (v : float) :
  cached_value cache n lam = Ok v →
  ∀ n' lam', cached_value (<[(n, lam) := v]> cache) n' lam' = cached_value cache n' lam'.
Proof.
  intros Hv n' lam'. unfold cached_value at 1.
  destruct (decide ((n, lam) = (n', lam'))) as [[= <- <-]|Hne].
  - by rewrite lookup_insert_eq.
  - by rewrite lookup_insert_ne.
Qed.

Lemma poisson_probability_answers (cache cache' : gmap (Z * Z) float) (n lam : Z)
    (v : float) :
  poisson_probability cache n lam = Ok (v, cache') →
  ∀ n' lam', cached_value cache' n' lam' = cached_value cache n' lam'.
Proof. intros [Hv ->]%poisson_probability_Ok. by apply cached_value_insert. Qed.

Lemma precompute_model_answers (cache : gmap (Z * Z) float) (lr ld : Z) (b : building) :
  precompute_model cache lr ld = Ok b →
  ∀ n lam, cached_value (b_cache b) n lam = cached_value cache n lam.
Proof.
  intros Hrun. unfold precompute_model in Hrun.
  refine (for_each_invariant
            (λ b, ∀ n lam, cached_value (b_cache b) n lam = cached_value cache n lam)
            _ _ _ _ _ _ Hrun); [|done].
  clear. intros requests b b' _ Hb Hbody.
  apply bind_Ok in Hbody as ([rp c] & Hp & Hbody).
  apply bind_Ok in Hbody as (R & _ & Hbody).
  refine (for_each_invariant
            (λ b, ∀ n lam, cached_value (b_cache b) n lam = cached_value cache n lam)
            _ _ _ _ _ _ Hbody).
  - clear. intros dropoffs b1 b2 _ Hb1 Hd.
    apply bind_Ok in Hd as ([dp c] & Hp & Hd).
    apply bind_Ok in Hd as (P & _ & [= <-]). cbn [b_cache].
    intros n lam. by rewrite (poisson_probability_answers _ _ _ _ _ Hp).
  - cbn [b_cache]. intros n lam. by rewrite (poisson_probability_answers _ _ _ _ _ Hp).
Qed.

Lemma poisson_probability_keys (cache cache' : gmap (Z * Z) float) (n lam : Z)
    (v : float) :
  poisson_probability cache n lam = Ok (v, cache') →
  ∀ k, is_Some (cache' !! k) ↔ is_Some (cache !! k) ∨ k = (n, lam).
Proof. intros [_ ->]%poisson_probability_Ok k. apply insert_adds_key. Qed.

Lemma precompute_model_cache_keys (cache : gmap (Z * Z) float) (lr ld : Z) (b : building) :
  precompute_model cache lr ld = Ok b →
  ∀ k, is_Some (b_cache b !! k)
       ↔ is_Some (cache !! k)
         ∨ ∃ n, n ∈ model_range ∧ (k = (n, lr) ∨ k = (n, ld)).
Proof.
  intros Hrun k. unfold precompute_model in Hrun.
  etrans; [eapply (for_each_keys b_cache
             (λ requests k, k = (requests, lr) ∨ ∃ d, d ∈ model_range ∧ k = (d, ld)));
           [|exact Hrun]|].
  - clear. intros requests b b' _ Hbody k.
    apply bind_Ok in Hbody as ([rp c] & Hp & Hbody).
    apply bind_Ok in Hbody as (R & _ & Hbody).
    etrans; [eapply (for_each_keys b_cache (λ dropoffs k, k = (dropoffs, ld)));
             [|exact Hbody]|].
    + clear. intros dropoffs b1 b2 _ Hd k.
      apply bind_Ok in Hd as ([dp c] & Hp & Hd).
      apply bind_Ok in Hd as (P & _ & [= <-]). cbn [b_cache].
      apply (poisson_probability_keys _ _ _ _ _ Hp).
    + cbn [b_cache]. rewrite (poisson_probability_keys _ _ _ _ _ Hp k).
      split.
      * intros [[?|?]|(d & ? & ?)]; [by left|right; by left|right; right; by exists d].
      * intros [?|[?|(d & ? & ?)]]; [by left; left|by left; right|right; by exists d].
  - cbn [b_cache]. split.
    + intros [?|(r & Hr & [-> | (d & Hd & ->)])]; [by left|right..].
      * exists r. split; [done|by left].
      * exists d. split; [done|by right].
    + intros [?|(n & Hn & [-> | ->])]; [by left|right..].
      * exists n. split; [done|by left].
      * exists n. split; [done|]. right. by exists n.
Qed.
End Cache.

(** ** The tables do not depend on what is cached *)

(** Two caches, each on its platform, answer alike for the rates [lr] and
    [ld] on the counts of the model. *)
Definition answer_alike (pf1 pf2 : Platform) (lr ld : Z)
    (c1 c2 : gmap (Z * Z) float) : Prop :=
  ∀ n lam, n ∈ model_range → lam = lr ∨ lam = ld →
    @cached_value pf1 c1 n lam = @cached_value pf2 c2 n lam.

Definition build_alike (pf1 pf2 : Platform) (lr ld : Z) (b1 b2 : building) : Prop :=
  b_P b1 = b_P b2 ∧ b_R b1 = b_R b2 ∧ answer_alike pf1 pf2 lr ld (b_cache b1) (b_cache b2).

Lemma poisson_probability_alike (pf1 pf2 : Platform) (lr ld : Z)
    (c1 c2 : gmap (Z * Z) float) (n lam : Z) :
  answer_alike pf1 pf2 lr ld c1 c2 → n ∈ model_range → lam = lr ∨ lam = ld →
  result_rel (λ x y, x.1 = y.1 ∧ answer_alike pf1 pf2 lr ld x.2 y.2)
    (@poisson_probability pf1 c1 n lam) (@poisson_probability pf2 c2 n lam).
Proof.
  intros Hc Hn Hlam. rewrite !poisson_probability_cached_value.
  pose proof (Hc n lam Hn Hlam) as Hv.
  destruct (@cached_value pf1 c1 n lam) as [v|e] eqn:E1;
    destruct (@cached_value pf2 c2 n lam) as [w|e'] eqn:E2; try done.
  - injection Hv as <-. simpl. split; [done|].
    intros n' lam' Hn' Hlam'.
    rewrite (@cached_value_insert pf1 _ _ _ _ E1), (@cached_value_insert pf2 _ _ _ _ E2).
    by apply Hc.
  - simpl. congruence.
Qed.

Lemma precompute_model_alike (pf1 pf2 : Platform) (lr ld : Z)
    (c1 c2 : gmap (Z * Z) float) :
  answer_alike pf1 pf2 lr ld c1 c2 →
  result_rel (build_alike pf1 pf2 lr ld)
    (@precompute_model pf1 c1 lr ld) (@precompute_model pf2 c2 lr ld).
Proof.
  intros Hc. unfold precompute_model.
  apply (for_each_rel (build_alike pf1 pf2 lr ld)); [|done].
  intros requests b1 b2 Hr (HP & HR & Hcache).
  apply (result_rel_bind (λ x y, x.1 = y.1 ∧ answer_alike pf1 pf2 lr ld x.2 y.2)).
  { apply poisson_probability_alike; [done..|by left]. }
  intros [rp k1] [rp' k2] [Hrp Hk]. simpl in Hrp, Hk. subst rp'. rewrite HR.
  apply (result_rel_bind eq); [by apply result_rel_eq|].
  intros R ? <-.
  apply (for_each_rel (build_alike pf1 pf2 lr ld)); [|by rewrite HP].
  clear -Hr. intros dropoffs b1 b2 Hd (HP & HR & Hcache).
  apply (result_rel_bind (λ x y, x.1 = y.1 ∧ answer_alike pf1 pf2 lr ld x.2 y.2)).
  { apply poisson_probability_alike; [done..|by right]. }
  intros [dp k1] [dp' k2] [Hdp Hk]. simpl in Hdp, Hk. subst dp'. rewrite HP.
  apply (result_rel_bind eq); [by apply result_rel_eq|].
  intros P ? <-. simpl. by rewrite HR.
Qed.

(** The tables, without the cache. *)
Definition tables (r : result building)
  : result (gmap (Z * Z) float * gmap Z float) :=
  b ← r; Ok (b_P b, b_R b).

Lemma precompute_model_tables_alike (pf1 pf2 : Platform) (lr ld : Z)
    (c1 c2 : gmap (Z * Z) float) :
  answer_alike pf1 pf2 lr ld c1 c2 →
  tables (@precompute_model pf1 c1 lr ld) = tables (@precompute_model pf2 c2 lr ld).
Proof.
  intros Hc. pose proof (precompute_model_alike pf1 pf2 lr ld c1 c2 Hc) as Hrel.
  unfold tables.
  destruct (@precompute_model pf1 c1 lr ld) as [b1|e1],
           (@precompute_model pf2 c2 lr ld) as [b2|e2]; simpl in *; try done.
  - destruct Hrel as (-> & -> & _). done.
  - by subst.
Qed.

Section Transparency.
Context `{Platform}.

(** A cache is coherent when each entry is the value the method computes. *)
Definition coherent (cache : gmap (Z * Z) float) : Prop :=
  ∀ n lam v, cache !! (n, lam) = Some v → poisson_value n lam = Ok v.

Lemma coherent_cached_value (cache : gmap (Z * Z) float) (n lam : Z) :
  coherent cache → cached_value cache n lam = poisson_value n lam.
Proof.
  intros Hc. unfold cached_value. destruct (cache !! (n, lam)) as [v|] eqn:E; [|done].
  symmetry. by apply Hc.
Qed.

Lemma coherent_empty : coherent ∅.
Proof. intros n lam v. by rewrite lookup_empty. Qed.

Lemma precompute_model_coherent (cache : gmap (Z * Z) float) (lr ld : Z) (b : building) :
  coherent cache → precompute_model cache lr ld = Ok b → coherent (b_cache b).
Proof.
  intros Hc Hrun n lam v Hv.
  pose proof (precompute_model_answers cache lr ld b Hrun n lam) as Ha.
  rewrite (coherent_cached_value cache n lam Hc) in Ha. rewrite <-Ha.
  unfold cached_value. by rewrite Hv.
Qed.

(** X8. The memoisation is transparent: started from a coherent cache,
    [precompute_model] returns the tables, or raises the exception, that it
    returns or raises when started from the empty cache; and the cache it
    leaves is coherent again. *)
Theorem precompute_model_cache_transparent (cache : gmap (Z * Z) float) (lr ld : Z) :
  coherent cache →
  tables (precompute_model cache lr ld) = tables (precompute_model ∅ lr ld)
  ∧ ∀ b, precompute_model cache lr ld = Ok b → coherent (b_cache b).
Proof.
  intros Hc. split.
  - apply precompute_model_tables_alike. intros n lam _ _.
    by rewrite (coherent_cached_value cache n lam Hc),
               (coherent_cached_value ∅ n lam coherent_empty).
  - intros b. by apply precompute_model_coherent.
Qed.

(** X9. When [precompute_model] returns, the reward table has exactly the
    keys 0..25 and the transition table exactly the keys (n, n') with n in
    0..25 and n' in 0..20; the cache keeps every entry it had and has
    gained exactly the keys (k, lambda) with k in 0..25 and lambda one of
    the two rates. *)
Theorem precompute_model_domains (cache : gmap (Z * Z) float) (lr ld : Z) (b : building) :
  precompute_model cache lr ld = Ok b →
  (∀ n, is_Some (b_R b !! n) ↔ 0 ≤ n ≤ MAX_CARS + MAX_MOVE)
  ∧ (∀ n n', is_Some (b_P b !! (n, n'))
             ↔ 0 ≤ n ≤ MAX_CARS + MAX_MOVE ∧ 0 ≤ n' ≤ MAX_CARS)
  ∧ (∀ k lam, is_Some (b_cache b !! (k, lam))
              ↔ is_Some (cache !! (k, lam))
                ∨ (0 ≤ k ≤ MAX_CARS + MAX_MOVE ∧ (lam = lr ∨ lam = ld)))
  ∧ (∀ k v, cache !! k = Some v → b_cache b !! k = Some v).
Proof.
  intros Hrun. destruct (precompute_model_keys cache lr ld b Hrun) as [HR HP].
  split; [done|]. split; [done|].
  assert (∀ k lam, is_Some (b_cache b !! (k, lam))
              ↔ is_Some (cache !! (k, lam))
                ∨ (0 ≤ k ≤ MAX_CARS + MAX_MOVE ∧ (lam = lr ∨ lam = ld))) as Hkeys.
  { intros k lam. rewrite (precompute_model_cache_keys cache lr ld b Hrun).
    split; (intros [?|Hk]; [by left|right]).
    - destruct Hk as (n & Hn%elem_of_model_range & [[= -> ->]|[= -> ->]]); auto.
    - destruct Hk as [Hk Hlam]. exists k. split; [by apply elem_of_model_range|].
      destruct Hlam as [->| ->]; auto. }
  split; [done|].
  intros [k lam] v Hv.
  destruct (proj2 (Hkeys k lam)) as [w Hw]; [left; by eexists|].
  pose proof (precompute_model_answers cache lr ld b Hrun k lam) as Ha.
  unfold cached_value in Ha. rewrite Hv, Hw in Ha. by injection Ha as ->.
Qed.
End Transparency.

(** The first model of a fresh solver, with the cache its construction
    leaves. *)
Definition first_model : building :=
  unwrap (Building ∅ ∅ ∅) (@precompute_model libm ∅ REQUEST_1_LAMBDA DROPOFF_1_LAMBDA).

Lemma first_model_run :
  @precompute_model libm ∅ REQUEST_1_LAMBDA DROPOFF_1_LAMBDA = Ok first_model.
Proof.
  assert (result_ok (@precompute_model libm ∅ REQUEST_1_LAMBDA DROPOFF_1_LAMBDA) = true)
    as Hok by (vm_compute; reflexivity).
  unfold first_model, unwrap. by destruct (precompute_model _ _ _).
Qed.

Lemma precompute_model_cache_transparent_witness :
  tables (@precompute_model libm (b_cache first_model) REQUEST_2_LAMBDA DROPOFF_B_LAMBDA)
  = tables (@precompute_model libm ∅ REQUEST_2_LAMBDA DROPOFF_B_LAMBDA)
  ∧ ∀ b, @precompute_model libm (b_cache first_model) REQUEST_2_LAMBDA DROPOFF_B_LAMBDA
         = Ok b → @coherent libm (b_cache b).
Proof.
  apply (@precompute_model_cache_transparent libm).
  apply (@precompute_model_coherent libm ∅ REQUEST_1_LAMBDA DROPOFF_1_LAMBDA).
  - apply coherent_empty.
  - exact first_model_run.
Defined.

Lemma precompute_model_domains_witness :
  (∀ n, is_Some (b_R first_model !! n) ↔ 0 ≤ n ≤ MAX_CARS + MAX_MOVE)
  ∧ (∀ n n', is_Some (b_P first_model !! (n, n'))
             ↔ 0 ≤ n ≤ MAX_CARS + MAX_MOVE ∧ 0 ≤ n' ≤ MAX_CARS)
  ∧ (∀ k lam, is_Some (b_cache first_model !! (k, lam))
              ↔ is_Some ((∅ : gmap (Z * Z) float) !! (k, lam))
                ∨ (0 ≤ k ≤ MAX_CARS + MAX_MOVE
                   ∧ (lam = REQUEST_1_LAMBDA ∨ lam = DROPOFF_1_LAMBDA)))
  ∧ (∀ k v, (∅ : gmap (Z * Z) float) !! k = Some v → b_cache first_model !! k = Some v).
Proof.
  apply (@precompute_model_domains libm ∅ REQUEST_1_LAMBDA DROPOFF_1_LAMBDA first_model).
  exact first_model_run.
Defined.

(** ** The order of binary64 numbers *)

(** A key of a number that is not a NaN: the numbers compare as their keys
    do, lexicographically. The two zeros have the same key. *)
Definition float_key (x : float) : option (Z * Z * Z) :=
  match Prim2SF x with
  | S754_nan => None
  | S754_zero _ => Some (0, 0, 0)
  | S754_infinity s => Some (if s then -2 else 2, 0, 0)
  | S754_finite s m e => Some (if s then (-1, - e, Z.neg m) else (1, e, Z.pos m))
  end.

Definition key_lt (k1 k2 : Z * Z * Z) : Prop :=
  k1.1.1 < k2.1.1
  ∨ (k1.1.1 = k2.1.1 ∧ (k1.1.2 < k2.1.2 ∨ (k1.1.2 = k2.1.2 ∧ k1.2 < k2.2))).

Ltac key_lt_holds :=
  split; [intros _; eexists _, _; split; [reflexivity|]; split; [reflexivity|];
          simpl; lia
         | intros _; reflexivity].

Ltac key_lt_fails :=
  split; [discriminate
         | intros (k1 & k2 & Hk1 & Hk2 & Hlt); try discriminate;
           injection Hk1 as <-; injection Hk2 as <-; simpl in Hlt; lia].

Lemma ltb_key (x y : float) :
  (x <? y)%float = true
  ↔ ∃ k1 k2, float_key x = Some k1 ∧ float_key y = Some k2 ∧ key_lt k1 k2.
Proof.
  rewrite FloatAxioms.ltb_spec. unfold float_key, SFltb, SFcompare, key_lt.
  destruct (Prim2SF x) as [[]|[]| |[] m1 e1], (Prim2SF y) as [[]|[]| |[] m2 e2];
    try change (PosDef.Pos.compare_cont Eq m1 m2) with (Pos.compare m1 m2);
    try destruct (Z.compare_spec e1 e2);
    try destruct (Pos.compare_spec m1 m2);
    simpl; first [key_lt_holds | key_lt_fails].
Qed.

Lemma ltb_false_key (x y : float) (k1 k2 : Z * Z * Z) :
  float_key x = Some k1 → float_key y = Some k2 →
  (x <? y)%float = false ↔ ¬ key_lt k1 k2.
Proof.
  intros H1 H2. rewrite <-not_true_iff_false, ltb_key. split.
  - intros Hno Hlt. apply Hno. by exists k1, k2.
  - intros Hno (k1' & k2' & H1' & H2' & Hlt). congruence.
Qed.

Lemma ltb_irreflexive (x : float) : (x <? x)%float = false.
Proof.
  apply not_true_iff_false. intros (k1 & k2 & H1 & H2 & Hlt)%ltb_key.
  assert (k1 = k2) as -> by congruence. unfold key_lt in Hlt. lia.
Qed.

Lemma ltb_transitive (x y z : float) :
  (x <? y)%float = true → (y <? z)%float = true → (x <? z)%float = true.
Proof.
  intros (k1 & k2 & H1 & H2 & Hlt)%ltb_key (k2' & k3 & H2' & H3 & Hlt')%ltb_key.
  assert (k2' = k2) as -> by congruence.
  apply ltb_key. exists k1, k3. split; [done|]. split; [done|].
  unfold key_lt in *. lia.
Qed.

(** A value that nothing seen so far exceeds stays so when a greater value
    replaces it. *)
Lemma ltb_false_transitive (x y z : float) :
  (x <? z)%float = false → (x <? y)%float = true → (y <? z)%float = false.
Proof.
  intros Hxz Hxy. apply not_true_iff_false. intros Hyz.
  by rewrite (ltb_transitive x y z Hxy Hyz) in Hxz.
Qed.

(** A number below a threshold is negative, or the threshold is positive. *)
Lemma ltb_zero_between (d theta : float) :
  (d <? theta)%float = true → (d <? 0)%float = true ∨ (0 <? theta)%float = true.
Proof.
  intros (k1 & k2 & H1 & H2 & Hlt)%ltb_key.
  assert (float_key 0%float = Some (0, 0, 0)) as H0 by reflexivity.
  destruct (decide (key_lt k1 (0, 0, 0))) as [Hneg|Hnn].
  - left. apply ltb_key. by exists k1, (0, 0, 0).
  - right. apply ltb_key. exists (0, 0, 0), k2. split; [done|]. split; [done|].
    unfold key_lt in *. simpl in *. lia.
Qed.

Lemma is_nan_key (x : float) : PrimFloat.is_nan x = true ↔ float_key x = None.
Proof.
  unfold PrimFloat.is_nan, float_key. rewrite FloatAxioms.eqb_spec. unfold SFeqb, SFcompare.
  destruct (Prim2SF x) as [[]|[]| |[] m e]; simpl; try done;
    rewrite Z.compare_refl;
    change (PosDef.Pos.compare_cont Eq m m) with (Pos.compare m m);
    by rewrite Pos.compare_refl.
Qed.

(** A value that the best value so far is not below, while a later value is
    above the best: unless it is a NaN, it is below the later value. *)
Lemma ltb_passed_over (b va v : float) :
  (b <? va)%float = false → (b <? v)%float = true →
  (va <? v)%float = true ∨ PrimFloat.is_nan va = true.
Proof.
  intros Hbva (kb & kv & Hb & Hv & Hlt)%ltb_key.
  destruct (float_key va) as [ka|] eqn:Ha; [|right; by apply is_nan_key].
  left. apply (ltb_false_key b va kb ka Hb Ha) in Hbva.
  apply ltb_key. exists ka, kv. split; [done|]. split; [done|].
  unfold key_lt in *. lia.
Qed.

(** ** Policy evaluation needs a positive threshold *)

Section Threshold.
Context `{Platform}.

Lemma evaluation_loop_no_return (fuel : nat) (theta : float) (st : eval_state) :
  (0 <? theta)%float = false → eval_inv st →
  py_while fuel (λ _, true) (λ st, Some (evaluation_round theta st)) st = None.
Proof.
  intros Htheta. revert st. induction fuel as [|fuel IH]; intros st Hinv; simpl; [done|].
  destruct (evaluation_round_spec theta st Hinv)
    as (t & delta & st1 & -> & Hdelta & Hinv1 & _).
  destruct (delta <? theta)%float eqn:Hlt; [|by apply IH].
  destruct (ltb_zero_between delta theta Hlt); congruence.
Qed.

(** X10. [policy_evaluation] returns only for a positive threshold: when
    [0 < theta] does not hold (theta is zero, negative or a NaN), a call on a
    well-formed solver is still running after any number of sweeps, and it
    raises nothing. *)
Theorem policy_evaluation_needs_positive_theta (self : CarRental) (h : heap)
    (theta : float) (fuel : nat) :
  solver_wf self h → (0 <? theta)%float = false →
  policy_evaluation fuel theta self h = None.
Proof.
  intros Hwf Htheta. rewrite policy_evaluation_unfold.
  by rewrite (evaluation_loop_no_return fuel theta _ Htheta (evaluation_entry_inv self h Hwf)).
Qed.
End Threshold.

Lemma policy_evaluation_needs_positive_theta_witness :
  @policy_evaluation libm 1000 nan fresh.1 fresh.2 = None.
Proof.
  apply (@policy_evaluation_needs_positive_theta libm fresh.1 fresh.2 nan 1000%nat).
  - exact fresh_wf.
  - reflexivity.
Defined.

(** ** Policy improvement is greedy *)

(** The loop of the search, over any values [f] and any list of actions. *)
Definition search (f : Z → float) (l : list Z) (best : float * Z) : float * Z :=
  fold_left (λ best a, if (best.1 <? f a)%float then (f a, a) else best) l best.

Lemma search_cons (f : Z → float) (a : Z) (l : list Z) (bv : float) (ba : Z) :
  search f (a :: l) (bv, ba)
  = search f l (if (bv <? f a)%float then (f a, a) else (bv, ba)).
Proof. done. Qed.

Lemma search_result (f : Z → float) (l : list Z) (bv0 : float) (ba0 : Z) :
  ((bv0 <? (search f l (bv0, ba0)).1)%float = true ∨ search f l (bv0, ba0) = (bv0, ba0))
  ∧ (∀ a, a ∈ l → ((search f l (bv0, ba0)).1 <? f a)%float = false)
  ∧ (search f l (bv0, ba0) = (bv0, ba0)
     ∨ ∃ l1 l2, l = l1 ++ (search f l (bv0, ba0)).2 :: l2
         ∧ (search f l (bv0, ba0)).1 = f (search f l (bv0, ba0)).2
         ∧ (bv0 <? f (search f l (bv0, ba0)).2)%float = true
         ∧ ∀ a, a ∈ l1 →
             (f a <? f (search f l (bv0, ba0)).2)%float = true
             ∨ PrimFloat.is_nan (f a) = true).
Proof.
  revert bv0 ba0. induction l as [|a l IH]; intros bv0 ba0.
  { simpl. split; [by right|]. split; [by intros a []%elem_of_nil | by left]. }
  rewrite search_cons. destruct (bv0 <? f a)%float eqn:Hlt.
  - destruct (IH (f a) a) as (Hup & Hall & Hwho).
    set (r := search f l (f a, a)) in *.
    split; [|split].
    + left. destruct Hup as [Hup| ->]; [by eapply ltb_transitive | done].
    + intros a' [->|Ha']%elem_of_cons; [|by apply Hall].
      destruct Hup as [Hup| ->]; [|apply ltb_irreflexive].
      apply not_true_iff_false. intros Hback.
      pose proof (ltb_transitive _ _ _ Hup Hback) as Hself.
      by rewrite ltb_irreflexive in Hself.
    + right. destruct Hwho as [Hr|(l1 & l2 & Hl & Hv & Hgt & Hbefore)].
      * exists [], l. rewrite Hr. cbn [fst snd app]. split; [done|]. split; [done|].
        split; [done|]. by intros a' []%elem_of_nil.
      * exists (a :: l1), l2. split; [by rewrite Hl at 1|]. split; [done|].
        split; [by eapply ltb_transitive|].
        intros a' [->|Ha']%elem_of_cons; [by left | by apply Hbefore].
  - destruct (IH bv0 ba0) as (Hup & Hall & Hwho).
    set (r := search f l (bv0, ba0)) in *.
    split; [done|]. split.
    + intros a' [->|Ha']%elem_of_cons; [|by apply Hall].
      destruct Hup as [Hup| ->]; [|done]. by eapply ltb_false_transitive.
    + destruct Hwho as [Hr|(l1 & l2 & Hl & Hv & Hgt & Hbefore)]; [by left|].
      right. exists (a :: l1), l2. split; [by rewrite Hl at 1|]. split; [done|].
      split; [done|].
      intros a' [->|Ha']%elem_of_cons; [|by apply Hbefore].
      by eapply ltb_passed_over.
Qed.

Lemma greedy_search_fold (self : CarRental) (V : table float) (s : state) (old : Z) :
  greedy self V s old
  = search (backup self V s) (get_available_actions s) (neg_infinity, old).
Proof. done. Qed.

(** In a strictly ascending list the elements before an element are the
    smaller ones. *)
Lemma sorted_before (l1 l2 : list Z) (x a : Z) :
  StronglySorted Z.lt (l1 ++ x :: l2) → a ∈ l1 ++ x :: l2 → a < x → a ∈ l1.
Proof.
  intros Hs Ha Hlt. apply elem_of_app in Ha as [?|Ha]; [done|].
  apply StronglySorted_app_1_r in Hs. apply StronglySorted_inv in Hs as [_ Hall].
  apply elem_of_cons in Ha as [->|Ha]; [lia|].
  eapply Forall_forall in Hall; [|done]. lia.
Qed.

(** The components of the value of a call that raises nothing. *)
Lemma unwrap_Ok_triple {A B C} (d : A * (B * C)) (r : result (A * (B * C)))
    (x : A * (B * C)) :
  r = Ok x → r = Ok ((unwrap d r).1, ((unwrap d r).2.1, (unwrap d r).2.2)).
Proof. intros ->. by destruct x as [a [b c]]. Qed.

(** [policy_improvement()] right after [CarRental()], on the reference
    platform. *)
Definition fresh_improved : bool * (CarRental * heap) :=
  unwrap (false, fresh) (@policy_improvement libm fresh.1 fresh.2).

Lemma fresh_improved_run :
  @policy_improvement libm fresh.1 fresh.2
  = Ok (fresh_improved.1, (fresh_improved.2.1, fresh_improved.2.2)).
Proof.
  destruct (@policy_improvement_spec libm _ _ fresh_wf) as (t & self' & h' & Hrun & _).
  exact (unwrap_Ok_triple _ _ _ Hrun).
Qed.

Lemma in_range_3_4 : in_range (3, 4).
Proof. unfold in_range, MAX_CARS. simpl. lia. Qed.

Section Greedy.
Context `{Platform}.

(** X11. [policy_improvement] is greedy, with ties to the lowest action. On
    a well-formed solver the new policy entry of every state is either the
    old entry, and then the value of no available action compares greater
    than minus infinity, or an available action whose value no available
    action exceeds, and then every lower available action has a strictly
    smaller value or a NaN. *)
Theorem policy_improvement_greedy (self self' : CarRental) (h h' : heap) (c : bool)
    (s : state) :
  solver_wf self h →
  policy_improvement self h = Ok (c, (self', h')) →
  in_range s →
  ∃ old new,
    tget (ideref h (policy self)) s.1 s.2 = Ok old
    ∧ tget (ideref h' (policy self')) s.1 s.2 = Ok new
    ∧ ((new = old
        ∧ ∀ a v, a ∈ get_available_actions s →
            bellman_expectation self h s a = Ok v →
            (neg_infinity <? v)%float = false)
       ∨ (new ∈ get_available_actions s
          ∧ ∃ best, bellman_expectation self h s new = Ok best
              ∧ (neg_infinity <? best)%float = true
              ∧ ∀ a v, a ∈ get_available_actions s →
                  bellman_expectation self h s a = Ok v →
                  (best <? v)%float = false
                  ∧ (a < new → (v <? best)%float = true ∨ PrimFloat.is_nan v = true))).
Proof.
  intros Hwf Hrun Hs.
  destruct (policy_improvement_spec self h Hwf)
    as (t & self1 & h1 & Hrun1 & Hsh & Hcells & _ & Ht & _).
  rewrite Hrun1 in Hrun. injection Hrun as _ <- <-.
  set (V := fderef h (state_values self)) in *.
  set (old := action_at (ideref h (policy self)) s).
  exists old, (greedy self V s old).2.
  split; [apply tget_action_at; [apply Hwf | done]|].
  split; [rewrite Ht; apply tget_cell_eq; [done..|]; by apply Hcells|].
  assert (∀ a v, bellman_expectation self h s a = Ok v → v = backup self V s a) as Hval.
  { intros a v. rewrite bellman_expectation_backup by done. by intros [= <-]. }
  rewrite greedy_search_fold.
  destruct (search_result (backup self V s) (get_available_actions s) neg_infinity old)
    as (_ & Hall & Hwho).
  set (r := search (backup self V s) (get_available_actions s) (neg_infinity, old)) in *.
  destruct Hwho as [Hr|(l1 & l2 & Hl & Hv & Hgt & Hbefore)].
  - left. rewrite Hr in Hall |- *. split; [done|].
    intros a v Ha Hv. rewrite (Hval a v Hv). by apply Hall.
  - right.
    assert (r.2 ∈ l1 ++ r.2 :: l2) as Hin
      by (apply elem_of_app; right; apply elem_of_cons; by left).
    rewrite <-Hl in Hin. split; [done|].
    exists (backup self V s r.2). split; [by apply bellman_expectation_backup|].
    split; [done|].
    intros a v Ha Hav. rewrite (Hval a v Hav). split; [rewrite <-Hv; by apply Hall|].
    intros Hlt. apply Hbefore.
    apply (sorted_before l1 l2 r.2 a); [|by rewrite <-Hl|done].
    rewrite <-Hl. apply available_actions_sorted.
Qed.

(** X12. What [policy_improvement] touches and what its flag means. On a
    well-formed solver it leaves a well-formed solver with the same model
    tables and the same value table; every array of the store before the
    call, the old policy array among them, is untouched; and it returns
    [True] exactly when the new policy array equals the old one. *)
Theorem policy_improvement_frame (self self' : CarRental) (h h' : heap) (c : bool) :
  solver_wf self h →
  policy_improvement self h = Ok (c, (self', h')) →
  solver_wf self' h'
  ∧ self' = set_policy (policy self') self
  ∧ fderef h' (state_values self') = fderef h (state_values self)
  ∧ farrays h' = farrays h
  ∧ (∀ l, (l < length (iarrays h))%nat → ideref h' l = ideref h l)
  ∧ (c = true ↔ ideref h' (policy self') = ideref h (policy self)).
Proof.
  intros Hwf Hrun. pose proof (policy_improvement_wf _ _ _ _ _ Hwf Hrun) as Hwf'.
  destruct (policy_improvement_spec self h Hwf)
    as (t & self1 & h1 & Hrun1 & Hsh & _ & Hself & Ht & Hf & Hold).
  rewrite Hrun1 in Hrun. injection Hrun as <- <- <-.
  split; [done|]. split; [done|]. split.
  { rewrite Hself. unfold fderef. simpl. by rewrite Hf. }
  split; [done|]. split; [done|]. rewrite Ht. split.
  - intros Heq. apply np_all_equal_eq; [done|apply Hwf|done].
  - intros <-. apply np_all_equal_refl.
Qed.
End Greedy.

Lemma policy_improvement_greedy_witness :
  ∃ old new,
    tget (ideref fresh.2 (policy fresh.1)) (3, 4).1 (3, 4).2 = Ok old
    ∧ tget (ideref fresh_improved.2.2 (policy fresh_improved.2.1)) (3, 4).1 (3, 4).2
      = Ok new
    ∧ ((new = old
        ∧ ∀ a v, a ∈ get_available_actions (3, 4) →
            @bellman_expectation fresh.1 fresh.2 (3, 4) a = Ok v →
            (neg_infinity <? v)%float = false)
       ∨ (new ∈ get_available_actions (3, 4)
          ∧ ∃ best, bellman_expectation fresh.1 fresh.2 (3, 4) new = Ok best
              ∧ (neg_infinity <? best)%float = true
              ∧ ∀ a v, a ∈ get_available_actions (3, 4) →
                  bellman_expectation fresh.1 fresh.2 (3, 4) a = Ok v →
                  (best <? v)%float = false
                  ∧ (a < new → (v <? best)%float = true ∨ PrimFloat.is_nan v = true))).
Proof.
  apply (@policy_improvement_greedy libm fresh.1 fresh_improved.2.1 fresh.2
           fresh_improved.2.2 fresh_improved.1 (3, 4)).
  - exact fresh_wf.
  - exact fresh_improved_run.
  - exact in_range_3_4.
Defined.

Lemma policy_improvement_frame_witness :
  solver_wf fresh_improved.2.1 fresh_improved.2.2
  ∧ fresh_improved.2.1 = set_policy (policy fresh_improved.2.1) fresh.1
  ∧ fderef fresh_improved.2.2 (state_values fresh_improved.2.1)
    = fderef fresh.2 (state_values fresh.1)
  ∧ farrays fresh_improved.2.2 = farrays fresh.2
  ∧ (∀ l, (l < length (iarrays fresh.2))%nat → ideref fresh_improved.2.2 l = ideref fresh.2 l)
  ∧ (fresh_improved.1 = true
     ↔ ideref fresh_improved.2.2 (policy fresh_improved.2.1)
       = ideref fresh.2 (policy fresh.1)).
Proof.
  apply (@policy_improvement_frame libm fresh.1 fresh_improved.2.1 fresh.2
           fresh_improved.2.2 fresh_improved.1).
  - exact fresh_wf.
  - exact fresh_improved_run.
Defined.

(** ** The solver that [reset] leaves *)

Lemma cell_np_zeros {A} (x : A) (s : state) : in_range s → cell (np_zeros x) s = Some x.
Proof.
  intros [H1 H2]%in_range_lt_side. unfold cell, np_zeros, full. fold side.
  rewrite lookup_replicate_2 by done. cbn [mbind option_bind].
  by rewrite lookup_replicate_2.
Qed.

Lemma result_pair_eta {A B} (r : result (A * B)) (x : A * B) :
  r = Ok x → r = Ok (x.1, x.2).
Proof. intros ->. by destruct x. Qed.

Section ResetSpec.
Context `{Platform}.

Lemma reset_unfold (h0 h : heap) (self : CarRental) :
  reset h0 = Ok (self, h) →
  ∃ b1 b2,
    precompute_model ∅ REQUEST_1_LAMBDA DROPOFF_1_LAMBDA = Ok b1
    ∧ precompute_model (b_cache b1) REQUEST_2_LAMBDA DROPOFF_B_LAMBDA = Ok b2
    ∧ self = {| _poisson_prob := b_cache b2; state_values := length (farrays h0);
                policy := length (iarrays h0);
                _probs_1 := b_P b1; _rewards_1 := b_R b1;
                _probs_2 := b_P b2; _rewards_2 := b_R b2 |}
    ∧ h = Heap (farrays h0 ++ [np_zeros 0%float]) (iarrays h0 ++ [np_zeros 0]).
Proof.
  unfold reset, falloc, ialloc. simpl.
  intros (b1 & Hb1 & (b2 & Hb2 & [= <- <-])%bind_Ok)%bind_Ok.
  by exists b1, b2.
Qed.

Lemma reset_zero_values (h0 h : heap) (self : CarRental) :
  reset h0 = Ok (self, h) → fderef h (state_values self) = np_zeros 0%float.
Proof.
  intros (b1 & b2 & _ & _ & -> & ->)%reset_unfold.
  unfold fderef. simpl. by rewrite list_lookup_middle.
Qed.

Lemma reset_zero_policy (h0 h : heap) (self : CarRental) :
  reset h0 = Ok (self, h) → ideref h (policy self) = np_zeros 0.
Proof.
  intros (b1 & b2 & _ & _ & -> & ->)%reset_unfold.
  unfold ideref. simpl. by rewrite list_lookup_middle.
Qed.

(** X13. The solver that [reset] leaves. Both arrays are new 21-by-21
    arrays of zeros and the arrays the store held before are untouched; each
    of the two models is the one that [precompute_model] builds from an
    empty cache, although the second call starts from the cache the first
    one filled; and every entry of the cache is the value a direct
    computation gives. *)
Theorem reset_initial_solver (h0 h : heap) (self : CarRental) :
  reset h0 = Ok (self, h) →
  fderef h (state_values self) = np_zeros 0%float
  ∧ ideref h (policy self) = np_zeros 0
  ∧ (∀ l, (l < length (farrays h0))%nat → fderef h l = fderef h0 l)
  ∧ (∀ l, (l < length (iarrays h0))%nat → ideref h l = ideref h0 l)
  ∧ tables (precompute_model ∅ REQUEST_1_LAMBDA DROPOFF_1_LAMBDA)
    = Ok (_probs_1 self, _rewards_1 self)
  ∧ tables (precompute_model ∅ REQUEST_2_LAMBDA DROPOFF_B_LAMBDA)
    = Ok (_probs_2 self, _rewards_2 self)
  ∧ coherent (_poisson_prob self).
Proof.
  intros Hrun. pose proof (reset_zero_policy _ _ _ Hrun) as Hpol.
  destruct (reset_unfold _ _ _ Hrun) as (b1 & b2 & Hb1 & Hb2 & -> & ->).
  split; [unfold fderef; simpl; by rewrite list_lookup_middle|].
  split; [done|].
  split; [intros l Hl; unfold fderef; simpl; by rewrite lookup_app_l|].
  split; [intros l Hl; unfold ideref; simpl; by rewrite lookup_app_l|].
  simpl. split; [by rewrite Hb1|]. split.
  - rewrite <-(precompute_model_tables_alike _ _ _ _ (b_cache b1) ∅).
    + by rewrite Hb2.
    + intros n lam _ _.
      by apply (precompute_model_answers ∅ REQUEST_1_LAMBDA DROPOFF_1_LAMBDA).
  - apply (precompute_model_coherent (b_cache b1) REQUEST_2_LAMBDA DROPOFF_B_LAMBDA b2);
      [|done].
    apply (precompute_model_coherent ∅ REQUEST_1_LAMBDA DROPOFF_1_LAMBDA b1); [|done].
    apply coherent_empty.
Qed.
End ResetSpec.

Lemma reset_initial_solver_witness :
  fderef fresh.2 (state_values fresh.1) = np_zeros 0%float
  ∧ ideref fresh.2 (policy fresh.1) = np_zeros 0
  ∧ (∀ l, (l < length (farrays (Heap [] [])))%nat → fderef fresh.2 l = fderef (Heap [] []) l)
  ∧ (∀ l, (l < length (iarrays (Heap [] [])))%nat → ideref fresh.2 l = ideref (Heap [] []) l)
  ∧ tables (@precompute_model libm ∅ REQUEST_1_LAMBDA DROPOFF_1_LAMBDA)
    = Ok (_probs_1 fresh.1, _rewards_1 fresh.1)
  ∧ tables (@precompute_model libm ∅ REQUEST_2_LAMBDA DROPOFF_B_LAMBDA)
    = Ok (_probs_2 fresh.1, _rewards_2 fresh.1)
  ∧ @coherent libm (_poisson_prob fresh.1).
Proof.
  apply (@reset_initial_solver libm (Heap [] []) fresh.2 fresh.1).
  exact (result_pair_eta _ _ fresh_init).
Defined.

(** ** Policy entries never move more cars than a location holds *)

(** Every entry of a policy array moves no more cars than the location the
    cars leave holds. *)
Definition policy_movable (P : table Z) : Prop :=
  ∀ s a, in_range s → cell P s = Some a → - s.2 ≤ a ≤ s.1.

Lemma policy_movable_zeros : policy_movable (np_zeros 0).
Proof.
  intros s a Hs. rewrite cell_np_zeros by done. intros [= <-].
  destruct Hs as [? ?]. lia.
Qed.

Lemma fresh_policy_movable : policy_movable (ideref fresh.2 (policy fresh.1)).
Proof.
  rewrite (@reset_zero_policy libm (Heap [] []) fresh.2 fresh.1).
  - exact policy_movable_zeros.
  - exact (result_pair_eta _ _ fresh_init).
Qed.

Section Movable.
Context `{Platform}.

Lemma greedy_movable (self : CarRental) (V : table float) (s : state) (old : Z) :
  - s.2 ≤ old ≤ s.1 → - s.2 ≤ (greedy self V s old).2 ≤ s.1.
Proof.
  intros Hold. rewrite greedy_search_fold.
  destruct (search_result (backup self V s) (get_available_actions s) neg_infinity old)
    as (_ & _ & Hwho).
  set (r := search (backup self V s) (get_available_actions s) (neg_infinity, old)) in *.
  destruct Hwho as [Hr|(l1 & l2 & Hl & _)]; [by rewrite Hr|].
  assert (r.2 ∈ l1 ++ r.2 :: l2) as Hin
    by (apply elem_of_app; right; apply elem_of_cons; by left).
  rewrite <-Hl in Hin. by apply elem_of_get_available_actions in Hin as [_ ?].
Qed.

Lemma policy_improvement_movable (self self' : CarRental) (h h' : heap) (c : bool) :
  solver_wf self h →
  policy_movable (ideref h (policy self)) →
  policy_improvement self h = Ok (c, (self', h')) →
  policy_movable (ideref h' (policy self')).
Proof.
  intros Hwf Hmov Hrun.
  destruct (policy_improvement_spec self h Hwf)
    as (t & self1 & h1 & Hrun1 & Hsh & Hcells & _ & Ht & _).
  rewrite Hrun1 in Hrun. injection Hrun as _ <- <-. rewrite Ht.
  intros s a Hs. rewrite (Hcells s Hs). intros [= <-].
  apply greedy_movable. unfold action_at.
  destruct (tget_cell (ideref h (policy self)) s (wf_policy _ _ Hwf) Hs) as (x & Hx & _).
  rewrite Hx. simpl. by apply Hmov.
Qed.

(** X14. [policy_improvement] keeps the policy movable: when no entry of
    the old policy array moves more cars than the location they leave holds,
    no entry of the new one does, so every entry stays between [-MAX_CARS]
    and [MAX_CARS]. *)
Theorem policy_improvement_keeps_movable (self self' : CarRental) (h h' : heap) (c : bool) :
  solver_wf self h →
  policy_movable (ideref h (policy self)) →
  policy_improvement self h = Ok (c, (self', h')) →
  policy_movable (ideref h' (policy self'))
  ∧ ∀ s a, in_range s → cell (ideref h' (policy self')) s = Some a →
      - MAX_CARS ≤ a ≤ MAX_CARS.
Proof.
  intros Hwf Hmov Hrun.
  pose proof (policy_improvement_movable _ _ _ _ _ Hwf Hmov Hrun) as Hnew.
  split; [done|]. intros s a Hs Ha. pose proof (Hnew s a Hs Ha) as Hb.
  destruct Hs as [? ?]. lia.
Qed.
End Movable.

Lemma policy_improvement_keeps_movable_witness :
  policy_movable (ideref fresh_improved.2.2 (policy fresh_improved.2.1))
  ∧ ∀ s a, in_range s →
      cell (ideref fresh_improved.2.2 (policy fresh_improved.2.1)) s = Some a →
      - MAX_CARS ≤ a ≤ MAX_CARS.
Proof.
  apply (@policy_improvement_keeps_movable libm fresh.1 fresh_improved.2.1 fresh.2
           fresh_improved.2.2 fresh_improved.1).
  - exact fresh_wf.
  - exact fresh_policy_movable.
  - exact fresh_improved_run.
Defined.

(** ** What [policy_evaluation] returns *)

Lemma run_pair_eta {A B} (r : option (result (A * B))) (x : A * B) :
  r = Some (Ok x) → r = Some (Ok (x.1, x.2)).
Proof. intros ->. by destruct x. Qed.

Section EvaluationReturn.
Context `{Platform}.

Lemma evaluation_loop_return (fuel : nat) (theta : float) (n0 : nat) (h0 : heap)
    (st : eval_state) (w : CarRental * heap) :
  eval_inv st →
  (n0 ≤ ev_new_values st)%nat →
  (∀ l, (l < n0)%nat → fderef (ev_heap st) l = fderef h0 l) →
  py_while fuel (λ _, true) (λ st, Some (evaluation_round theta st)) st
  = Some (Ok (Return w)) →
  solver_wf w.1 w.2
  ∧ w.1 = set_state_values (state_values w.1) (ev_self st)
  ∧ iarrays w.2 = iarrays (ev_heap st)
  ∧ (∀ l, (l < n0)%nat → fderef w.2 l = fderef h0 l)
  ∧ ∃ V0 delta,
      shaped V0
      ∧ (∀ s, in_range s →
           cell (fderef w.2 (state_values w.1)) s
           = Some (backup w.1 V0 s (action_at (ideref w.2 (policy w.1)) s)))
      ∧ np_max (np_abs (np_sub V0 (fderef w.2 (state_values w.1)))) = Ok delta
      ∧ (delta <? theta)%float = true.
Proof.
  revert st. induction fuel as [|fuel IH]; intros st Hinv Hn0 Hframe; simpl; [done|].
  destruct (evaluation_round_full theta st Hinv)
    as (t & delta & st1 & -> & Hinv1 & Hcells & Ht & Hself & Hia & Hmax & Hkeep & Hnv1).
  pose proof (shaped_valid_f _ _ (inv_buffer _ Hinv)) as Hnv.
  assert (∀ l, (l < n0)%nat → fderef (ev_heap st1) l = fderef h0 l) as Hframe1.
  { intros l Hl. rewrite Hkeep by lia. by apply Hframe. }
  destruct (delta <? theta)%float eqn:Hlt.
  - intros [= <-]. cbn [fst snd].
    split; [apply Hinv1|]. split; [done|]. split; [done|]. split; [done|].
    exists (fderef (ev_heap st) (state_values (ev_self st))), delta.
    split; [apply Hinv|]. split; [|by rewrite Ht].
    intros s Hs. rewrite Ht, (Hcells s Hs). unfold ideref. rewrite Hia, Hself.
    reflexivity.
  - intros Hrun.
    destruct (IH st1 Hinv1 ltac:(lia) Hframe1 Hrun)
      as (Hwf & Hself' & Hia' & Hframe' & Hlast).
    split; [done|]. split; [|split; [congruence|]; split; done].
    rewrite Hself'. rewrite Hself. reflexivity.
Qed.


(** X15. What [policy_evaluation] leaves when it returns, on a well-formed
    solver: a well-formed solver with the same model tables, the same policy
    array and a new value table; the arrays the store held before the call
    are untouched; and the value table is the backup, under the policy, of
    a table from which no cell of it differs by the threshold or more. *)
Theorem policy_evaluation_returns_converged (fuel : nat) (theta : float)
    (self self' : CarRental) (h h' : heap) :
  solver_wf self h →
  policy_evaluation fuel theta self h = Some (Ok (self', h')) →
  solver_wf self' h'
  ∧ self' = set_state_values (state_values self') self
  ∧ iarrays h' = iarrays h
  ∧ (∀ l, (l < length (farrays h))%nat → fderef h' l = fderef h l)
  ∧ ∃ V0 delta,
      shaped V0
      ∧ (∀ s, in_range s →
           cell (fderef h' (state_values self')) s
           = Some (backup self' V0 s (action_at (ideref h' (policy self')) s)))
      ∧ np_max (np_abs (np_sub V0 (fderef h' (state_values self')))) = Ok delta
      ∧ (delta <? theta)%float = true.
Proof.
  intros Hwf. rewrite policy_evaluation_unfold.
  destruct (py_while _ _ _ _) as [[[w|]|]|] eqn:Hloop; try done.
  intros [= ->].
  apply (evaluation_loop_return fuel theta (length (farrays h)) h
           (evaluation_entry self h) (self', h')) in Hloop.
  - exact Hloop.
  - by apply evaluation_entry_inv.
  - unfold evaluation_entry, falloc. simpl. lia.
  - intros l Hl. unfold evaluation_entry. cbn [ev_heap]. by apply fderef_falloc_old.
Qed.
End EvaluationReturn.

Lemma policy_evaluation_returns_converged_witness :
  solver_wf after_one_sweep.1 after_one_sweep.2
  ∧ after_one_sweep.1 = set_state_values (state_values after_one_sweep.1) fresh.1
  ∧ iarrays after_one_sweep.2 = iarrays fresh.2
  ∧ (∀ l, (l < length (farrays fresh.2))%nat → fderef after_one_sweep.2 l = fderef fresh.2 l)
  ∧ ∃ V0 delta,
      shaped V0
      ∧ (∀ s, in_range s →
           cell (fderef after_one_sweep.2 (state_values after_one_sweep.1)) s
           = Some (backup after_one_sweep.1 V0 s
                     (action_at (ideref after_one_sweep.2 (policy after_one_sweep.1)) s)))
      ∧ np_max (np_abs (np_sub V0 (fderef after_one_sweep.2 (state_values after_one_sweep.1))))
        = Ok delta
      ∧ (delta <? one_sweep_theta)%float = true.
Proof.
  apply (@policy_evaluation_returns_converged libm 1 one_sweep_theta
           fresh.1 after_one_sweep.1 fresh.2 after_one_sweep.2).
  - exact fresh_wf.
  - exact (run_pair_eta _ _ (proj1 after_one_sweep_run)).
Defined.

(** ** One step of the environment *)

Lemma step_Ok (self : CarRental) (s : state) (a : Z) :
  model_ok self → morning_ok (s.1 - a, s.2 + a) →
  step self s a
  = Ok ((s.1 - a, s.2 + a), expected_reward self (s.1 - a, s.2 + a)).
Proof. intros Hm Hok. unfold step. by rewrite (get_reward_ok self _ Hm Hok). Qed.

(** X17. [step] moves cars and loses none: the new state has as many cars
    as the old one. Its reward is that of the new state alone, whatever the
    state and the action that lead to it, so the cost of moving is no part
    of it; and stepping back with the opposite action returns the old
    state. *)
Theorem step_moves_cars (self : CarRental) (s s' : state) (a : Z) (r : float) :
  step self s a = Ok (s', r) →
  s' = (s.1 - a, s.2 + a)
  ∧ s'.1 + s'.2 = s.1 + s.2
  ∧ get_reward self s' = Ok r
  ∧ (∀ t b, (t.1 - b, t.2 + b) = s' → step self t b = Ok (s', r))
  ∧ (∀ r0, get_reward self s = Ok r0 → step self s' (- a) = Ok (s, r0)).
Proof.
  unfold step. intros (r' & Hr & [= <- <-])%bind_Ok. simpl.
  split; [done|]. split; [lia|]. split; [done|]. split.
  - intros t b ->. by rewrite Hr.
  - intros r0 Hr0.
    replace (s.1 - a - - a, s.2 + a + - a) with s by (destruct s; simpl; f_equal; lia).
    by rewrite Hr0.
Qed.

Lemma morning_ok_2_5 : morning_ok ((3, 4).1 - 1, (3, 4).2 + 1).
Proof. unfold morning_ok, MAX_CARS, MAX_MOVE. simpl. lia. Qed.

Lemma step_moves_cars_witness :
  ((3, 4).1 - 1, (3, 4).2 + 1) = ((3, 4).1 - 1, (3, 4).2 + 1)
  ∧ ((3, 4).1 - 1, (3, 4).2 + 1).1 + ((3, 4).1 - 1, (3, 4).2 + 1).2 = (3, 4).1 + (3, 4).2
  ∧ get_reward fresh.1 ((3, 4).1 - 1, (3, 4).2 + 1)
    = Ok (expected_reward fresh.1 ((3, 4).1 - 1, (3, 4).2 + 1))
  ∧ (∀ t b, (t.1 - b, t.2 + b) = ((3, 4).1 - 1, (3, 4).2 + 1) →
       step fresh.1 t b
       = Ok (((3, 4).1 - 1, (3, 4).2 + 1),
             expected_reward fresh.1 ((3, 4).1 - 1, (3, 4).2 + 1)))
  ∧ (∀ r0, get_reward fresh.1 (3, 4) = Ok r0 →
       step fresh.1 ((3, 4).1 - 1, (3, 4).2 + 1) (- 1) = Ok ((3, 4), r0)).
Proof.
  apply (step_moves_cars fresh.1 (3, 4) ((3, 4).1 - 1, (3, 4).2 + 1) 1
           (expected_reward fresh.1 ((3, 4).1 - 1, (3, 4).2 + 1))).
  exact (step_Ok fresh.1 (3, 4) 1 (wf_model _ _ fresh_wf) morning_ok_2_5).
Defined.

(** ** The tables of [precompute_model] as sums *)

(** The sum of a list of numbers, from [0.] and from left to right. *)
Definition float_sum (l : list float) : float := fold_left PrimFloat.add l 0%float.

(** The pairs of counts of requests and dropoffs, in the order of the two
    nested loops. *)
Definition count_pairs : list (Z * Z) :=
  requests ← model_range; (λ dropoffs, (requests, dropoffs)) <$> model_range.

Lemma Ok_inj {A} (a b : A) : Ok a = Ok b → a = b.
Proof. by intros [= ->]. Qed.

Section Tally.
Context `{Countable K}.

(** A dictionary after a list of accumulations. *)
Definition tally (d : gmap K float) (kvs : list (K * float)) : gmap K float :=
  fold_left (λ d kv, <[kv.1 := (dict_value d kv.1 + kv.2)%float]> d) kvs d.

(** The numbers accumulated under one key, in order. *)
Definition terms_at (k : K) (kvs : list (K * float)) : list float :=
  (filter (λ kv, kv.1 = k) kvs).*2.

Lemma tally_app (d : gmap K float) (l1 l2 : list (K * float)) :
  tally d (l1 ++ l2) = tally (tally d l1) l2.
Proof. apply fold_left_app. Qed.

Lemma for_each_tally {A} (xs : list A) (key : A → K) (val : A → float)
    (d : gmap K float) :
  for_each xs (λ x d, dict_accumulate d (key x) (val x)) d
  = Ok (tally d ((λ x, (key x, val x)) <$> xs)).
Proof.
  revert d. induction xs as [|x xs IH]; intros d; simpl; [done|].
  rewrite dict_accumulate_Ok. simpl. apply IH.
Qed.

Lemma terms_at_app (k : K) (l1 l2 : list (K * float)) :
  terms_at k (l1 ++ l2) = terms_at k l1 ++ terms_at k l2.
Proof. unfold terms_at. by rewrite filter_app, fmap_app. Qed.

Lemma terms_at_cons (k : K) (kv : K * float) (l : list (K * float)) :
  terms_at k (kv :: l) = if decide (kv.1 = k) then kv.2 :: terms_at k l else terms_at k l.
Proof. unfold terms_at. rewrite filter_cons. by destruct (decide (kv.1 = k)). Qed.

Lemma terms_at_bind {A} (k : K) (xs : list A) (f : A → list (K * float)) :
  terms_at k (xs ≫= f) = xs ≫= (λ x, terms_at k (f x)).
Proof.
  induction xs as [|x xs IH]; [done|].
  cbn [mbind list_bind]. by rewrite terms_at_app, IH.
Qed.

Lemma tally_lookup (d : gmap K float) (kvs : list (K * float)) (k : K) :
  tally d kvs !! k
  = match terms_at k kvs with
    | [] => d !! k
    | _ => Some (fold_left PrimFloat.add (terms_at k kvs) (dict_value d k))
    end.
Proof.
  revert d. induction kvs as [|kv kvs IH]; intros d; [done|].
  cbn [tally fold_left]. fold (tally (<[kv.1 := (dict_value d kv.1 + kv.2)%float]> d) kvs).
  rewrite IH, terms_at_cons. destruct (decide (kv.1 = k)) as [<-|Hne].
  - assert (dict_value (<[kv.1 := (dict_value d kv.1 + kv.2)%float]> d) kv.1
            = (dict_value d kv.1 + kv.2)%float) as ->
      by (unfold dict_value at 1; by rewrite lookup_insert_eq).
    rewrite lookup_insert_eq. cbn [fold_left].
    by destruct (terms_at kv.1 kvs).
  - assert (dict_value (<[kv.1 := (dict_value d kv.1 + kv.2)%float]> d) k
            = dict_value d k) as ->
      by (unfold dict_value at 1 3; by rewrite lookup_insert_ne).
    by rewrite lookup_insert_ne.
Qed.
End Tally.

(** The numbers under the key of [k] in a list with one entry for each
    element of a list without duplicates. *)
Lemma terms_at_keyed `{Countable K} `{Countable J} (key : J → K) (val : J → float)
    (k : K) (ns : list J) :
  terms_at k ((λ n, (key n, val n)) <$> ns)
  = val <$> filter (λ n, key n = k) ns.
Proof.
  induction ns as [|n ns IH]; [done|].
  rewrite fmap_cons, terms_at_cons, filter_cons. cbn [fst snd].
  destruct (decide (key n = k)); by rewrite IH.
Qed.

Lemma filter_eq_NoDup `{EqDecision A} (x : A) (l : list A) :
  NoDup l → x ∈ l → filter (λ y, y = x) l = [x].
Proof.
  induction 1 as [|y l Hy Hnd IH]; [by intros ?%elem_of_nil|].
  rewrite filter_cons. intros [->|Hx]%elem_of_cons.
  - rewrite decide_True by done. f_equal.
    clear IH Hnd. induction l as [|z l IH]; [done|].
    rewrite filter_cons. apply not_elem_of_cons in Hy as [Hne Hy].
    rewrite decide_False by done. by apply IH.
  - rewrite decide_False by (intros ->; done). by apply IH.
Qed.

Lemma bind_singleton_fmap {A B} (f : A → B) (l : list A) :
  l ≫= (λ x, [f x]) = f <$> l.
Proof. induction l as [|x l IH]; [done|]. cbn [mbind list_bind]. by rewrite IH. Qed.

Lemma bind_filter_pairs {A B C} (P : A * B → Prop) `{∀ p, Decision (P p)}
    (v : A * B → C) (xs : list A) (ys : list B) :
  xs ≫= (λ x, v <$> filter P ((λ y, (x, y)) <$> ys))
  = v <$> filter P (x ← xs; (λ y, (x, y)) <$> ys).
Proof.
  induction xs as [|x xs IH]; [done|].
  cbn [mbind list_bind]. by rewrite filter_app, fmap_app, IH.
Qed.

Lemma model_range_NoDup : NoDup model_range.
Proof. apply NoDup_seqZ. Qed.

(** A loop invariant that follows the elements visited so far. *)
Lemma for_each_visited {A S} (I : list A → S → Prop) (xs : list A)
    (body : A → S → result S) (s s' : S) :
  I [] s →
  (∀ pre x s s', I pre s → body x s = Ok s' → I (pre ++ [x]) s') →
  for_each xs body s = Ok s' → I xs s'.
Proof.
  intros Hinit Hbody. change xs with ([] ++ xs) at 2. revert Hinit.
  generalize (@nil A). revert s.
  induction xs as [|x xs IH]; intros s pre Hpre; simpl.
  - intros [= <-]. by rewrite app_nil_r.
  - intros (s1 & H1 & H2)%bind_Ok.
    replace (pre ++ x :: xs) with ((pre ++ [x]) ++ xs) by by rewrite <-app_assoc.
    apply (IH s1); [|done]. by eapply Hbody.
Qed.

Section ModelSums.
Context `{Platform}.
Variables (cache : gmap (Z * Z) float) (lr ld : Z).

(** The probability of a count as the cache on entry answers it. *)
Definition answer (lam k : Z) : float := unwrap 0%float (cached_value cache k lam).

Definition reward_terms (requests : Z) : list (Z * float) :=
  (λ n, (n, (float_of_Z CAR_RENTAL_COST * answer lr requests
             * float_of_Z (Z.min requests n))%float)) <$> model_range.

Definition prob_terms_of (requests dropoffs : Z) : list (Z * Z * float) :=
  (λ n, ((n, next_morning requests dropoffs n),
         (answer lr requests * answer ld dropoffs)%float)) <$> model_range.

Definition prob_terms (requests : Z) : list (Z * Z * float) :=
  model_range ≫= prob_terms_of requests.

Definition answers_kept (c : gmap (Z * Z) float) : Prop :=
  ∀ n lam, cached_value c n lam = cached_value cache n lam.

Lemma poisson_probability_answer (c c' : gmap (Z * Z) float) (k lam : Z) (v : float) :
  answers_kept c → poisson_probability c k lam = Ok (v, c') →
  cached_value cache k lam = Ok v ∧ v = answer lam k ∧ answers_kept c'.
Proof.
  intros Hc Hrun. pose proof (poisson_probability_answers c c' k lam v Hrun) as Hkept.
  apply poisson_probability_Ok in Hrun as [Hv _]. rewrite Hc in Hv.
  split; [done|]. split.
  - unfold answer. by rewrite Hv.
  - intros n' lam'. by rewrite Hkept.
Qed.

Lemma dropoffs_loop (requests : Z) (c : gmap (Z * Z) float) (P : gmap (Z * Z) float)
    (R : gmap Z float) (b : building) :
  answers_kept c →
  for_each model_range (λ dropoffs b,
    '(dropoffs_prob, cache) ← poisson_probability (b_cache b) dropoffs ld;
    P ← for_each model_range (λ n P,
           let satisfied_requests := Z.min requests n in
           let new_n := Z.max 0 (Z.min MAX_CARS (n + dropoffs - satisfied_requests)) in
           dict_accumulate P (n, new_n) (answer lr requests * dropoffs_prob)%float)
         (b_P b);
    Ok (Building cache P (b_R b)))
  (Building c P R) = Ok b →
  b_R b = R ∧ b_P b = tally P (prob_terms requests) ∧ answers_kept (b_cache b)
  ∧ ∀ k, k ∈ model_range → cached_value cache k ld = Ok (answer ld k).
Proof.
  intros Hc Hrun.
  refine (for_each_visited
            (λ pre b, b_R b = R ∧ b_P b = tally P (pre ≫= prob_terms_of requests)
                      ∧ answers_kept (b_cache b)
                      ∧ ∀ k, k ∈ pre → cached_value cache k ld = Ok (answer ld k))
            _ _ _ _ _ _ Hrun).
  - split; [done|]. split; [done|]. split; [done|]. by intros k ?%elem_of_nil.
  - clear b Hrun. intros pre dropoffs b b' (HR & HP & Hkept & Hseen) Hbody.
    apply bind_Ok in Hbody as ([dp c1] & Hp & Hbody).
    apply (poisson_probability_answer _ _ _ _ _ Hkept) in Hp as (Hans & -> & Hkept1).
    apply bind_Ok in Hbody as (P1 & HP1 & [= <-]). cbn [b_R b_P b_cache].
    rewrite (for_each_tally model_range
               (λ n, (n, next_morning requests dropoffs n))
               (λ _, (answer lr requests * answer ld dropoffs)%float)) in HP1.
    apply Ok_inj in HP1 as <-.
    split; [done|]. split; [|split; [done|]].
    + rewrite HP. rewrite bind_app, tally_app. cbn [mbind list_bind].
      by rewrite app_nil_r.
    + intros k [Hk| ->%list_elem_of_singleton]%elem_of_app; [by apply Hseen|].
      unfold answer in Hans |- *. by rewrite Hans.
Qed.

Lemma precompute_model_tally (b : building) :
  precompute_model cache lr ld = Ok b →
  b_R b = tally ∅ (model_range ≫= reward_terms)
  ∧ b_P b = tally ∅ (model_range ≫= prob_terms)
  ∧ ∀ k, k ∈ model_range →
      cached_value cache k lr = Ok (answer lr k)
      ∧ cached_value cache k ld = Ok (answer ld k).
Proof.
  intros Hrun. unfold precompute_model in Hrun.
  assert (b_R b = tally ∅ (model_range ≫= reward_terms)
          ∧ b_P b = tally ∅ (model_range ≫= prob_terms)
          ∧ answers_kept (b_cache b)
          ∧ (∀ k, k ∈ model_range → cached_value cache k lr = Ok (answer lr k))
          ∧ (model_range ≠ [] →
             ∀ k, k ∈ model_range → cached_value cache k ld = Ok (answer ld k)))
    as (HR & HP & _ & Hlr & Hld).
  { refine (for_each_visited
              (λ pre b, b_R b = tally ∅ (pre ≫= reward_terms)
                        ∧ b_P b = tally ∅ (pre ≫= prob_terms)
                        ∧ answers_kept (b_cache b)
                        ∧ (∀ k, k ∈ pre → cached_value cache k lr = Ok (answer lr k))
                        ∧ (pre ≠ [] → ∀ k, k ∈ model_range →
                             cached_value cache k ld = Ok (answer ld k)))
              _ _ _ _ _ _ Hrun).
    - split; [done|]. split; [done|]. split; [done|].
      split; [by intros k ?%elem_of_nil | done].
    - clear b Hrun. intros pre requests b b' (HR & HP & Hkept & Hseen & Hd) Hbody.
      apply bind_Ok in Hbody as ([rp c1] & Hp & Hbody).
      apply (poisson_probability_answer _ _ _ _ _ Hkept) in Hp as (Hans & -> & Hkept1).
      apply bind_Ok in Hbody as (R1 & HR1 & Hbody).
      rewrite (for_each_tally model_range (λ n, n)
                 (λ n, (float_of_Z CAR_RENTAL_COST * answer lr requests
                        * float_of_Z (Z.min requests n))%float)) in HR1.
      apply Ok_inj in HR1 as <-.
      apply (dropoffs_loop requests) in Hbody as (HRb & HPb & Hkeptb & Hldb); [|done].
      split; [|split; [|split; [done|split]]].
      + rewrite HRb, HR. rewrite bind_app, tally_app. cbn [mbind list_bind].
        by rewrite app_nil_r.
      + rewrite HPb, HP. rewrite bind_app, tally_app. cbn [mbind list_bind].
        by rewrite app_nil_r.
      + intros k [Hk| ->%list_elem_of_singleton]%elem_of_app; [by apply Hseen|].
        unfold answer in Hans |- *. by rewrite Hans.
      + intros _. exact Hldb. }
  split; [exact HR|]. split; [exact HP|]. intros k Hk. split; [exact (Hlr k Hk)|].
  apply Hld; [|exact Hk]. intros Hnil. rewrite Hnil in Hk. by apply elem_of_nil in Hk.
Qed.

Lemma reward_terms_at (n : Z) :
  n ∈ model_range →
  terms_at n (model_range ≫= reward_terms)
  = (λ requests, (float_of_Z CAR_RENTAL_COST * answer lr requests
                  * float_of_Z (Z.min requests n))%float) <$> model_range.
Proof.
  intros Hn. rewrite terms_at_bind, <-bind_singleton_fmap.
  apply list_bind_ext; [|done]. intros requests. unfold reward_terms.
  rewrite (terms_at_keyed (λ m, m)).
  by rewrite (filter_eq_NoDup n model_range model_range_NoDup Hn).
Qed.

Lemma prob_terms_at (n n' : Z) :
  n ∈ model_range →
  terms_at (n, n') (model_range ≫= prob_terms)
  = (λ rd, (answer lr rd.1 * answer ld rd.2)%float)
    <$> filter (λ rd, next_morning rd.1 rd.2 n = n') count_pairs.
Proof.
  intros Hn. rewrite terms_at_bind. unfold count_pairs.
  rewrite <-(bind_filter_pairs (λ rd, next_morning rd.1 rd.2 n = n')).
  apply list_bind_ext; [|done]. intros requests. unfold prob_terms.
  rewrite terms_at_bind.
  assert (∀ ds : list Z,
            ds ≫= (λ dropoffs, terms_at (n, n') (prob_terms_of requests dropoffs))
            = (λ rd, (answer lr rd.1 * answer ld rd.2)%float)
              <$> filter (λ rd, next_morning rd.1 rd.2 n = n')
                    ((λ dropoffs, (requests, dropoffs)) <$> ds)) as Hgen; [|apply Hgen].
  intros ds. induction ds as [|dropoffs ds IH]; [done|].
  cbn [mbind list_bind]. rewrite fmap_cons, filter_cons, IH. cbn [fst snd].
  unfold prob_terms_of at 1.
  rewrite (terms_at_keyed (λ m, (m, next_morning requests dropoffs m))).
  assert (filter (λ m, (m, next_morning requests dropoffs m) = (n, n')) model_range
          = if decide (next_morning requests dropoffs n = n') then [n] else []) as ->.
  { pose proof (filter_eq_NoDup n model_range model_range_NoDup Hn) as Hone.
    revert Hone. generalize model_range. intros l.
    induction l as [|m l IHl]; [by destruct (decide _)|].
    rewrite !filter_cons. destruct (decide (m = n)) as [->|Hne].
    - intros [= Hrest]. destruct (decide (next_morning requests dropoffs n = n')) as [->|Hd].
      + rewrite decide_True by done. f_equal.
        clear IHl. induction l as [|m l IHl]; [done|].
        rewrite filter_cons in Hrest |- *. destruct (decide (m = n)); [done|].
        rewrite decide_False by (intros [= ? ?]; done). by apply IHl.
      + rewrite decide_False by (intros [= ?]; done).
        clear IHl. induction l as [|m l IHl]; [done|].
        rewrite filter_cons in Hrest |- *. destruct (decide (m = n)); [done|].
        rewrite decide_False by (intros [= ? ?]; done). by apply IHl.
    - intros Hrest. rewrite decide_False by (intros [= ? ?]; done). by apply IHl. }
  by destruct (decide (next_morning requests dropoffs n = n')).
Qed.

(** X18. The tables of [precompute_model] as sums. When the call returns,
    every probability it asked for was answered, from the cache on entry or
    by a computation; the expected reward of [n] cars is the sum over the
    counts of requests of [CAR_RENTAL_COST * p(requests) * min(requests, n)];
    and the probability of going from [n] cars to [n'] is the sum of
    [p(requests) * p(dropoffs)] over the pairs of counts that lead from [n]
    to [n'], each sum taken from [0.] in the order of the loops. *)
Theorem precompute_model_sums (b : building) :
  precompute_model cache lr ld = Ok b →
  ∃ pr pd : Z → float,
    (∀ k, k ∈ model_range →
       cached_value cache k lr = Ok (pr k) ∧ cached_value cache k ld = Ok (pd k))
    ∧ (∀ n, n ∈ model_range →
         b_R b !! n
         = Some (float_sum ((λ requests, (float_of_Z CAR_RENTAL_COST * pr requests
                                          * float_of_Z (Z.min requests n))%float)
                            <$> model_range)))
    ∧ (∀ n n', n ∈ model_range → 0 ≤ n' ≤ MAX_CARS →
         b_P b !! (n, n')
         = Some (float_sum ((λ rd, (pr rd.1 * pd rd.2)%float)
                            <$> filter (λ rd, next_morning rd.1 rd.2 n = n')
                                  count_pairs))).
Proof.
  intros Hrun. destruct (precompute_model_tally b Hrun) as (HR & HP & Hans).
  destruct (precompute_model_keys cache lr ld b Hrun) as [HRk HPk].
  exists (answer lr), (answer ld). split; [exact Hans|]. split.
  - intros n Hn. pose proof (proj2 (HRk n) (proj1 (elem_of_model_range n) Hn)) as Hsome.
    rewrite HR, tally_lookup in Hsome |- *. rewrite reward_terms_at in Hsome |- * by done.
    destruct (_ <$> model_range) eqn:E; [|done].
    rewrite lookup_empty in Hsome. destruct Hsome as [x Hx]. discriminate Hx.
  - intros n n' Hn Hn'.
    pose proof (proj2 (HPk n n') (conj (proj1 (elem_of_model_range n) Hn) Hn')) as Hsome.
    rewrite HP, tally_lookup in Hsome |- *. rewrite prob_terms_at in Hsome |- * by done.
    destruct (_ <$> filter _ count_pairs) eqn:E; [|done].
    rewrite lookup_empty in Hsome. destruct Hsome as [x Hx]. discriminate Hx.
Qed.
End ModelSums.

(** ** When the constructor returns *)

(** The rates of the four Poisson distributions. *)
Definition rates_used : list Z :=
  [REQUEST_1_LAMBDA; DROPOFF_1_LAMBDA; REQUEST_2_LAMBDA; DROPOFF_B_LAMBDA].

Lemma for_each_returns {A S} (xs : list A) (body : A → S → result S) (s : S) :
  (∀ x s, x ∈ xs → ∃ s', body x s = Ok s') → ∃ s', for_each xs body s = Ok s'.
Proof.
  revert s. induction xs as [|x xs IH]; intros s Hbody; simpl; [by eexists|].
  destruct (Hbody x s) as [s1 ->]; [by left|]. simpl.
  apply IH. intros y t Hy. apply Hbody. by right.
Qed.

(** The factorial of a count of the model converts to a finite number. *)
Lemma factorial_converts (k : Z) :
  k ∈ model_range → ∃ d, math_factorial k ≫= float_of_int = Ok d.
Proof.
  assert (forallb (λ k, result_ok (math_factorial k ≫= float_of_int)) model_range = true)
    as Hall by (vm_compute; reflexivity).
  intros Hk%list_elem_of_In. rewrite forallb_forall in Hall. specialize (Hall k Hk).
  destruct (math_factorial k ≫= float_of_int) as [d|]; [by exists d | discriminate].
Qed.

Section Returns.
Context `{Platform}.

Lemma poisson_value_returns (k lam : Z) :
  k ∈ model_range →
  (∃ e, math_exp (- lam) = Ok e) → (∃ p, math_pow lam k = Ok p) →
  ∃ v, poisson_value k lam = Ok v.
Proof.
  intros Hk [e He] [p Hp]. unfold poisson_value. rewrite He, Hp. simpl.
  destruct (factorial_converts k Hk) as [d Hd].
  destruct (math_factorial k) as [f|]; [|discriminate]. simpl in Hd |- *.
  rewrite Hd. simpl. by eexists.
Qed.

Lemma poisson_probability_returns (c : gmap (Z * Z) float) (k lam : Z) :
  (∃ v, poisson_value k lam = Ok v) → ∃ w, poisson_probability c k lam = Ok w.
Proof.
  intros [v Hv]. rewrite poisson_probability_cached_value. unfold cached_value.
  destruct (c !! (k, lam)) as [v'|]; [|rewrite Hv]; simpl; by eexists.
Qed.

Lemma precompute_model_returns (c : gmap (Z * Z) float) (lr ld : Z) :
  (∀ k, k ∈ model_range → ∃ v, poisson_value k lr = Ok v) →
  (∀ k, k ∈ model_range → ∃ v, poisson_value k ld = Ok v) →
  ∃ b, precompute_model c lr ld = Ok b.
Proof.
  intros Hlr Hld. unfold precompute_model. apply for_each_returns.
  intros requests b Hr.
  destruct (poisson_probability_returns (b_cache b) requests lr (Hlr _ Hr)) as [[rp c1] ->].
  cbn [mbind result_bind].
  rewrite (for_each_tally model_range (λ n, n)
             (λ n, (float_of_Z CAR_RENTAL_COST * rp * float_of_Z (Z.min requests n))%float)).
  cbn [mbind result_bind]. apply for_each_returns.
  intros dropoffs b1 Hd.
  destruct (poisson_probability_returns (b_cache b1) dropoffs ld (Hld _ Hd)) as [[dp c2] ->].
  cbn [mbind result_bind].
  rewrite (for_each_tally model_range
             (λ n, (n, Z.max 0 (Z.min MAX_CARS (n + dropoffs - Z.min requests n))))
             (λ _, (rp * dp)%float)).
  cbn [mbind result_bind]. by eexists.
Qed.

(** X19. The constructor raises nothing when the C library does not: if
    [math.exp] returns at the negated rates and [math.pow] returns at each
    rate and each count below 26, then [reset], and so [CarRental()],
    returns a well-formed solver. No factorial is taken of a negative
    number, and no factorial is too large for a float. *)
Theorem reset_returns (h0 : heap) :
  (∀ lam, lam ∈ rates_used → ∃ e, math_exp (- lam) = Ok e) →
  (∀ lam k, lam ∈ rates_used → k ∈ model_range → ∃ p, math_pow lam k = Ok p) →
  ∃ self h, CarRental_init h0 = Ok (self, h) ∧ solver_wf self h.
Proof.
  intros Hexp Hpow.
  assert (∀ lam k, lam ∈ rates_used → k ∈ model_range → ∃ v, poisson_value k lam = Ok v)
    as Hval.
  { intros lam k Hlam Hk. apply poisson_value_returns; [done|by apply Hexp|by apply Hpow]. }
  assert (∃ w, reset h0 = Ok w) as [[self h] Hrun].
  { unfold reset, falloc, ialloc. cbn [fst snd].
    destruct (precompute_model_returns ∅ REQUEST_1_LAMBDA DROPOFF_1_LAMBDA) as [b1 ->].
    { intros k. apply Hval. unfold rates_used. set_solver. }
    { intros k. apply Hval. unfold rates_used. set_solver. }
    cbn [mbind result_bind].
    destruct (precompute_model_returns (b_cache b1) REQUEST_2_LAMBDA DROPOFF_B_LAMBDA)
      as [b2 ->].
    { intros k. apply Hval. unfold rates_used. set_solver. }
    { intros k. apply Hval. unfold rates_used. set_solver. }
    cbn [mbind result_bind]. by eexists. }
  exists self, h. split; [exact Hrun|]. by apply (reset_wf h0).
Qed.
End Returns.

Lemma libm_exp_returns (lam : Z) :
  lam ∈ rates_used → ∃ e, @math_exp libm (- lam) = Ok e.
Proof.
  unfold rates_used. intros Hlam.
  repeat (apply elem_of_cons in Hlam as [->|Hlam]); [by eexists..|].
  by apply elem_of_nil in Hlam.
Qed.

Lemma libm_pow_returns (lam k : Z) :
  lam ∈ rates_used → k ∈ model_range → ∃ p, @math_pow libm lam k = Ok p.
Proof.
  intros _ Hk%elem_of_model_range. unfold libm, ref_platform, math_pow.
  destruct (Z.leb_spec 0 k); [by eexists|]. lia.
Qed.

Lemma reset_returns_witness :
  ∃ self h, @CarRental_init libm (Heap [] []) = Ok (self, h) ∧ solver_wf self h.
Proof.
  apply (@reset_returns libm (Heap [] [])).
  - exact libm_exp_returns.
  - exact libm_pow_returns.
Defined.

Lemma precompute_model_sums_witness :
  ∃ pr pd : Z → float,
    (∀ k, k ∈ model_range →
       @cached_value libm ∅ k REQUEST_1_LAMBDA = Ok (pr k)
       ∧ @cached_value libm ∅ k DROPOFF_1_LAMBDA = Ok (pd k))
    ∧ (∀ n, n ∈ model_range →
         b_R first_model !! n
         = Some (float_sum ((λ requests, (float_of_Z CAR_RENTAL_COST * pr requests
                                          * float_of_Z (Z.min requests n))%float)
                            <$> model_range)))
    ∧ (∀ n n', n ∈ model_range → 0 ≤ n' ≤ MAX_CARS →
         b_P first_model !! (n, n')
         = Some (float_sum ((λ rd, (pr rd.1 * pd rd.2)%float)
                            <$> filter (λ rd, next_morning rd.1 rd.2 n = n')
                                  count_pairs))).
Proof.
  apply (@precompute_model_sums libm ∅ REQUEST_1_LAMBDA DROPOFF_1_LAMBDA first_model).
  exact first_model_run.
Defined.

(** ** A NaN in the value table *)

Lemma nan_add (x : float) : (nan + x)%float = nan.
Proof.
  apply Prim2SF_inj. rewrite add_spec. change (Prim2SF nan) with S754_nan.
  by destruct (Prim2SF x).
Qed.

Lemma sub_nan (x : float) : (x - nan)%float = nan.
Proof.
  apply Prim2SF_inj. rewrite sub_spec. change (Prim2SF nan) with S754_nan.
  by destruct (Prim2SF x).
Qed.

Lemma ltb_nan (x : float) : (nan <? x)%float = false.
Proof. rewrite FloatAxioms.ltb_spec. change (Prim2SF nan) with S754_nan. done. Qed.

Lemma np_maximum_nan (x : float) : np_maximum nan x = nan.
Proof.
  unfold np_maximum. change (PrimFloat.is_nan nan) with true.
  by rewrite orb_true_r.
Qed.

Lemma is_nan_eq (x : float) : PrimFloat.is_nan x = true → x = nan.
Proof.
  intros Hx%is_nan_key. apply Prim2SF_inj. change (Prim2SF nan) with S754_nan.
  unfold float_key in Hx. by destruct (Prim2SF x) as [[]|[]| |[] m e].
Qed.

(** A NaN in any cell of the value table makes every backup a NaN. *)
Lemma backup_any_nan (self : CarRental) (V : table float) (s s' : state) (a : Z) :
  in_range s' → table_value V s' = nan → backup self V s a = nan.
Proof.
  intros Hs'%elem_of_all_states HV. unfold backup.
  apply list_elem_of_split in Hs' as (l1 & l2 & ->).
  rewrite fold_left_app. cbn [fold_left]. rewrite HV.
  rewrite mul_nan, add_nan, mul_nan, add_nan.
  induction l2 as [|s2 l2 IH]; [done|]. cbn [fold_left]. by rewrite nan_add.
Qed.

Lemma np_max_first_nan (V t : table float) :
  shaped V → shaped t → cell t (0, 0) = Some nan →
  np_max (np_abs (np_sub V t)) = Ok nan.
Proof.
  intros [HlV HrV] [Hlt Hrt] Hc.
  destruct V as [|rV V]; [discriminate HlV|].
  destruct t as [|rt t]; [discriminate Hlt|].
  apply Forall_cons in HrV as [HrV _]. apply Forall_cons in Hrt as [Hrt _].
  destruct rV as [|v rV]; [discriminate HrV|].
  destruct rt as [|x rt]; [discriminate Hrt|].
  injection Hc as ->. unfold np_max, np_abs, np_sub.
  cbn [zip_with map concat app]. rewrite sub_nan. change (PrimFloat.abs nan) with nan.
  f_equal. generalize (map PrimFloat.abs (zip_with PrimFloat.sub rV rt)
                       ++ concat (map (map PrimFloat.abs)
                                    (zip_with (zip_with PrimFloat.sub) V t))).
  intros l. induction l as [|y l IH]; [done|]. cbn [fold_left].
  by rewrite np_maximum_nan.
Qed.

Section NaN.
Context `{Platform}.

Lemma evaluation_loop_nan (fuel : nat) (theta : float) (st : eval_state) (s : state) :
  eval_inv st → in_range s →
  table_value (fderef (ev_heap st) (state_values (ev_self st))) s = nan →
  py_while fuel (λ _, true) (λ st, Some (evaluation_round theta st)) st = None.
Proof.
  revert st s. induction fuel as [|fuel IH]; intros st s Hinv Hs HV; simpl; [done|].
  destruct (evaluation_round_full theta st Hinv)
    as (t & delta & st1 & -> & Hinv1 & Hcells & Ht & _ & _ & Hmax & _).
  assert (∀ s1, in_range s1 → cell t s1 = Some nan) as Hnan.
  { intros s1 Hs1. rewrite (Hcells s1 Hs1). f_equal. by apply (backup_any_nan _ _ _ s). }
  rewrite (np_max_first_nan _ t) in Hmax.
  - apply Ok_inj in Hmax as <-. rewrite ltb_nan.
    apply (IH st1 (0, 0) Hinv1 in_range_0_0).
    rewrite Ht. unfold table_value. by rewrite (Hnan (0, 0) in_range_0_0).
  - apply Hinv.
  - rewrite <-Ht. apply Hinv1.
  - apply Hnan, in_range_0_0.
Qed.

(** X20. A NaN in the value table is never repaired and never reported:
    when a cell of the value table of a well-formed solver holds a NaN,
    [policy_evaluation], for every threshold, and [policy_iteration] are
    still running after any number of sweeps; they neither return nor
    raise. *)
Theorem nan_value_never_converges (fuel : nat) (theta : float) (self : CarRental)
    (h : heap) (s : state) :
  solver_wf self h → in_range s →
  PrimFloat.is_nan (table_value (fderef h (state_values self)) s) = true →
  policy_evaluation fuel theta self h = None
  ∧ policy_iteration fuel self h = None.
Proof.
  intros Hwf Hs HV%is_nan_eq.
  assert (∀ fuel theta, policy_evaluation fuel theta self h = None) as Hev.
  { intros fuel' theta'. rewrite policy_evaluation_unfold.
    rewrite (evaluation_loop_nan fuel' theta' (evaluation_entry self h) s); [done| |done|].
    - by apply evaluation_entry_inv.
    - unfold evaluation_entry. cbn [ev_heap ev_self].
      rewrite fderef_falloc_old; [done|]. apply shaped_valid_f, Hwf. }
  split; [apply Hev|]. unfold policy_iteration.
  destruct fuel as [|fuel]; [done|]. cbn [py_while]. unfold iteration_round.
  cbn [fst snd]. by rewrite Hev.
Qed.
End NaN.

Lemma nan_value_never_converges_witness :
  @policy_evaluation libm 1000 default_theta fresh.1 nan_heap = None
  ∧ @policy_iteration libm 1000 fresh.1 nan_heap = None.
Proof.
  apply (@nan_value_never_converges libm 1000 default_theta fresh.1 nan_heap
           (MAX_CARS, MAX_CARS)).
  - exact nan_solver_wf.
  - unfold in_range, MAX_CARS. simpl. lia.
  - rewrite nan_solver_values. exact (f_equal PrimFloat.is_nan nan_table_last_cell).
Defined.

(** * Instances on the solver of the reference platform *)

Lemma unwrap_Ok_true {B C} (d : bool * (B * C)) (r : result (bool * (B * C)))
    (x : B * C) :
  r = Ok (true, x) → r = Ok (true, ((unwrap d r).2.1, (unwrap d r).2.2)).
Proof. intros ->. by destruct x. Qed.


Lemma table_bounded_zeros (k : Z) : table_bounded k (np_zeros 0%float).
Proof.
  intros s v Hs. rewrite cell_np_zeros by done. intros [= <-]. apply mag_le_zero.
Qed.

Lemma fresh_model_bounded : model_bounded fresh.1.
Proof. apply model_boundedb_spec. vm_compute. reflexivity. Qed.

Lemma fresh_values_bounded : table_bounded 128 (fderef fresh.2 (state_values fresh.1)).
Proof.
  rewrite (@reset_zero_values libm (Heap [] []) fresh.2 fresh.1).
  - apply table_bounded_zeros.
  - exact (result_pair_eta _ _ fresh_init).
Qed.

Lemma fresh_improved_wf : solver_wf fresh_improved.2.1 fresh_improved.2.2.
Proof. exact (@policy_improvement_wf libm _ _ _ _ _ fresh_wf fresh_improved_run). Qed.

(** A second [policy_improvement()] after [CarRental()]: the policy that the
    first one chose is stable. *)
Definition fresh_settled : bool * (CarRental * heap) :=
  unwrap (false, fresh) (@policy_improvement libm fresh_improved.2.1 fresh_improved.2.2).

Lemma fresh_settled_run :
  @policy_improvement libm fresh_improved.2.1 fresh_improved.2.2
  = Ok (true, (fresh_settled.2.1, fresh_settled.2.2)).
Proof.
  destruct (@policy_improvement_settles libm _ _ _ _ _ fresh_wf fresh_model_bounded
              fresh_values_bounded fresh_improved_run) as (self2 & h2 & Hrun).
  exact (unwrap_Ok_true _ _ _ Hrun).
Qed.

Lemma policy_improvement_idempotent_when_stable_witness :
  ∃ self2 h2,
    @policy_improvement libm fresh_settled.2.1 fresh_settled.2.2 = Ok (true, (self2, h2))
    ∧ ideref h2 (policy self2) = ideref fresh_settled.2.2 (policy fresh_settled.2.1)
    ∧ ideref fresh_settled.2.2 (policy fresh_settled.2.1)
      = ideref fresh_improved.2.2 (policy fresh_improved.2.1).
Proof.
  apply (@policy_improvement_idempotent_when_stable libm
           fresh_improved.2.1 fresh_settled.2.1 fresh_improved.2.2 fresh_settled.2.2).
  - exact fresh_improved_wf.
  - exact fresh_settled_run.
Defined.



